(** * A heap model of [vector.h]: [RawMemory<T>] and [Vector<T>]

    The development embeds the two class templates of
    [advanced-vector/vector.h] over an explicit store:

    - raw blocks obtained from [operator new], as lists of cells that are
      either uninitialised ([Raw]) or hold a constructed object ([Live]);
    - the [Vector] and [RawMemory] objects themselves, addressed by
      number, so that [this != &rhs] is a comparison of addresses;
    - the objects whose storage was released without their destructor
      having run ([leaked]).

    Member functions are written in a state-and-exception monad, in the
    order of the C++ text; destructors of locals are written out where the
    language runs them. *)

From stdpp Require Import base tactics option list gmap.
From Stdlib Require Import NArith Lia.

Set Default Proof Using "Type".

(** ** Exceptions, pointers, cells *)

Inductive exn :=
  | bad_alloc
  | elem_exn (code : nat).

(** A [T*]: null, or a block and an element offset inside it. *)
Inductive ptr :=
  | Null
  | Ptr (b : nat) (off : nat).

Inductive cell (T : Type) :=
  | Raw
  | Live (v : T).
Arguments Raw {T}.
Arguments Live {T} v.

Global Instance exn_eq_dec : EqDecision exn.
Proof. solve_decision. Defined.
Global Instance ptr_eq_dec : EqDecision ptr.
Proof. solve_decision. Defined.

(** ** [size_t] *)

Definition SIZE_MAX : N := 18446744073709551615%N.

(** Reduction of a mathematical value to [size_t] (64 bits). *)
Definition wrap (n : nat) : nat := N.to_nat (N.of_nat n mod (SIZE_MAX + 1)).

Definition fits (n : nat) : Prop := (N.of_nat n <= SIZE_MAX)%N.

(** ** The platform and the element type *)

(** [NDEBUG] decides whether [assert] is compiled in; [heap_limit] is the
    largest request, in bytes, that [operator new] satisfies, at most half
    of the address space. *)
Class Platform := {
  NDEBUG : bool;
  heap_limit : N;
  heap_limit_bound : (2 * heap_limit <= SIZE_MAX)%N;
}.

(** The operations of an element type [T] with value semantics.  A
    constructor or assignment either completes, giving the destination
    the value of its source, or throws.

    - [elem_value_init k]: [T()] for the object of index [k] among those
      that one call value-initialises: a default constructor takes no
      argument, but what it does may depend on the state of the program,
      and so differ from one object to the next;
    - [elem_copy x]: [T(const T&)] from an object of value [x];
    - [elem_move x]: [T(T&&)]: what is left in the source, and the
      exception if it throws;
    - [elem_copy_assign d s]: [d = s]: [None] on success, otherwise the
      exception and what is left in [d];
    - [elem_move_assign d s]: [d = std::move(s)]: what is left in [s], and on
      failure the exception and what is left in [d].

    [movable_or_copyable] is the [static_assert] of [Reserve]. *)
Class Element (T : Type) := {
  sizeof_T : nat;
  is_nothrow_move_constructible : bool;
  is_copy_constructible : bool;
  is_move_constructible : bool;
  elem_value_init : nat → exn + T;
  elem_copy : T → option exn;
  elem_move : T → T * option exn;
  elem_copy_assign : T → T → option (exn * T);
  elem_move_assign : T → T → T * option (exn * T);
  sizeof_pos : 0 < sizeof_T;
  sizeof_fits : fits sizeof_T;
  movable_or_copyable : is_move_constructible || is_copy_constructible = true;
  nothrow_move_sound :
    is_nothrow_move_constructible = true → ∀ x, (elem_move x).2 = None;
}.

(** ** Objects and the store *)

Record raw_memory := mkRawMemory {
  buffer_ : ptr;
  capacity_ : nat;
}.

Record vector := mkVector {
  data_ : raw_memory;
  size_ : nat;
}.

Record state (T : Type) := mkState {
  blocks : gmap nat (list (cell T));
  vecs : gmap nat vector;
  raws : gmap nat raw_memory;
  leaked : list T;
}.
Arguments mkState {T}.
Arguments blocks {T}.
Arguments vecs {T}.
Arguments raws {T}.
Arguments leaked {T}.

Definition set_blocks {T} (f : gmap nat (list (cell T)) → gmap nat (list (cell T)))
    (σ : state T) : state T :=
  mkState (f (blocks σ)) (vecs σ) (raws σ) (leaked σ).
Definition set_vecs {T} (f : gmap nat vector → gmap nat vector) (σ : state T) : state T :=
  mkState (blocks σ) (f (vecs σ)) (raws σ) (leaked σ).
Definition set_raws {T} (f : gmap nat raw_memory → gmap nat raw_memory)
    (σ : state T) : state T :=
  mkState (blocks σ) (vecs σ) (f (raws σ)) (leaked σ).
Definition set_leaked {T} (f : list T → list T) (σ : state T) : state T :=
  mkState (blocks σ) (vecs σ) (raws σ) (f (leaked σ)).

Definition empty_state {T} : state T := mkState ∅ ∅ ∅ [].

(** ** Outcomes and the monad *)

(** A call returns, throws, stops at a failed [assert], or has undefined
    behaviour. *)
Inductive outcome (S A : Type) :=
  | Done (a : A) (σ : S)
  | Thrown (e : exn) (σ : S)
  | Abort
  | Undef.
Arguments Done {S A}.
Arguments Thrown {S A}.
Arguments Abort {S A}.
Arguments Undef {S A}.

Definition M (T A : Type) : Type := state T → outcome (state T) A.

Definition ret {T A} (a : A) : M T A := λ σ, Done a σ.

Definition bind {T A B} (m : M T A) (k : A → M T B) : M T B :=
  λ σ, match m σ with
       | Done a σ' => k a σ'
       | Thrown e σ' => Thrown e σ'
       | Abort => Abort
       | Undef => Undef
       end.

Definition throw {T A} (e : exn) : M T A := λ σ, Thrown e σ.
Definition undef {T A} : M T A := λ _, Undef.
Definition abort {T A} : M T A := λ _, Abort.

(** [try { body } catch (...) { handler; throw; }], and also the unwinding
    of a scope whose local has the destructor [handler]. *)
Definition on_exception {T A} (body : M T A) (handler : M T unit) : M T A :=
  λ σ, match body σ with
       | Thrown e σ' =>
           match handler σ' with
           | Done _ σ'' => Thrown e σ''
           | Thrown e' σ'' => Thrown e' σ''
           | Abort => Abort
           | Undef => Undef
           end
       | r => r
       end.

Declare Scope cpp_scope.
Delimit Scope cpp_scope with cpp.
Notation "x <- m ;; k" := (bind m (λ x, k))
  (at level 100, m at next level, right associativity) : cpp_scope.
Notation "m ;; k" := (bind m (λ _, k))
  (at level 100, right associativity) : cpp_scope.
Open Scope cpp_scope.

Definition assert `{Platform} {T} (c : bool) : M T unit :=
  if NDEBUG then ret tt else if c then ret tt else abort.

(** ** Pointer arithmetic *)

Definition ptr_add (p : ptr) (n : nat) : ptr :=
  match p with
  | Null => Null
  | Ptr b off => Ptr b (off + n)
  end.

Definition ptr_sub (p : ptr) (n : nat) : ptr :=
  match p with
  | Null => Null
  | Ptr b off => Ptr b (off - n)
  end.

(** [p - q] for pointers into one array, [q] not after [p]. *)
Definition ptr_diff {T} (p q : ptr) : M T nat :=
  match p, q with
  | Null, Null => ret 0
  | Ptr b1 o1, Ptr b2 o2 =>
      if decide (b1 = b2) then if o2 <=? o1 then ret (o1 - o2) else undef
      else undef
  | _, _ => undef
  end.

(** [p <= q] and [p < q]; pointers into different arrays compare false. *)
Definition ptr_le (p q : ptr) : bool :=
  match p, q with
  | Null, Null => true
  | Ptr b1 o1, Ptr b2 o2 => bool_decide (b1 = b2) && (o1 <=? o2)
  | _, _ => false
  end.

Definition ptr_lt (p q : ptr) : bool :=
  match p, q with
  | Ptr b1 o1, Ptr b2 o2 => bool_decide (b1 = b2) && (o1 <? o2)
  | _, _ => false
  end.

(** ** Raw memory and object lifetime *)

Section Memory.
Context `{Platform} {T : Type} `{Element T}.

Definition live_values (cs : list (cell T)) : list T :=
  omap (λ c, match c with Live v => Some v | Raw => None end) cs.

(** [operator new(bytes)]: a fresh block with room for
    [bytes / sizeof(T)] objects, or [std::bad_alloc]. *)
Definition operator_new (bytes : nat) : M T ptr := λ σ,
  if (N.of_nat bytes <=? heap_limit)%N then
    let b := fresh (dom (blocks σ)) in
    Done (Ptr b 0) (set_blocks (insert b (replicate (bytes / sizeof_T) Raw)) σ)
  else Thrown bad_alloc σ.

(** [operator delete(p)]: nothing for null; objects still alive in the
    block are lost without their destructor. *)
Definition operator_delete (p : ptr) : M T unit := λ σ,
  match p with
  | Null => Done tt σ
  | Ptr b 0 =>
      match blocks σ !! b with
      | Some cs =>
          Done tt (set_leaked (λ l, l ++ live_values cs) (set_blocks (delete b) σ))
      | None => Undef
      end
  | Ptr _ (S _) => Undef
  end.

Definition read_cell (p : ptr) : M T (cell T) := λ σ,
  match p with
  | Null => Undef
  | Ptr b off =>
      match blocks σ !! b with
      | Some cs => match cs !! off with Some c => Done c σ | None => Undef end
      | None => Undef
      end
  end.

Definition write_cell (p : ptr) (c : cell T) : M T unit := λ σ,
  match p with
  | Null => Undef
  | Ptr b off =>
      match blocks σ !! b with
      | Some cs =>
          if off <? length cs
          then Done tt (set_blocks (insert b (<[off:=c]> cs)) σ)
          else Undef
      | None => Undef
      end
  end.

(** The value of the object at [p]. *)
Definition load (p : ptr) : M T T :=
  c <- read_cell p ;;
  match c with Live v => ret v | Raw => undef end.

(** The object at [p] takes the value [v]. *)
Definition store (p : ptr) (v : T) : M T unit :=
  c <- read_cell p ;;
  match c with Live _ => write_cell p (Live v) | Raw => undef end.

(** [new (p) T(...)] once the constructor has produced [v]; an object
    already alive at [p] is overwritten without being destroyed. *)
Definition placement_new (p : ptr) (v : T) : M T unit :=
  c <- read_cell p ;;
  match c with
  | Raw => write_cell p (Live v)
  | Live old => λ σ, write_cell p (Live v) (set_leaked (λ l, l ++ [old]) σ)
  end.

(** [std::destroy_at(p)]. *)
Definition destroy_at (p : ptr) : M T unit :=
  c <- read_cell p ;;
  match c with Live _ => write_cell p Raw | Raw => undef end.

(** [new (dst) T(x)] for the object [x] at [src]. *)
Definition construct_copy (dst src : ptr) : M T unit :=
  x <- load src ;;
  match elem_copy x with
  | Some e => throw e
  | None => placement_new dst x
  end.

(** [new (dst) T(std::move(x))] for the object [x] at [src]. *)
Definition construct_move (dst src : ptr) : M T unit :=
  x <- load src ;;
  store src (elem_move x).1 ;;
  match (elem_move x).2 with
  | Some e => throw e
  | None => placement_new dst x
  end.

(** [new (dst) T()] for the object of index [k] of the call. *)
Definition construct_value (k : nat) (dst : ptr) : M T unit :=
  match elem_value_init k with
  | inl e => throw e
  | inr v => placement_new dst v
  end.

(** [d = s] for the objects [d] at [dst] and [s] at [src]. *)
Definition assign_copy (dst src : ptr) : M T unit :=
  d <- load dst ;;
  s <- load src ;;
  match elem_copy_assign d s with
  | None => store dst s
  | Some (e, d') => store dst d' ;; throw e
  end.

(** [d = std::move(tmp)] for the object [d] at [dst] and a local [tmp]
    of value [s]; returns what is left in the local. *)
Definition assign_move_from (dst : ptr) (s : T) : M T T :=
  d <- load dst ;;
  match (elem_move_assign d s).2 with
  | None => store dst s ;; ret (elem_move_assign d s).1
  | Some (e, d') => store dst d' ;; throw e
  end.

(** [d = std::move(s)] for the objects [d] at [dst] and [s] at [src]. *)
Definition assign_move (dst src : ptr) : M T unit :=
  d <- load dst ;;
  s <- load src ;;
  store src (elem_move_assign d s).1 ;;
  match (elem_move_assign d s).2 with
  | None => store dst s
  | Some (e, d') => store dst d' ;; throw e
  end.

(** *** Algorithms of [<memory>] and [<algorithm>]

    As the standard specifies them: the [uninitialized_*] algorithms
    destroy what they constructed when a constructor throws, and
    rethrow. *)

Fixpoint uninitialized_copy_n (first : ptr) (n : nat) (d_first : ptr) : M T unit :=
  match n with
  | 0 => ret tt
  | S n' =>
      construct_copy d_first first ;;
      on_exception
        (uninitialized_copy_n (ptr_add first 1) n' (ptr_add d_first 1))
        (destroy_at d_first)
  end.

Fixpoint uninitialized_move_n (first : ptr) (n : nat) (d_first : ptr) : M T unit :=
  match n with
  | 0 => ret tt
  | S n' =>
      construct_move d_first first ;;
      on_exception
        (uninitialized_move_n (ptr_add first 1) n' (ptr_add d_first 1))
        (destroy_at d_first)
  end.

(** [k] objects have been constructed before [first]. *)
Fixpoint value_construct_from (k : nat) (first : ptr) (n : nat) : M T unit :=
  match n with
  | 0 => ret tt
  | S n' =>
      construct_value k first ;;
      on_exception
        (value_construct_from (S k) (ptr_add first 1) n')
        (destroy_at first)
  end.

Definition uninitialized_value_construct_n (first : ptr) (n : nat) : M T unit :=
  value_construct_from 0 first n.

Fixpoint destroy_n (first : ptr) (n : nat) : M T unit :=
  match n with
  | 0 => ret tt
  | S n' => destroy_at first ;; destroy_n (ptr_add first 1) n'
  end.

Fixpoint copy_n_assign (first : ptr) (n : nat) (d_first : ptr) : M T unit :=
  match n with
  | 0 => ret tt
  | S n' =>
      assign_copy d_first first ;;
      copy_n_assign (ptr_add first 1) n' (ptr_add d_first 1)
  end.

Fixpoint move_n_assign (first : ptr) (n : nat) (d_first : ptr) : M T unit :=
  match n with
  | 0 => ret tt
  | S n' =>
      assign_move d_first first ;;
      move_n_assign (ptr_add first 1) n' (ptr_add d_first 1)
  end.

Fixpoint move_backward_n (last : ptr) (n : nat) (d_last : ptr) : M T unit :=
  match n with
  | 0 => ret tt
  | S n' =>
      assign_move (ptr_sub d_last 1) (ptr_sub last 1) ;;
      move_backward_n (ptr_sub last 1) n' (ptr_sub d_last 1)
  end.

(** [std::copy(first, last, d_first)]. *)
Definition std_copy (first last d_first : ptr) : M T unit :=
  n <- ptr_diff last first ;; copy_n_assign first n d_first.

(** [std::move(first, last, d_first)]. *)
Definition std_move (first last d_first : ptr) : M T unit :=
  n <- ptr_diff last first ;; move_n_assign first n d_first.

(** [std::move_backward(first, last, d_last)]. *)
Definition std_move_backward (first last d_last : ptr) : M T unit :=
  n <- ptr_diff last first ;; move_backward_n last n d_last.

End Memory.

(** ** [size_t] arithmetic of the member functions *)

(** [a - b] on [size_t]. *)
Definition size_sub (a b : nat) : nat :=
  if b <=? a then a - b else N.to_nat (SIZE_MAX + 1 - N.of_nat (b - a)).

(** [a + 1] and [a * 2] on [size_t]. *)
Definition size_inc (a : nat) : nat := wrap (a + 1).
Definition size_double (a : nat) : nat := wrap (a * 2).

Global Arguments ptr_diff : simpl never.
Global Arguments ptr_le : simpl never.
Global Arguments ptr_lt : simpl never.
Global Arguments wrap : simpl never.
Global Arguments size_sub : simpl never.
Global Arguments size_inc : simpl never.
Global Arguments size_double : simpl never.

(** ** References to [RawMemory] objects

    A [RawMemory] is either an object of its own (a local [new_data]) or
    the member [data_] of the [Vector] at some address. *)

Inductive raw_ref :=
  | RawObj (a : nat)
  | DataOf (v : nat).

Global Instance raw_ref_eq_dec : EqDecision raw_ref.
Proof. solve_decision. Defined.

Section Objects.
Context {T : Type}.

Definition get_raw (r : raw_ref) : M T raw_memory := λ σ,
  match r with
  | RawObj a => match raws σ !! a with Some m => Done m σ | None => Undef end
  | DataOf v => match vecs σ !! v with Some x => Done (data_ x) σ | None => Undef end
  end.

Definition set_raw (r : raw_ref) (m : raw_memory) : M T unit := λ σ,
  match r with
  | RawObj a =>
      match raws σ !! a with
      | Some _ => Done tt (set_raws (insert a m) σ)
      | None => Undef
      end
  | DataOf v =>
      match vecs σ !! v with
      | Some x => Done tt (set_vecs (insert v (mkVector m (size_ x))) σ)
      | None => Undef
      end
  end.

(** The object comes into existence with the given members.  For the
    member [data_] of a [Vector] under construction this opens the
    [Vector]'s slot; [size_] is initialised next. *)
Definition init_raw (r : raw_ref) (m : raw_memory) : M T unit := λ σ,
  match r with
  | RawObj a => Done tt (set_raws (insert a m) σ)
  | DataOf v => Done tt (set_vecs (insert v (mkVector m 0)) σ)
  end.

(** The storage of the object goes away (after its destructor). *)
Definition free_obj (r : raw_ref) : M T unit := λ σ,
  match r with
  | RawObj a => Done tt (set_raws (delete a) σ)
  | DataOf v => Done tt (set_vecs (delete v) σ)
  end.

Definition get_buffer (r : raw_ref) : M T ptr := m <- get_raw r ;; ret (buffer_ m).
Definition get_capacity (r : raw_ref) : M T nat := m <- get_raw r ;; ret (capacity_ m).
Definition set_buffer (r : raw_ref) (p : ptr) : M T unit :=
  m <- get_raw r ;; set_raw r (mkRawMemory p (capacity_ m)).
Definition set_capacity (r : raw_ref) (n : nat) : M T unit :=
  m <- get_raw r ;; set_raw r (mkRawMemory (buffer_ m) n).

Definition get_size (this : nat) : M T nat := λ σ,
  match vecs σ !! this with Some x => Done (size_ x) σ | None => Undef end.
Definition set_size (this : nat) (n : nat) : M T unit := λ σ,
  match vecs σ !! this with
  | Some x => Done tt (set_vecs (insert this (mkVector (data_ x) n)) σ)
  | None => Undef
  end.

(** Addresses for a local [RawMemory] and a temporary [Vector]. *)
Definition fresh_raw : M T nat := λ σ, Done (fresh (dom (raws σ))) σ.
Definition fresh_vec : M T nat := λ σ, Done (fresh (dom (vecs σ))) σ.

End Objects.

(** ** [template <typename T> class RawMemory] *)

Module RawMemory.
Section Defs.
Context `{Platform} {T : Type} `{Element T}.

(** [static T* Allocate(size_t n)] *)
Definition Allocate (n : nat) : M T ptr :=
  if negb (n =? 0) then operator_new (wrap (n * sizeof_T)) else ret Null.

(** [static void Deallocate(T* buf) noexcept] *)
Definition Deallocate (buf : ptr) : M T unit := operator_delete buf.

(** [RawMemory() = default] *)
Definition ctor_default (this : raw_ref) : M T unit :=
  init_raw this (mkRawMemory Null 0).

(** [explicit RawMemory(size_t capacity)] *)
Definition ctor (this : raw_ref) (capacity : nat) : M T unit :=
  buf <- Allocate capacity ;;
  init_raw this (mkRawMemory buf capacity).

(** [RawMemory(RawMemory&& other) noexcept] *)
Definition move_ctor (this other : raw_ref) : M T unit :=
  init_raw this (mkRawMemory Null 0) ;;
  b <- get_buffer other ;; set_buffer this b ;;
  c <- get_capacity other ;; set_capacity this c ;;
  set_buffer other Null ;;
  set_capacity other 0.

(** [void Swap(RawMemory& other) noexcept] *)
Definition Swap (this other : raw_ref) : M T unit :=
  a <- get_buffer this ;; b <- get_buffer other ;;
  set_buffer this b ;; set_buffer other a ;;
  a <- get_capacity this ;; b <- get_capacity other ;;
  set_capacity this b ;; set_capacity other a.

(** [RawMemory& operator=(RawMemory&& rhs) noexcept] *)
Definition move_assign (this rhs : raw_ref) : M T unit :=
  if negb (bool_decide (this = rhs)) then Swap this rhs else ret tt.

(** [~RawMemory()] *)
Definition dtor (this : raw_ref) : M T unit :=
  b <- get_buffer this ;; Deallocate b.

(** [T* operator+(size_t offset) noexcept] *)
Definition plus (this : raw_ref) (offset : nat) : M T ptr :=
  c <- get_capacity this ;;
  assert (offset <=? c) ;;
  b <- get_buffer this ;;
  ret (ptr_add b offset).

(** [T& operator[](size_t index) noexcept]; the reference is the address
    of the slot. *)
Definition at_ (this : raw_ref) (index : nat) : M T ptr :=
  c <- get_capacity this ;;
  assert (index <? c) ;;
  b <- get_buffer this ;;
  ret (ptr_add b index).

(** [T* GetAddress() noexcept] *)
Definition GetAddress (this : raw_ref) : M T ptr := get_buffer this.

(** [size_t Capacity() const] *)
Definition Capacity (this : raw_ref) : M T nat := get_capacity this.

(** The [const] overloads: [operator+] and [operator[]] go through
    [const_cast] to the overloads above; [GetAddress] returns the
    buffer. *)
Definition plus_const (this : raw_ref) (offset : nat) : M T ptr := plus this offset.
Definition at_const (this : raw_ref) (index : nat) : M T ptr := at_ this index.
Definition GetAddress_const (this : raw_ref) : M T ptr := get_buffer this.

(** The end of the object's lifetime: its destructor, then its storage. *)
Definition destroy (this : raw_ref) : M T unit :=
  dtor this ;; free_obj this.

(** The scope of a local [RawMemory<T> name(capacity)]: the local is
    destroyed when the scope is left, by return or by exception. *)
Definition local {A} (capacity : nat) (body : raw_ref → M T A) : M T A :=
  a <- fresh_raw ;;
  ctor (RawObj a) capacity ;;
  r <- on_exception (body (RawObj a)) (destroy (RawObj a)) ;;
  destroy (RawObj a) ;;
  ret r.

End Defs.
End RawMemory.

(** ** [template <typename T> class Vector] *)

Module Vector.
Section Defs.
Context `{Platform} {T : Type} `{Element T}.

(** [iterator begin() noexcept] *)
Definition begin (this : nat) : M T ptr :=
  RawMemory.GetAddress (DataOf this).

(** [iterator end() noexcept] *)
Definition end_ (this : nat) : M T ptr :=
  p <- RawMemory.GetAddress (DataOf this) ;;
  n <- get_size this ;;
  ret (ptr_add p n).

(** [size_t Size() const noexcept] *)
Definition Size (this : nat) : M T nat := get_size this.

(** [size_t Capacity() const noexcept] *)
Definition Capacity (this : nat) : M T nat := RawMemory.Capacity (DataOf this).

(** [T& operator[](size_t index) noexcept] *)
Definition at_ (this : nat) (index : nat) : M T ptr :=
  n <- get_size this ;;
  assert (index <? n) ;;
  RawMemory.at_ (DataOf this) index.

(** [const T& operator[](size_t index) const noexcept]: through
    [const_cast] to the overload above. *)
Definition at_const (this : nat) (index : nat) : M T ptr := at_ this index.

(** [const_iterator begin() const noexcept] and [cbegin()] *)
Definition begin_const (this : nat) : M T ptr :=
  RawMemory.GetAddress_const (DataOf this).
Definition cbegin (this : nat) : M T ptr :=
  RawMemory.GetAddress_const (DataOf this).

(** [const_iterator end() const noexcept] and [cend()] *)
Definition end_const (this : nat) : M T ptr :=
  p <- RawMemory.GetAddress_const (DataOf this) ;;
  n <- get_size this ;;
  ret (ptr_add p n).
Definition cend (this : nat) : M T ptr :=
  p <- RawMemory.GetAddress_const (DataOf this) ;;
  n <- get_size this ;;
  ret (ptr_add p n).

(** [Vector() = default] *)
Definition ctor_default (this : nat) : M T unit :=
  RawMemory.ctor_default (DataOf this) ;;
  set_size this 0.

(** The members of a [Vector] whose constructor throws are destroyed
    and the object never exists. *)
Definition abandon (this : nat) : M T unit :=
  RawMemory.destroy (DataOf this).

(** [explicit Vector(size_t size)] *)
Definition ctor_size (this : nat) (size : nat) : M T unit :=
  RawMemory.ctor (DataOf this) size ;;
  on_exception
    (set_size this size ;;
     p <- RawMemory.GetAddress (DataOf this) ;;
     uninitialized_value_construct_n p size)
    (abandon this).

(** [Vector(const Vector& other)] *)
Definition ctor_copy (this other : nat) : M T unit :=
  n <- get_size other ;;
  RawMemory.ctor (DataOf this) n ;;
  on_exception
    (n <- get_size other ;;
     set_size this n ;;
     src <- RawMemory.GetAddress (DataOf other) ;;
     n <- get_size this ;;
     dst <- RawMemory.GetAddress (DataOf this) ;;
     uninitialized_copy_n src n dst)
    (abandon this).

(** [Vector(Vector&& other) noexcept] *)
Definition ctor_move (this other : nat) : M T unit :=
  RawMemory.move_ctor (DataOf this) (DataOf other) ;;
  n <- get_size other ;;
  set_size other 0 ;;
  set_size this n.

(** [~Vector()] *)
Definition dtor (this : nat) : M T unit :=
  p <- RawMemory.GetAddress (DataOf this) ;;
  n <- get_size this ;;
  destroy_n p n ;;
  RawMemory.destroy (DataOf this).

(** [void Swap(Vector& other) noexcept] *)
Definition Swap (this other : nat) : M T unit :=
  RawMemory.Swap (DataOf this) (DataOf other) ;;
  a <- get_size this ;; b <- get_size other ;;
  set_size this b ;; set_size other a.

(** [void CopyAssignNoRealloc(const Vector& rhs)] *)
Definition CopyAssignNoRealloc (this rhs : nat) : M T unit :=
  n <- get_size this ;;
  m <- get_size rhs ;;
  let common := n `min` m in
  first <- RawMemory.GetAddress (DataOf rhs) ;;
  last <- RawMemory.plus (DataOf rhs) common ;;
  d_first <- RawMemory.GetAddress (DataOf this) ;;
  std_copy first last d_first ;;
  n <- get_size this ;;
  m <- get_size rhs ;;
  (if m <? n then
     p <- RawMemory.GetAddress (DataOf this) ;;
     destroy_n (ptr_add p m) (size_sub n m)
   else
     src <- RawMemory.GetAddress (DataOf rhs) ;;
     dst <- RawMemory.GetAddress (DataOf this) ;;
     uninitialized_copy_n (ptr_add src n) (size_sub m n) (ptr_add dst n)) ;;
  m <- get_size rhs ;;
  set_size this m.

(** [Vector& operator=(const Vector& rhs)] *)
Definition copy_assign (this rhs : nat) : M T unit :=
  if negb (bool_decide (this = rhs)) then
    m <- get_size rhs ;;
    c <- RawMemory.Capacity (DataOf this) ;;
    if c <? m then
      tmp <- fresh_vec ;;
      ctor_copy tmp rhs ;;
      Swap this tmp ;;
      dtor tmp
    else
      CopyAssignNoRealloc this rhs
  else ret tt.

(** [Vector& operator=(Vector&& rhs) noexcept] *)
Definition move_assign (this rhs : nat) : M T unit :=
  if negb (bool_decide (this = rhs)) then Swap this rhs else ret tt.

(** The transfer of [Reserve]: the [if constexpr] chain on the traits of
    [T]; its last branch is the [static_assert]. *)
Definition reserve_transfer (src : ptr) (n : nat) (dst : ptr) : M T unit :=
  if is_nothrow_move_constructible then uninitialized_move_n src n dst
  else if is_copy_constructible then uninitialized_copy_n src n dst
  else if is_move_constructible then uninitialized_move_n src n dst
  else undef.

(** [void Reserve(size_t new_capacity)] *)
Definition Reserve (this : nat) (new_capacity : nat) : M T unit :=
  c <- RawMemory.Capacity (DataOf this) ;;
  if new_capacity <=? c then ret tt
  else
    RawMemory.local new_capacity (λ new_data,
      src <- RawMemory.GetAddress (DataOf this) ;;
      n <- get_size this ;;
      dst <- RawMemory.GetAddress new_data ;;
      reserve_transfer src n dst ;;
      p <- RawMemory.GetAddress (DataOf this) ;;
      n <- get_size this ;;
      destroy_n p n ;;
      RawMemory.Swap (DataOf this) new_data).

(** [void Resize(size_t new_size)] *)
Definition Resize (this : nat) (new_size : nat) : M T unit :=
  n <- get_size this ;;
  (if n <? new_size then
     Reserve this new_size ;;
     p <- RawMemory.GetAddress (DataOf this) ;;
     n <- get_size this ;;
     uninitialized_value_construct_n (ptr_add p n) (size_sub new_size n)
   else
     p <- RawMemory.GetAddress (DataOf this) ;;
     n <- get_size this ;;
     destroy_n (ptr_add p new_size) (size_sub n new_size)) ;;
  set_size this new_size.

(** [void PopBack()] *)
Definition PopBack (this : nat) : M T unit :=
  n <- get_size this ;;
  if 0 <? n then
    p <- RawMemory.GetAddress (DataOf this) ;;
    n <- get_size this ;;
    destroy_at (ptr_sub (ptr_add p n) 1) ;;
    n <- get_size this ;;
    set_size this (size_sub n 1)
  else ret tt.

(** [new (p) T(std::forward<Args>(args)...)]: [make] is the constructor
    selected for the argument pack; it gives what is left in the
    arguments and the value constructed, or the exception.  The pack
    consists of objects of the caller that are not elements of a vector
    of the store (a literal, a temporary, a local); arguments that
    refer into the store are the subject of [Emplace_via] below. *)
Definition construct_from {A} (make : A → A * (exn + T)) (args : A) (p : ptr) : M T A :=
  match (make args).2 with
  | inl e => throw e
  | inr v => placement_new p v ;; ret (make args).1
  end.

(** The transfer of [EmplaceBack] when it reallocates. *)
Definition relocate (src : ptr) (n : nat) (dst : ptr) : M T unit :=
  if is_nothrow_move_constructible || negb is_copy_constructible
  then uninitialized_move_n src n dst
  else uninitialized_copy_n src n dst.

(** [template <typename... Args> T& EmplaceBack(Args&&... args)] *)
Definition EmplaceBack {A} (make : A → A * (exn + T)) (this : nat) (args : A) : M T ptr :=
  n <- get_size this ;;
  c <- Capacity this ;;
  (if n =? c then
     n <- get_size this ;;
     RawMemory.local (if n =? 0 then 1 else size_double n) (λ new_data,
       n <- get_size this ;;
       p <- RawMemory.plus new_data n ;;
       construct_from make args p ;;
       on_exception
         (src <- RawMemory.GetAddress (DataOf this) ;;
          n <- get_size this ;;
          dst <- RawMemory.GetAddress new_data ;;
          relocate src n dst)
         (n <- get_size this ;;
          p <- RawMemory.plus new_data n ;;
          destroy_at p) ;;
       p <- RawMemory.GetAddress (DataOf this) ;;
       n <- get_size this ;;
       destroy_n p n ;;
       RawMemory.Swap (DataOf this) new_data)
   else
     n <- get_size this ;;
     p <- RawMemory.plus (DataOf this) n ;;
     construct_from make args p ;;
     ret tt) ;;
  n <- get_size this ;;
  set_size this (size_inc n) ;;
  n <- get_size this ;;
  RawMemory.at_ (DataOf this) (size_sub n 1).

(** The constructors selected by [const T&] and by [T&&]. *)
Definition by_copy (x : T) : T * (exn + T) :=
  (x, match elem_copy x with Some e => inl e | None => inr x end).
Definition by_move (x : T) : T * (exn + T) :=
  ((elem_move x).1, match (elem_move x).2 with Some e => inl e | None => inr x end).

(** [void PushBack(const T& value)] and [void PushBack(T&& value)], for
    an object given by its value: [EmplaceBack] constructs the new
    element before it touches the array, so a copy takes the value that
    [value] has at the call. *)
Definition PushBack_copy (this : nat) (value : T) : M T unit :=
  EmplaceBack by_copy this value ;; ret tt.
Definition PushBack_move (this : nat) (value : T) : M T unit :=
  EmplaceBack by_move this value ;; ret tt.

(** [template <typename... Args> iterator Emplace(const_iterator pos, Args&&... args)] *)
Definition Emplace {A} (make : A → A * (exn + T)) (this : nat) (pos : ptr) (args : A)
    : M T ptr :=
  b <- begin this ;;
  e <- end_ this ;;
  assert (ptr_le b pos && ptr_lt pos e) ;;
  b <- begin this ;;
  index <- ptr_diff pos b ;;
  n <- get_size this ;;
  c <- Capacity this ;;
  if n =? c then
    n <- get_size this ;;
    RawMemory.local (if n =? 0 then 1 else size_double n) (λ new_data,
      q <- RawMemory.GetAddress new_data ;;
      let new_pos := ptr_add q index in
      on_exception
        (src <- RawMemory.GetAddress (DataOf this) ;;
         dst <- RawMemory.GetAddress new_data ;;
         uninitialized_move_n src index dst ;;
         construct_from make args new_pos ;;
         src <- RawMemory.GetAddress (DataOf this) ;;
         n <- get_size this ;;
         uninitialized_move_n (ptr_add src index) (size_sub n index) (ptr_add new_pos 1))
        (dst <- RawMemory.GetAddress new_data ;;
         destroy_n dst index) ;;
      p <- RawMemory.GetAddress (DataOf this) ;;
      n <- get_size this ;;
      destroy_n p n ;;
      RawMemory.Swap (DataOf this) new_data ;;
      n <- get_size this ;;
      set_size this (size_inc n) ;;
      b <- begin this ;;
      ret (ptr_add b index))
  else
    match (make args).2 with
    | inl e => throw e
    | inr tmp =>
        n <- get_size this ;;
        (if negb (n =? 0) then
           n <- get_size this ;;
           p <- RawMemory.plus (DataOf this) n ;;
           last <- RawMemory.at_ (DataOf this) (size_sub n 1) ;;
           construct_move p last ;;
           on_exception
             (first <- RawMemory.plus (DataOf this) index ;;
              n <- get_size this ;;
              e <- RawMemory.plus (DataOf this) n ;;
              d_last <- RawMemory.plus (DataOf this) n ;;
              std_move_backward first (ptr_sub e 1) d_last ;;
              slot <- RawMemory.at_ (DataOf this) index ;;
              assign_move_from slot tmp ;;
              ret tt)
             (n <- get_size this ;;
              p <- RawMemory.plus (DataOf this) n ;;
              destroy_at p)
         else
           p <- RawMemory.plus (DataOf this) index ;;
           construct_from make (make args).1 p ;;
           ret tt) ;;
        n <- get_size this ;;
        set_size this (size_inc n) ;;
        b <- begin this ;;
        ret (ptr_add b index)
    end.

(** [iterator Insert(const_iterator pos, const T& value)] and
    [iterator Insert(const_iterator pos, T&& value)], for a [value] that
    is not an element of the array; [Insert_copy_of] and
    [Insert_move_of] below take the address of an object in the store. *)
Definition Insert_copy (this : nat) (pos : ptr) (value : T) : M T ptr :=
  Emplace by_copy this pos value.
Definition Insert_move (this : nat) (pos : ptr) (value : T) : M T ptr :=
  Emplace by_move this pos value.

(** [iterator Erase(const_iterator pos)] *)
Definition Erase (this : nat) (pos : ptr) : M T ptr :=
  b <- begin this ;;
  e <- end_ this ;;
  assert (ptr_le b pos && ptr_lt pos e) ;;
  let nonconst_pos := pos in
  e <- end_ this ;;
  std_move (ptr_add nonconst_pos 1) e nonconst_pos ;;
  n <- get_size this ;;
  set_size this (size_sub n 1) ;;
  n <- get_size this ;;
  p <- RawMemory.plus (DataOf this) n ;;
  destroy_at p ;;
  ret nonconst_pos.

(** *** Arguments that are objects in the store

    [Emplace] and [Insert] above take the argument pack as objects of
    the caller that the call reaches only through the constructor: a
    literal, a temporary, a local.  A reference argument can also
    designate an object in the store, in particular an element of the
    array itself, as in [v.Insert(pos, v[k])]; the constructor then
    reads its source at the moment it runs, after whatever the call has
    done to the store so far.  [Emplace_via] is the text of [Emplace]
    once more, with the constructor given as an action on the store:
    [from args] runs [T(std::forward<Args>(args)...)] and gives what is
    left of the pack and the value constructed.  On a pack of the
    caller's own objects the two agree ([Emplace_via_detached]). *)

(** The pack of [Emplace] above. *)
Definition detached {A} (make : A → A * (exn + T)) (args : A) : M T (A * T) :=
  match (make args).2 with
  | inl e => throw e
  | inr v => ret ((make args).1, v)
  end.


(** A [T&&] designating the object at [src]: the move constructor. *)
Definition rvalue (src : ptr) : M T (ptr * T) :=
  x <- load src ;;
  store src (elem_move x).1 ;;
  match (elem_move x).2 with
  | Some e => throw e
  | None => ret (src, x)
  end.

(** [new (p) T(std::forward<Args>(args)...)] *)
Definition construct_via {A} (from : A → M T (A * T)) (args : A) (p : ptr) : M T A :=
  r <- from args ;;
  placement_new p r.2 ;;
  ret r.1.

(** [template <typename... Args> iterator Emplace(const_iterator pos, Args&&... args)] *)
Definition Emplace_via {A} (from : A → M T (A * T)) (this : nat) (pos : ptr) (args : A)
    : M T ptr :=
  b <- begin this ;;
  e <- end_ this ;;
  assert (ptr_le b pos && ptr_lt pos e) ;;
  b <- begin this ;;
  index <- ptr_diff pos b ;;
  n <- get_size this ;;
  c <- Capacity this ;;
  if n =? c then
    n <- get_size this ;;
    RawMemory.local (if n =? 0 then 1 else size_double n) (λ new_data,
      q <- RawMemory.GetAddress new_data ;;
      let new_pos := ptr_add q index in
      on_exception
        (src <- RawMemory.GetAddress (DataOf this) ;;
         dst <- RawMemory.GetAddress new_data ;;
         uninitialized_move_n src index dst ;;
         construct_via from args new_pos ;;
         src <- RawMemory.GetAddress (DataOf this) ;;
         n <- get_size this ;;
         uninitialized_move_n (ptr_add src index) (size_sub n index) (ptr_add new_pos 1))
        (dst <- RawMemory.GetAddress new_data ;;
         destroy_n dst index) ;;
      p <- RawMemory.GetAddress (DataOf this) ;;
      n <- get_size this ;;
      destroy_n p n ;;
      RawMemory.Swap (DataOf this) new_data ;;
      n <- get_size this ;;
      set_size this (size_inc n) ;;
      b <- begin this ;;
      ret (ptr_add b index))
  else
    r <- from args ;;
    let tmp := r.2 in
    n <- get_size this ;;
    (if negb (n =? 0) then
       n <- get_size this ;;
       p <- RawMemory.plus (DataOf this) n ;;
       last <- RawMemory.at_ (DataOf this) (size_sub n 1) ;;
       construct_move p last ;;
       on_exception
         (first <- RawMemory.plus (DataOf this) index ;;
          n <- get_size this ;;
          e <- RawMemory.plus (DataOf this) n ;;
          d_last <- RawMemory.plus (DataOf this) n ;;
          std_move_backward first (ptr_sub e 1) d_last ;;
          slot <- RawMemory.at_ (DataOf this) index ;;
          assign_move_from slot tmp ;;
          ret tt)
         (n <- get_size this ;;
          p <- RawMemory.plus (DataOf this) n ;;
          destroy_at p)
     else
       p <- RawMemory.plus (DataOf this) index ;;
       construct_via from r.1 p ;;
       ret tt) ;;
    n <- get_size this ;;
    set_size this (size_inc n) ;;
    b <- begin this ;;
    ret (ptr_add b index).

Definition Insert_move_of (this : nat) (pos : ptr) (value : ptr) : M T ptr :=
  Emplace_via rvalue this pos value.

End Defs.
End Vector.

(** * Abstraction

    The pure functions and predicates in which the behaviour of the
    member functions is stated. *)

Section Abstraction.
Context `{Platform} {T : Type} `{Element T}.
Implicit Types (σ : state T) (xs : list T).

(** The exception of the first copy construction that throws. *)
Fixpoint copy_run (xs : list T) : option exn :=
  match xs with
  | [] => None
  | x :: xs' =>
      match elem_copy x with
      | Some e => Some e
      | None => copy_run xs'
      end
  end.

(** What a run of move constructions leaves in the sources, and the
    exception of the first one that throws. *)
Fixpoint move_run (xs : list T) : list T * option exn :=
  match xs with
  | [] => ([], None)
  | x :: xs' =>
      match (elem_move x).2 with
      | Some e => ((elem_move x).1 :: xs', Some e)
      | None => ((elem_move x).1 :: (move_run xs').1, (move_run xs').2)
      end
  end.

(** What a run of copy assignments leaves in the destinations [ds]
    when assigned from [xs], and the exception of the first one that
    throws. *)
Fixpoint copy_assign_run (ds xs : list T) : list T * option exn :=
  match ds, xs with
  | d :: ds', x :: xs' =>
      match elem_copy_assign d x with
      | Some (e, d') => (d' :: ds', Some e)
      | None => (x :: (copy_assign_run ds' xs').1, (copy_assign_run ds' xs').2)
      end
  | _, _ => (ds, None)
  end.

(** What a run of move assignments, each into the slot before its
    source, leaves in the slots that held [d :: xs], and the exception of
    the first one that throws. *)
Fixpoint shift_run (d : T) (xs : list T) : list T * option exn :=
  match xs with
  | [] => ([d], None)
  | x :: xs' =>
      match (elem_move_assign d x).2 with
      | Some (e, d') => (d' :: (elem_move_assign d x).1 :: xs', Some e)
      | None => (x :: (shift_run (elem_move_assign d x).1 xs').1,
                 (shift_run (elem_move_assign d x).1 xs').2)
      end
  end.

(** The cells of a block of capacity [cap] holding [xs]. *)
Definition vec_cells (cap : nat) (xs : list T) : list (cell T) :=
  (Live <$> xs) ++ replicate (cap - length xs) Raw.

Definition buffer_holds σ (p : ptr) (cap : nat) xs : Prop :=
  match p with
  | Null => cap = 0
  | Ptr b off => off = 0 ∧ blocks σ !! b = Some (vec_cells cap xs)
  end.

(** The [Vector] at [this] has the buffer [p] of capacity [cap] and the
    live elements [xs]. *)
Definition is_vec σ (this : nat) (p : ptr) (cap : nat) xs : Prop :=
  vecs σ !! this = Some (mkVector (mkRawMemory p cap) (length xs)) ∧
  length xs ≤ cap ∧
  (N.of_nat (cap * sizeof_T) <= heap_limit)%N ∧
  buffer_holds σ p cap xs.

(** The blocks once the buffer [p] is released. *)
Definition release (p : ptr) (B : gmap nat (list (cell T))) : gmap nat (list (cell T)) :=
  match p with
  | Null => B
  | Ptr b _ => delete b B
  end.

(** The store once the buffer [p] holds [cs]. *)
Definition with_cells (p : ptr) (cs : list (cell T)) σ : state T :=
  match p with
  | Null => σ
  | Ptr b _ => set_blocks (insert b cs) σ
  end.

(** What the transfer of [Reserve] leaves in the old elements, and the
    exception if a constructor throws. *)
(** The values that [T()] gives the objects [k], [k + 1], ... of a call
    that value-initialises [n] objects, up to the first that throws. *)
Fixpoint value_run (k n : nat) : list T * option exn :=
  match n with
  | 0 => ([], None)
  | S n' =>
      match elem_value_init k with
      | inl e => ([], Some e)
      | inr v => (v :: (value_run (S k) n').1, (value_run (S k) n').2)
      end
  end.

Definition reserve_run (xs : list T) : list T * option exn :=
  if is_nothrow_move_constructible then move_run xs
  else if is_copy_constructible then (xs, copy_run xs)
  else move_run xs.

(** What the relocation of [EmplaceBack] leaves in the old elements, and
    the exception if a constructor throws. *)
Definition relocate_run (xs : list T) : list T * option exn :=
  if is_nothrow_move_constructible || negb is_copy_constructible then move_run xs
  else (xs, copy_run xs).

(** Two buffers that do not share a block. *)
Definition apart (p q : ptr) : Prop :=
  ∀ b o o', p = Ptr b o → q ≠ Ptr b o'.

(** The capacity chosen when a full array grows. *)
Definition grown (n : nat) : nat := if n =? 0 then 1 else size_double n.

End Abstraction.

(** * Concrete platforms and element types *)

(** ** The public interface and its invariant *)

(** The operations of the public interface that construct or change a
    [Vector]; [A] is the argument pack of [EmplaceBack] and [Emplace]. *)
Inductive operation (T A : Type) :=
  | Construct (this : nat)
  | ConstructSized (this size : nat)
  | ConstructCopy (this other : nat)
  | ConstructMove (this other : nat)
  | AssignCopy (this rhs : nat)
  | AssignMove (this rhs : nat)
  | DoSwap (this other : nat)
  | DoReserve (this new_capacity : nat)
  | DoResize (this new_size : nat)
  | DoPushBack (this : nat) (value : T) (rvalue : bool)
  | DoEmplaceBack (this : nat) (args : A)
  | DoInsert (this : nat) (pos : ptr) (value : T) (rvalue : bool)
  | DoEmplace (this : nat) (pos : ptr) (args : A)
  | DoErase (this : nat) (pos : ptr)
  | DoPopBack (this : nat).
Global Arguments Construct {T A}.
Global Arguments ConstructSized {T A}.
Global Arguments ConstructCopy {T A}.
Global Arguments ConstructMove {T A}.
Global Arguments AssignCopy {T A}.
Global Arguments AssignMove {T A}.
Global Arguments DoSwap {T A}.
Global Arguments DoReserve {T A}.
Global Arguments DoResize {T A}.
Global Arguments DoPushBack {T A}.
Global Arguments DoEmplaceBack {T A}.
Global Arguments DoInsert {T A}.
Global Arguments DoEmplace {T A}.
Global Arguments DoErase {T A}.
Global Arguments DoPopBack {T A}.

Section Interface.
Context `{Platform} {T : Type} `{Element T}.
Implicit Types (σ : state T) (xs : list T).

(** [0 <= Size() <= Capacity()] for the [Vector] at [this]. *)
Definition invariant σ (this : nat) : Prop :=
  ∃ n c, Vector.Size this σ = Done n σ ∧ Vector.Capacity this σ = Done c σ ∧
         0 ≤ n ≤ c.

(** There is a well-formed [Vector] at [this]. *)
Definition wf σ (this : nat) : Prop := ∃ p cap xs, is_vec σ this p cap xs.

Definition run {A} (make : A → A * (exn + T)) (op : operation T A) : M T unit :=
  match op with
  | Construct this => Vector.ctor_default this
  | ConstructSized this size => Vector.ctor_size this size
  | ConstructCopy this other => Vector.ctor_copy this other
  | ConstructMove this other => Vector.ctor_move this other
  | AssignCopy this rhs => Vector.copy_assign this rhs
  | AssignMove this rhs => Vector.move_assign this rhs
  | DoSwap this other => Vector.Swap this other
  | DoReserve this new_capacity => Vector.Reserve this new_capacity
  | DoResize this new_size => Vector.Resize this new_size
  | DoPushBack this value rvalue =>
      if rvalue then Vector.PushBack_move this value
      else Vector.PushBack_copy this value
  | DoEmplaceBack this args => Vector.EmplaceBack make this args ;; ret tt
  | DoInsert this pos value rvalue =>
      (if rvalue then Vector.Insert_move this pos value
       else Vector.Insert_copy this pos value) ;; ret tt
  | DoEmplace this pos args => Vector.Emplace make this pos args ;; ret tt
  | DoErase this pos => Vector.Erase this pos ;; ret tt
  | DoPopBack this => Vector.PopBack this
  end.

(** The [Vector]s the operation works on that exist before the call,
    and those that exist when it has returned. *)
Definition operands {A} (op : operation T A) : list nat :=
  match op with
  | Construct _ | ConstructSized _ _ => []
  | ConstructCopy _ other | ConstructMove _ other => [other]
  | AssignCopy this rhs | AssignMove this rhs | DoSwap this rhs => [this; rhs]
  | DoReserve this _ | DoResize this _ | DoPushBack this _ _ | DoEmplaceBack this _
  | DoInsert this _ _ _ | DoEmplace this _ _ | DoErase this _ | DoPopBack this => [this]
  end.
Definition subjects {A} (op : operation T A) : list nat :=
  match op with
  | Construct this | ConstructSized this _ => [this]
  | ConstructCopy this other | ConstructMove this other => [this; other]
  | _ => operands op
  end.

(** What the operation requires: a constructor runs on storage that
    holds no object, the other operations on well-formed objects, and
    [Erase] takes a position of the live range. *)
Definition ready {A} σ (op : operation T A) : Prop :=
  match op with
  | Construct this | ConstructSized this _ => vecs σ !! this = None
  | ConstructCopy this other | ConstructMove this other =>
      vecs σ !! this = None ∧ wf σ other
  | DoErase this pos =>
      ∃ b cap xs i, is_vec σ this (Ptr b 0) cap xs ∧ pos = Ptr b i ∧ i < length xs
  | _ => Forall (wf σ) (operands op)
  end.

End Interface.

(** ** Results of calls *)

Section Results.
Context {T : Type}.
Implicit Types (σ : state T).

(** What holds of the result of a call that returns or throws. *)
Definition wp {A} (m : M T A) σ (Q : A → state T → Prop) (E : exn → state T → Prop) : Prop :=
  match m σ with
  | Done a σ' => Q a σ'
  | Thrown e σ' => E e σ'
  | Abort | Undef => True
  end.

(** The objects in the store are as before. *)
Definition same_objects σ σ' : Prop := vecs σ' = vecs σ ∧ raws σ' = raws σ.

(** A computation that only works on blocks. *)
Definition mem_only {A} (m : M T A) : Prop :=
  ∀ σ, wp m σ (λ _ σ', same_objects σ σ') (λ _ σ', same_objects σ σ').

(** A computation that leaves the store as it is and does not throw. *)
Definition reads {A} (m : M T A) : Prop :=
  ∀ σ, wp m σ (λ _ σ', σ' = σ) (λ _ _, False).

End Results.

Module Probe.

Lemma heap_bound : (2 * 140737488355328 <= SIZE_MAX)%N.
Proof. by vm_compute. Qed.

(** A 64-bit platform with assertions compiled in, and one with
    [NDEBUG] defined. *)
Definition debug : Platform :=
  {| NDEBUG := false; heap_limit := 140737488355328; heap_limit_bound := heap_bound |}.
Definition ndebug : Platform :=
  {| NDEBUG := true; heap_limit := 140737488355328; heap_limit_bound := heap_bound |}.

Lemma four_pos : 0 < 4.
Proof. lia. Qed.
Lemma four_fits : fits 4.
Proof. by vm_compute. Qed.

(** An element of four bytes holding a number.  A moved-from object
    holds 0.  When [nothrow] is false, copying or moving the objects
    selected by [bad] throws, leaving the source as it was.  [init]
    is the default constructor. *)
Definition probe_move (nothrow : bool) (bad : nat → bool) (x : nat) : nat * option exn :=
  if nothrow then (0, None)
  else if bad x then (x, Some (elem_exn x)) else (0, None).

Lemma probe_nothrow nothrow bad :
  nothrow = true → ∀ x, (probe_move nothrow bad x).2 = None.
Proof. by intros -> x. Qed.

Definition probe_with (init : nat → exn + nat) (nothrow copyable : bool) (bad : nat → bool)
    : Element nat :=
  {| sizeof_T := 4;
     is_nothrow_move_constructible := nothrow;
     is_copy_constructible := copyable;
     is_move_constructible := true;
     elem_value_init := init;
     elem_copy x := if bad x then Some (elem_exn x) else None;
     elem_move := probe_move nothrow bad;
     elem_copy_assign d s := if bad s then Some (elem_exn s, d) else None;
     elem_move_assign d s :=
       ((probe_move nothrow bad s).1,
        match (probe_move nothrow bad s).2 with
        | Some e => Some (e, d)
        | None => None
        end);
     sizeof_pos := four_pos;
     sizeof_fits := four_fits;
     movable_or_copyable := eq_refl;
     nothrow_move_sound := probe_nothrow nothrow bad |}.

(** The default constructor gives 0. *)
Definition probe : bool → bool → (nat → bool) → Element nat :=
  probe_with (λ _, inr 0).

(** A string-like type; a type whose copies and moves of 13 throw; a
    move-only type whose move of 13 throws; and a type whose default
    constructor throws for the third object of a call. *)
Definition text : Element nat := probe true true (λ _, false).
Definition fragile : Element nat := probe false true (λ x, x =? 13).
Definition move_only : Element nat := probe false false (λ x, x =? 13).
Definition counted : Element nat :=
  probe_with (λ k, if k =? 2 then inl (elem_exn 2) else inr 0) true true (λ _, false).

(** A vector at address 0 whose buffer is block 0. *)
Definition vec0 (cap : nat) (xs : list nat) : state nat :=
  mkState {[ 0 := (Live <$> xs) ++ replicate (cap - length xs) Raw ]}
          {[ 0 := mkVector (mkRawMemory (Ptr 0 0) cap) (length xs) ]} ∅ [].

(** Two buffers of capacities 2 and 3, owned by the objects 0 and 1. *)
Definition two_buffers : state nat :=
  mkState {[ 0 := [Raw; Raw]; 1 := [Raw; Raw; Raw] ]} ∅
          {[ 0 := mkRawMemory (Ptr 0 0) 2; 1 := mkRawMemory (Ptr 1 0) 3 ]} [].

(** A vector at address 0 with block 0 and a vector at address 1 with
    block 1. *)
Definition two_vecs (cap : nat) (xs : list nat) (cap' : nat) (ys : list nat) : state nat :=
  mkState {[ 0 := (Live <$> xs) ++ replicate (cap - length xs) Raw;
             1 := (Live <$> ys) ++ replicate (cap' - length ys) Raw ]}
          {[ 0 := mkVector (mkRawMemory (Ptr 0 0) cap) (length xs);
             1 := mkVector (mkRawMemory (Ptr 1 0) cap') (length ys) ]} ∅ [].

End Probe.

(** * Reasoning about the model *)

(** ** [size_t] *)

Lemma wrap_fits n : fits n → wrap n = n.
Proof.
  unfold fits, wrap. intros Hn.
  rewrite N.mod_small by lia. apply Nat2N.id.
Qed.

Lemma wrap_le n : wrap n ≤ n.
Proof.
  unfold wrap.
  assert (N.of_nat n mod (SIZE_MAX + 1) <= N.of_nat n)%N by (apply N.Div0.mod_le).
  lia.
Qed.

Lemma fits_le n m : n ≤ m → fits m → fits n.
Proof. unfold fits. lia. Qed.

Lemma size_sub_le a b : b ≤ a → size_sub a b = a - b.
Proof.
  intros Hle. unfold size_sub.
  destruct (Nat.leb_spec b a); [done | lia].
Qed.

(** ** The store *)

Section StateLemmas.
Context {T : Type}.
Implicit Types (σ : state T) (cs : list (cell T)).

Lemma state_eq σ σ' :
  blocks σ = blocks σ' → vecs σ = vecs σ' → raws σ = raws σ' →
  leaked σ = leaked σ' → σ = σ'.
Proof. destruct σ, σ'; simpl; congruence. Qed.

Lemma set_blocks_insert_id σ b cs :
  blocks σ !! b = Some cs → set_blocks (insert b cs) σ = σ.
Proof.
  intros Hb. apply state_eq; simpl; try done. by apply insert_id.
Qed.

Lemma set_blocks_insert_insert σ b cs cs' :
  set_blocks (insert b cs') (set_blocks (insert b cs) σ) = set_blocks (insert b cs') σ.
Proof. apply state_eq; simpl; try done. apply insert_insert_eq. Qed.

Lemma blocks_set_blocks_insert σ b cs :
  blocks (set_blocks (insert b cs) σ) !! b = Some cs.
Proof. simpl. apply lookup_insert_eq. Qed.

Lemma blocks_set_blocks_insert_ne σ b b' cs :
  b ≠ b' → blocks (set_blocks (insert b cs) σ) !! b' = blocks σ !! b'.
Proof. intros. simpl. by apply lookup_insert_ne. Qed.

Lemma live_values_replicate_Raw n : live_values (replicate n (@Raw T)) = [].
Proof. induction n as [|n IH]; [done | exact IH]. Qed.

Lemma live_values_Live (xs : list T) : live_values (Live <$> xs) = xs.
Proof. induction xs as [|x xs IH]; [done | simpl; by f_equal]. Qed.

Lemma live_values_app cs cs' : live_values (cs ++ cs') = live_values cs ++ live_values cs'.
Proof. apply omap_app. Qed.

Lemma fresh_block_None σ : blocks σ !! fresh (dom (blocks σ)) = None.
Proof. apply not_elem_of_dom, is_fresh. Qed.

Lemma fresh_raw_None σ : raws σ !! fresh (dom (raws σ)) = None.
Proof. apply not_elem_of_dom, is_fresh. Qed.

Lemma fresh_vec_None σ : vecs σ !! fresh (dom (vecs σ)) = None.
Proof. apply not_elem_of_dom, is_fresh. Qed.

End StateLemmas.

(** ** Cells *)

Section CellLemmas.
Context `{Platform} {T : Type} `{Element T}.
Implicit Types (σ : state T) (cs pre post : list (cell T)) (xs : list T).

Lemma bind_done {A B} (m : M T A) (k : A → M T B) σ a σ' :
  m σ = Done a σ' → bind m k σ = k a σ'.
Proof. unfold bind. by intros ->. Qed.

Lemma bind_thrown {A B} (m : M T A) (k : A → M T B) σ e σ' :
  m σ = Thrown e σ' → bind m k σ = Thrown e σ'.
Proof. unfold bind. by intros ->. Qed.

Lemma bind_ret_l {A B} (a : A) (k : A → M T B) σ : bind (ret a) k σ = k a σ.
Proof. done. Qed.

Lemma bind_assoc {A B C} (m : M T A) (f : A → M T B) (g : B → M T C) σ :
  bind (bind m f) g σ = bind m (λ x, bind (f x) g) σ.
Proof. unfold bind. by destruct (m σ). Qed.

Lemma read_cell_app σ b off pre c post :
  blocks σ !! b = Some (pre ++ c :: post) → off = length pre →
  read_cell (Ptr b off) σ = Done c σ.
Proof.
  intros Hb ->. unfold read_cell. rewrite Hb.
  by rewrite list_lookup_middle.
Qed.

Lemma write_cell_app σ b off pre c c' post :
  blocks σ !! b = Some (pre ++ c :: post) → off = length pre →
  write_cell (Ptr b off) c' σ = Done tt (set_blocks (insert b (pre ++ c' :: post)) σ).
Proof.
  intros Hb ->. unfold write_cell. rewrite Hb.
  destruct (Nat.ltb_spec (length pre) (length (pre ++ c :: post))) as [_|Hge].
  - by rewrite insert_app_r_alt, Nat.sub_diag by lia.
  - rewrite length_app in Hge. simpl in Hge. lia.
Qed.

Lemma load_app σ b off pre v post :
  blocks σ !! b = Some (pre ++ Live v :: post) → off = length pre →
  load (Ptr b off) σ = Done v σ.
Proof.
  intros Hb Hoff. unfold load.
  by rewrite (bind_done _ _ _ _ _ (read_cell_app _ _ _ _ _ _ Hb Hoff)).
Qed.

Lemma store_app σ b off pre v v' post :
  blocks σ !! b = Some (pre ++ Live v :: post) → off = length pre →
  store (Ptr b off) v' σ = Done tt (set_blocks (insert b (pre ++ Live v' :: post)) σ).
Proof.
  intros Hb Hoff. unfold store.
  rewrite (bind_done _ _ _ _ _ (read_cell_app _ _ _ _ _ _ Hb Hoff)).
  by apply write_cell_app with (c := Live v).
Qed.

Lemma placement_new_app σ b off pre v post :
  blocks σ !! b = Some (pre ++ Raw :: post) → off = length pre →
  placement_new (Ptr b off) v σ = Done tt (set_blocks (insert b (pre ++ Live v :: post)) σ).
Proof.
  intros Hb Hoff. unfold placement_new.
  rewrite (bind_done _ _ _ _ _ (read_cell_app _ _ _ _ _ _ Hb Hoff)).
  by apply write_cell_app with (c := Raw).
Qed.

Lemma destroy_at_app σ b off pre v post :
  blocks σ !! b = Some (pre ++ Live v :: post) → off = length pre →
  destroy_at (Ptr b off) σ = Done tt (set_blocks (insert b (pre ++ Raw :: post)) σ).
Proof.
  intros Hb Hoff. unfold destroy_at.
  rewrite (bind_done _ _ _ _ _ (read_cell_app _ _ _ _ _ _ Hb Hoff)).
  by apply write_cell_app with (c := Live v).
Qed.

End CellLemmas.

(** ** The algorithms on blocks *)

Ltac map_eq_tac :=
  apply map_eq; intros ?;
  repeat first [ rewrite lookup_insert | rewrite lookup_delete ];
  repeat case_decide; simplify_eq; try done; try congruence.

Ltac state_eq_tac :=
  apply state_eq; simpl; rewrite ?app_nil_r; try done; try map_eq_tac.

Section Algorithms.
Context `{Platform} {T : Type} `{Element T}.
Implicit Types (σ : state T) (cs pre post : list (cell T)) (xs ys : list T).

Lemma move_run_length xs : length (move_run xs).1 = length xs.
Proof.
  induction xs as [|x xs IH]; [done|]. simpl.
  destruct (elem_move x).2; simpl; by rewrite ?IH.
Qed.

Lemma move_run_nothrow xs :
  is_nothrow_move_constructible = true → (move_run xs).2 = None.
Proof.
  intros Hnt. induction xs as [|x xs IH]; [done|]. simpl.
  by rewrite (nothrow_move_sound Hnt x).
Qed.

Lemma destroy_n_spec xs : ∀ σ b off pre post,
  blocks σ !! b = Some (pre ++ (Live <$> xs) ++ post) → off = length pre →
  destroy_n (Ptr b off) (length xs) σ
  = Done tt (set_blocks (insert b (pre ++ replicate (length xs) Raw ++ post)) σ).
Proof.
  induction xs as [|x xs IH]; intros σ b off pre post Hb ->; simpl.
  - unfold ret. by rewrite set_blocks_insert_id.
  - rewrite (bind_done _ _ _ _ _ (destroy_at_app _ _ _ _ _ _ Hb eq_refl)).
    rewrite (IH _ b _ (pre ++ [Raw]) post).
    + rewrite set_blocks_insert_insert. by rewrite <-app_assoc.
    + rewrite blocks_set_blocks_insert. by rewrite <-app_assoc.
    + rewrite length_app. simpl. done.
Qed.

Lemma on_exception_done {A} (m : M T A) h σ a σ' :
  m σ = Done a σ' → on_exception m h σ = Done a σ'.
Proof. unfold on_exception. by intros ->. Qed.

Lemma on_exception_thrown {A} (m : M T A) h σ e σ' σ'' :
  m σ = Thrown e σ' → h σ' = Done tt σ'' → on_exception m h σ = Thrown e σ''.
Proof. unfold on_exception. by intros -> ->. Qed.

Lemma construct_copy_spec σ bs s ps x qs dst :
  blocks σ !! bs = Some (ps ++ Live x :: qs) → s = length ps →
  construct_copy dst (Ptr bs s) σ
  = match elem_copy x with
    | Some e => Thrown e σ
    | None => placement_new dst x σ
    end.
Proof.
  intros Hs Hoff. unfold construct_copy.
  rewrite (bind_done _ _ _ _ _ (load_app _ _ _ _ _ _ Hs Hoff)).
  by destruct (elem_copy x).
Qed.

Lemma uninitialized_copy_n_spec xs : ∀ σ bs s ps qs bd d pd qd,
  bs ≠ bd →
  blocks σ !! bs = Some (ps ++ (Live <$> xs) ++ qs) → s = length ps →
  blocks σ !! bd = Some (pd ++ replicate (length xs) Raw ++ qd) → d = length pd →
  uninitialized_copy_n (Ptr bs s) (length xs) (Ptr bd d) σ
  = match copy_run xs with
    | None => Done tt (set_blocks (insert bd (pd ++ (Live <$> xs) ++ qd)) σ)
    | Some e => Thrown e σ
    end.
Proof.
  induction xs as [|x xs IH]; intros σ bs s ps qs bd d pd qd Hne Hs -> Hd ->; simpl.
  - unfold ret. by rewrite set_blocks_insert_id.
  - unfold bind at 1. rewrite (construct_copy_spec _ _ _ _ _ _ _ Hs eq_refl).
    destruct (elem_copy x) as [e|]; [done|].
    rewrite (placement_new_app _ _ _ _ x _ Hd eq_refl).
    set (σ1 := set_blocks _ σ).
    assert (Hs1 : blocks σ1 !! bs = Some ((ps ++ [Live x]) ++ (Live <$> xs) ++ qs)).
    { unfold σ1. rewrite blocks_set_blocks_insert_ne by done. by rewrite <-app_assoc. }
    assert (Hd1 : blocks σ1 !! bd = Some ((pd ++ [Live x]) ++ replicate (length xs) Raw ++ qd)).
    { unfold σ1. rewrite blocks_set_blocks_insert. by rewrite <-app_assoc. }
    specialize (IH σ1 bs (length ps + 1) (ps ++ [Live x]) qs bd (length pd + 1)
                  (pd ++ [Live x]) qd Hne Hs1).
    rewrite !length_app in IH. specialize (IH eq_refl Hd1 eq_refl).
    destruct (copy_run xs) as [e|].
    + erewrite on_exception_thrown; [| exact IH |].
      2:{ eapply destroy_at_app with (pre := pd); [ | done].
          unfold σ1. rewrite blocks_set_blocks_insert. done. }
      f_equal. unfold σ1. rewrite set_blocks_insert_insert.
      by apply set_blocks_insert_id.
    + erewrite on_exception_done; [| exact IH].
      f_equal. unfold σ1. rewrite set_blocks_insert_insert. by rewrite <-app_assoc.
Qed.

Lemma construct_move_spec σ bs s ps x qs dst :
  blocks σ !! bs = Some (ps ++ Live x :: qs) → s = length ps →
  construct_move dst (Ptr bs s) σ
  = let σ1 := set_blocks (insert bs (ps ++ Live (elem_move x).1 :: qs)) σ in
    match (elem_move x).2 with
    | Some e => Thrown e σ1
    | None => placement_new dst x σ1
    end.
Proof.
  intros Hs Hoff. unfold construct_move.
  rewrite (bind_done _ _ _ _ _ (load_app _ _ _ _ _ _ Hs Hoff)).
  rewrite (bind_done _ _ _ _ _ (store_app _ _ _ _ _ (elem_move x).1 _ Hs Hoff)).
  simpl. by destruct (elem_move x).2.
Qed.

Lemma uninitialized_move_n_spec xs : ∀ σ bs s ps qs bd d pd qd,
  bs ≠ bd →
  blocks σ !! bs = Some (ps ++ (Live <$> xs) ++ qs) → s = length ps →
  blocks σ !! bd = Some (pd ++ replicate (length xs) Raw ++ qd) → d = length pd →
  uninitialized_move_n (Ptr bs s) (length xs) (Ptr bd d) σ
  = let σ1 := set_blocks (insert bs (ps ++ (Live <$> (move_run xs).1) ++ qs)) σ in
    match (move_run xs).2 with
    | None => Done tt (set_blocks (insert bd (pd ++ (Live <$> xs) ++ qd)) σ1)
    | Some e => Thrown e σ1
    end.
Proof.
  induction xs as [|x xs IH]; intros σ bs s ps qs bd d pd qd Hne Hs -> Hd ->; simpl.
  - unfold ret. rewrite (set_blocks_insert_id σ bs) by done.
    by rewrite set_blocks_insert_id.
  - unfold bind at 1. rewrite (construct_move_spec _ _ _ _ _ _ _ Hs eq_refl). simpl.
    destruct (elem_move x).2 as [e|] eqn:Hmv; [done|].
    set (σ0 := set_blocks (insert bs _) σ).
    assert (Hd0 : blocks σ0 !! bd = Some (pd ++ Raw :: replicate (length xs) Raw ++ qd)).
    { unfold σ0. by rewrite blocks_set_blocks_insert_ne. }
    rewrite (placement_new_app _ _ _ _ x _ Hd0 eq_refl).
    set (σ1 := set_blocks _ σ0).
    assert (Hs1 : blocks σ1 !! bs
                  = Some ((ps ++ [Live (elem_move x).1]) ++ (Live <$> xs) ++ qs)).
    { unfold σ1, σ0. simpl. rewrite lookup_insert_ne by done.
      rewrite lookup_insert_eq. by rewrite <-app_assoc. }
    assert (Hd1 : blocks σ1 !! bd = Some ((pd ++ [Live x]) ++ replicate (length xs) Raw ++ qd)).
    { unfold σ1. rewrite blocks_set_blocks_insert. by rewrite <-app_assoc. }
    specialize (IH σ1 bs (length ps + 1) (ps ++ [Live (elem_move x).1]) qs bd
                  (length pd + 1) (pd ++ [Live x]) qd Hne Hs1).
    rewrite !length_app in IH. specialize (IH eq_refl Hd1 eq_refl). simpl in IH.
    destruct (move_run xs).2 as [e|].
    + erewrite on_exception_thrown; [| exact IH |].
      2:{ eapply destroy_at_app with (pre := pd) (v := x); [ | done].
          unfold σ1. simpl. rewrite lookup_insert_ne by done.
          by rewrite lookup_insert_eq. }
      f_equal. unfold σ1, σ0. state_eq_tac. by rewrite <-app_assoc.
    + erewrite on_exception_done; [| exact IH].
      f_equal. unfold σ1, σ0. state_eq_tac; by rewrite <-app_assoc.
Qed.

Lemma value_run_length k n : (value_run k n).2 = None → length (value_run k n).1 = n.
Proof.
  revert k. induction n as [|n IH]; intros k; [done|]. simpl.
  destruct (elem_value_init k) as [e|v]; [done|]. simpl. intros Hr. by rewrite IH.
Qed.

Lemma value_run_le k n : length (value_run k n).1 ≤ n.
Proof.
  revert k. induction n as [|n IH]; intros k; [done|]. simpl.
  destruct (elem_value_init k) as [e|v]; simpl; [lia|]. specialize (IH (S k)). lia.
Qed.

Lemma value_construct_from_spec n : ∀ k σ b off pre post,
  blocks σ !! b = Some (pre ++ replicate n Raw ++ post) → off = length pre →
  value_construct_from k (Ptr b off) n σ
  = match (value_run k n).2 with
    | Some e => Thrown e σ
    | None =>
        Done tt (set_blocks (insert b (pre ++ (Live <$> (value_run k n).1) ++ post)) σ)
    end.
Proof.
  induction n as [|n IH]; intros k σ b off pre post Hb ->.
  { simpl. unfold ret. f_equal. by rewrite set_blocks_insert_id. }
  simpl. unfold bind at 1, construct_value.
  destruct (elem_value_init k) as [e|v] eqn:Hv; [done|].
  rewrite (placement_new_app σ b _ pre v (replicate n Raw ++ post) Hb eq_refl).
  set (σ1 := set_blocks _ σ).
  assert (Hb1 : blocks σ1 !! b = Some ((pre ++ [Live v]) ++ replicate n Raw ++ post)).
  { unfold σ1. rewrite blocks_set_blocks_insert. by rewrite <-app_assoc. }
  specialize (IH (S k) σ1 b (length pre + 1) (pre ++ [Live v]) post Hb1).
  rewrite length_app in IH. specialize (IH eq_refl). simpl.
  destruct (value_run (S k) n).2 as [e|].
  - erewrite on_exception_thrown; [| exact IH |].
    2:{ eapply destroy_at_app with (pre := pre) (v := v); [|done].
        unfold σ1. by rewrite blocks_set_blocks_insert. }
    f_equal. unfold σ1. rewrite set_blocks_insert_insert.
    by apply set_blocks_insert_id.
  - erewrite on_exception_done; [| exact IH].
    f_equal. unfold σ1. rewrite set_blocks_insert_insert. by rewrite <-app_assoc.
Qed.

Lemma uninitialized_value_construct_n_spec n σ b off pre post :
  blocks σ !! b = Some (pre ++ replicate n Raw ++ post) → off = length pre →
  uninitialized_value_construct_n (Ptr b off) n σ
  = match (value_run 0 n).2 with
    | Some e => Thrown e σ
    | None =>
        Done tt (set_blocks (insert b (pre ++ (Live <$> (value_run 0 n).1) ++ post)) σ)
    end.
Proof. apply value_construct_from_spec. Qed.

Lemma copy_assign_run_length ds : ∀ xs,
  length (copy_assign_run ds xs).1 = length ds.
Proof.
  induction ds as [|d ds IH]; intros [|x xs]; simpl; try done.
  destruct (elem_copy_assign d x) as [[e d']|]; simpl; by rewrite ?IH.
Qed.

Lemma copy_assign_run_ok ds : ∀ xs,
  length ds = length xs → (copy_assign_run ds xs).2 = None →
  (copy_assign_run ds xs).1 = xs.
Proof.
  induction ds as [|d ds IH]; intros [|x xs] Hlen; simpl in *; try done.
  destruct (elem_copy_assign d x) as [[e d']|]; simpl; [done|].
  intros Hok. f_equal. apply IH; [lia | done].
Qed.

Lemma assign_copy_spec σ bs s ps x qs bd d pd y qd :
  blocks σ !! bs = Some (ps ++ Live x :: qs) → s = length ps →
  blocks σ !! bd = Some (pd ++ Live y :: qd) → d = length pd →
  assign_copy (Ptr bd d) (Ptr bs s) σ
  = match elem_copy_assign y x with
    | None => Done tt (set_blocks (insert bd (pd ++ Live x :: qd)) σ)
    | Some (e, y') => Thrown e (set_blocks (insert bd (pd ++ Live y' :: qd)) σ)
    end.
Proof.
  intros Hs Hso Hd Hdo. unfold assign_copy.
  rewrite (bind_done _ _ _ _ _ (load_app _ _ _ _ _ _ Hd Hdo)).
  rewrite (bind_done _ _ _ _ _ (load_app _ _ _ _ _ _ Hs Hso)).
  destruct (elem_copy_assign y x) as [[e y']|].
  - by rewrite (bind_done _ _ _ _ _ (store_app _ _ _ _ _ y' _ Hd Hdo)).
  - by rewrite (store_app _ _ _ _ _ x _ Hd Hdo).
Qed.

Lemma copy_n_assign_spec xs : ∀ ds σ bs s ps qs bd d pd qd,
  bs ≠ bd → length ds = length xs →
  blocks σ !! bs = Some (ps ++ (Live <$> xs) ++ qs) → s = length ps →
  blocks σ !! bd = Some (pd ++ (Live <$> ds) ++ qd) → d = length pd →
  copy_n_assign (Ptr bs s) (length xs) (Ptr bd d) σ
  = let σ1 := set_blocks (insert bd (pd ++ (Live <$> (copy_assign_run ds xs).1) ++ qd)) σ in
    match (copy_assign_run ds xs).2 with
    | None => Done tt σ1
    | Some e => Thrown e σ1
    end.
Proof.
  induction xs as [|x xs IH]; intros [|y ds] σ bs s ps qs bd d pd qd Hne Hlen Hs -> Hd ->;
    simpl in Hlen; try done; simpl.
  - unfold ret. by rewrite set_blocks_insert_id.
  - unfold bind at 1.
    rewrite (assign_copy_spec σ bs _ ps x _ bd _ pd y _ Hs eq_refl Hd eq_refl).
    destruct (elem_copy_assign y x) as [[e y']|]; [done|].
    set (σ1 := set_blocks _ σ).
    assert (Hs1 : blocks σ1 !! bs = Some ((ps ++ [Live x]) ++ (Live <$> xs) ++ qs)).
    { unfold σ1. rewrite blocks_set_blocks_insert_ne by done. by rewrite <-app_assoc. }
    assert (Hd1 : blocks σ1 !! bd = Some ((pd ++ [Live x]) ++ (Live <$> ds) ++ qd)).
    { unfold σ1. rewrite blocks_set_blocks_insert. by rewrite <-app_assoc. }
    specialize (IH ds σ1 bs (length ps + 1) (ps ++ [Live x]) qs bd (length pd + 1)
                  (pd ++ [Live x]) qd Hne).
    rewrite !length_app in IH.
    specialize (IH ltac:(lia) Hs1 eq_refl Hd1 eq_refl). rewrite IH. simpl.
    unfold σ1. rewrite set_blocks_insert_insert. rewrite <-app_assoc. done.
Qed.

Lemma shift_run_length xs : ∀ d, length (shift_run d xs).1 = S (length xs).
Proof.
  induction xs as [|x xs IH]; intros d; simpl; [done|].
  destruct (elem_move_assign d x).2 as [[e d']|]; simpl; by rewrite ?IH.
Qed.

Lemma shift_run_ok xs : ∀ d,
  (shift_run d xs).2 = None → ∃ r, (shift_run d xs).1 = xs ++ [r].
Proof.
  induction xs as [|x xs IH]; intros d; simpl.
  - intros _. by exists d.
  - destruct (elem_move_assign d x).2 as [[e d']|]; simpl; [done|].
    intros Hok. destruct (IH _ Hok) as [r Hr]. exists r. by rewrite Hr.
Qed.

Lemma assign_move_adjacent σ b off pre d x post :
  blocks σ !! b = Some (pre ++ Live d :: Live x :: post) → off = length pre →
  assign_move (Ptr b off) (Ptr b (off + 1)) σ
  = match (elem_move_assign d x).2 with
    | None =>
        Done tt (set_blocks
                   (insert b (pre ++ Live x :: Live (elem_move_assign d x).1 :: post)) σ)
    | Some (e, d') =>
        Thrown e (set_blocks
                    (insert b (pre ++ Live d' :: Live (elem_move_assign d x).1 :: post)) σ)
    end.
Proof.
  intros Hb ->. unfold assign_move.
  assert (Hb' : blocks σ !! b = Some ((pre ++ [Live d]) ++ Live x :: post))
    by (by rewrite <-app_assoc).
  assert (Hlen : length pre + 1 = length (pre ++ [Live d]))
    by (rewrite length_app; done).
  rewrite (bind_done _ _ _ _ _ (load_app _ _ _ _ _ _ Hb eq_refl)).
  rewrite (bind_done _ _ _ _ _ (load_app _ _ _ _ _ _ Hb' Hlen)).
  rewrite (bind_done _ _ _ _ _ (store_app _ _ _ _ _ (elem_move_assign d x).1 _ Hb' Hlen)).
  set (σ1 := set_blocks _ σ).
  assert (Hb1 : blocks σ1 !! b
                = Some (pre ++ Live d :: Live (elem_move_assign d x).1 :: post)).
  { unfold σ1. rewrite blocks_set_blocks_insert. by rewrite <-app_assoc. }
  destruct (elem_move_assign d x).2 as [[e d']|].
  - rewrite (bind_done _ _ _ _ _ (store_app _ _ _ _ _ d' _ Hb1 eq_refl)).
    unfold throw, σ1. by rewrite set_blocks_insert_insert.
  - rewrite (store_app _ _ _ _ _ x _ Hb1 eq_refl).
    unfold σ1. by rewrite set_blocks_insert_insert.
Qed.

Lemma move_n_assign_shift xs : ∀ d σ b off pre post,
  blocks σ !! b = Some (pre ++ (Live <$> d :: xs) ++ post) → off = length pre →
  move_n_assign (Ptr b (off + 1)) (length xs) (Ptr b off) σ
  = let σ1 := set_blocks (insert b (pre ++ (Live <$> (shift_run d xs).1) ++ post)) σ in
    match (shift_run d xs).2 with
    | None => Done tt σ1
    | Some e => Thrown e σ1
    end.
Proof.
  induction xs as [|x xs IH]; intros d σ b off pre post Hb ->; simpl.
  - unfold ret. by rewrite set_blocks_insert_id.
  - unfold bind at 1.
    rewrite (assign_move_adjacent σ b _ pre d x _ Hb eq_refl).
    destruct (elem_move_assign d x).2 as [[e d']|]; [done|].
    set (σ1 := set_blocks _ σ).
    assert (Hb1 : blocks σ1 !! b
                  = Some ((pre ++ [Live x])
                          ++ (Live <$> (elem_move_assign d x).1 :: xs) ++ post)).
    { unfold σ1. rewrite blocks_set_blocks_insert. by rewrite <-app_assoc. }
    specialize (IH (elem_move_assign d x).1 σ1 b (length pre + 1) (pre ++ [Live x]) post Hb1).
    rewrite length_app in IH. specialize (IH eq_refl).
    rewrite IH. simpl. unfold σ1.
    rewrite set_blocks_insert_insert. rewrite <-app_assoc. done.
Qed.

End Algorithms.

(** ** The representation of a [Vector] *)

Section Representation.
Context `{Platform} {T : Type} `{Element T}.
Implicit Types (σ : state T) (xs : list T).

Lemma vecs_with_cells σ p cs : vecs (with_cells p cs σ) = vecs σ.
Proof. by destruct p. Qed.

Lemma raws_with_cells σ p cs : raws (with_cells p cs σ) = raws σ.
Proof. by destruct p. Qed.

Lemma leaked_with_cells σ p cs : leaked (with_cells p cs σ) = leaked σ.
Proof. by destruct p. Qed.

Lemma blocks_with_cells_ne σ p cs b :
  (∀ off, p ≠ Ptr b off) → blocks (with_cells p cs σ) !! b = blocks σ !! b.
Proof.
  intros Hne. destruct p as [|b0 off]; [done|]. simpl.
  rewrite lookup_insert_ne; [done|]. intros ->. by apply (Hne off).
Qed.

Lemma vec_cells_length cap xs : length xs ≤ cap → length (vec_cells cap xs) = cap.
Proof.
  intros Hle. unfold vec_cells.
  rewrite length_app, length_fmap, length_replicate. lia.
Qed.

Lemma is_vec_null σ this cap xs : is_vec σ this Null cap xs → cap = 0 ∧ xs = [].
Proof.
  intros (_ & Hle & _ & Hb). simpl in Hb. subst cap.
  split; [done|]. destruct xs; [done | simpl in Hle; lia].
Qed.

Lemma is_vec_size_le σ this p cap xs :
  is_vec σ this p cap xs →
  ∃ v, vecs σ !! this = Some v ∧ size_ v ≤ capacity_ (data_ v).
Proof. intros (Hv & Hle & _). eexists; split; [exact Hv | done]. Qed.

End Representation.

(** ** Members of the objects in the store *)

Section FieldLemmas.
Context {T : Type}.
Implicit Types (σ : state T).

Lemma get_raw_data σ v x :
  vecs σ !! v = Some x → get_raw (DataOf v) σ = Done (data_ x) σ.
Proof. unfold get_raw. by intros ->. Qed.

Lemma get_raw_obj σ a m :
  raws σ !! a = Some m → get_raw (RawObj a) σ = Done m σ.
Proof. unfold get_raw. by intros ->. Qed.

Lemma get_buffer_data σ v x :
  vecs σ !! v = Some x → get_buffer (DataOf v) σ = Done (buffer_ (data_ x)) σ.
Proof. intros Hv. unfold get_buffer, bind. by rewrite (get_raw_data _ _ _ Hv). Qed.

Lemma get_buffer_obj σ a m :
  raws σ !! a = Some m → get_buffer (RawObj a) σ = Done (buffer_ m) σ.
Proof. intros Ha. unfold get_buffer, bind. by rewrite (get_raw_obj _ _ _ Ha). Qed.

Lemma get_capacity_data σ v x :
  vecs σ !! v = Some x → get_capacity (DataOf v) σ = Done (capacity_ (data_ x)) σ.
Proof. intros Hv. unfold get_capacity, bind. by rewrite (get_raw_data _ _ _ Hv). Qed.

Lemma get_capacity_obj σ a m :
  raws σ !! a = Some m → get_capacity (RawObj a) σ = Done (capacity_ m) σ.
Proof. intros Ha. unfold get_capacity, bind. by rewrite (get_raw_obj _ _ _ Ha). Qed.

Lemma set_buffer_data σ v x p :
  vecs σ !! v = Some x →
  set_buffer (DataOf v) p σ
  = Done tt (set_vecs (insert v (mkVector (mkRawMemory p (capacity_ (data_ x))) (size_ x))) σ).
Proof.
  intros Hv. unfold set_buffer, bind. rewrite (get_raw_data _ _ _ Hv).
  unfold set_raw. by rewrite Hv.
Qed.

Lemma set_buffer_obj σ a m p :
  raws σ !! a = Some m →
  set_buffer (RawObj a) p σ
  = Done tt (set_raws (insert a (mkRawMemory p (capacity_ m))) σ).
Proof.
  intros Ha. unfold set_buffer, bind. rewrite (get_raw_obj _ _ _ Ha).
  unfold set_raw. by rewrite Ha.
Qed.

Lemma set_capacity_data σ v x n :
  vecs σ !! v = Some x →
  set_capacity (DataOf v) n σ
  = Done tt (set_vecs (insert v (mkVector (mkRawMemory (buffer_ (data_ x)) n) (size_ x))) σ).
Proof.
  intros Hv. unfold set_capacity, bind. rewrite (get_raw_data _ _ _ Hv).
  unfold set_raw. by rewrite Hv.
Qed.

Lemma set_capacity_obj σ a m n :
  raws σ !! a = Some m →
  set_capacity (RawObj a) n σ
  = Done tt (set_raws (insert a (mkRawMemory (buffer_ m) n)) σ).
Proof.
  intros Ha. unfold set_capacity, bind. rewrite (get_raw_obj _ _ _ Ha).
  unfold set_raw. by rewrite Ha.
Qed.

Lemma get_size_eq σ v x :
  vecs σ !! v = Some x → get_size v σ = Done (size_ x) σ.
Proof. unfold get_size. by intros ->. Qed.

Lemma set_size_eq σ v x n :
  vecs σ !! v = Some x →
  set_size v n σ = Done tt (set_vecs (insert v (mkVector (data_ x) n)) σ).
Proof. unfold set_size. by intros ->. Qed.

End FieldLemmas.

(** Evaluation of the next call of a sequence whose result is known. *)
Ltac lookup_tac :=
  simpl;
  repeat first
    [ rewrite vecs_with_cells; simpl
    | rewrite raws_with_cells; simpl
    | rewrite lookup_insert_eq
    | rewrite lookup_insert_ne by (done || congruence)
    | rewrite lookup_delete_ne by (done || congruence) ];
  first [ eassumption | reflexivity ].

Ltac field_tac :=
  first
    [ eapply get_buffer_data; lookup_tac
    | eapply get_buffer_obj; lookup_tac
    | eapply get_capacity_data; lookup_tac
    | eapply get_capacity_obj; lookup_tac
    | eapply set_buffer_data; lookup_tac
    | eapply set_buffer_obj; lookup_tac
    | eapply set_capacity_data; lookup_tac
    | eapply set_capacity_obj; lookup_tac
    | eapply get_size_eq; lookup_tac
    | eapply set_size_eq; lookup_tac
    | eapply get_raw_data; lookup_tac
    | eapply get_raw_obj; lookup_tac ].

Ltac mstep :=
  rewrite ?bind_assoc; erewrite bind_done by field_tac; simpl.

Section SwapLemmas.
Context `{Platform} {T : Type} `{Element T}.
Implicit Types (σ : state T).

Lemma RawMemory_Swap_data_obj σ this a m s m' :
  vecs σ !! this = Some (mkVector m s) → raws σ !! a = Some m' →
  RawMemory.Swap (DataOf this) (RawObj a) σ
  = Done tt (set_raws (insert a m) (set_vecs (insert this (mkVector m' s)) σ)).
Proof.
  intros Hv Ha. unfold RawMemory.Swap.
  do 7 mstep.
  erewrite set_capacity_obj by lookup_tac. simpl.
  f_equal. destruct m, m'. state_eq_tac.
Qed.

Lemma RawMemory_Swap_data_data σ this other m s m' s' :
  this ≠ other →
  vecs σ !! this = Some (mkVector m s) → vecs σ !! other = Some (mkVector m' s') →
  RawMemory.Swap (DataOf this) (DataOf other) σ
  = Done tt (set_vecs (insert other (mkVector m s'))
               (set_vecs (insert this (mkVector m' s)) σ)).
Proof.
  intros Hne Hv Ho. unfold RawMemory.Swap.
  do 7 mstep.
  erewrite set_capacity_data by lookup_tac. simpl.
  f_equal. destruct m, m'. state_eq_tac.
Qed.

Lemma RawMemory_Swap_self σ this x :
  vecs σ !! this = Some x →
  RawMemory.Swap (DataOf this) (DataOf this) σ = Done tt σ.
Proof.
  intros Hv. unfold RawMemory.Swap.
  do 7 mstep.
  erewrite set_capacity_data by lookup_tac. simpl.
  f_equal. destruct x as [[p c] s]. state_eq_tac.
Qed.

End SwapLemmas.


(** ** Allocation and the scope of a local buffer *)

Section Allocation.
Context `{Platform} {T : Type} `{Element T}.
Implicit Types (σ : state T) (xs : list T).

Lemma Allocate_spec σ n :
  0 < n → fits (n * sizeof_T) →
  RawMemory.Allocate n σ
  = if (N.of_nat (n * sizeof_T) <=? heap_limit)%N
    then Done (Ptr (fresh (dom (blocks σ))) 0)
           (set_blocks (insert (fresh (dom (blocks σ))) (replicate n Raw)) σ)
    else Thrown bad_alloc σ.
Proof.
  intros Hn Hfit. unfold RawMemory.Allocate.
  destruct (Nat.eqb_spec n 0) as [->|_]; [lia|]. simpl.
  unfold operator_new. rewrite (wrap_fits _ Hfit).
  rewrite Nat.div_mul by (pose proof sizeof_pos; lia). done.
Qed.

Lemma operator_delete_spec σ b cs :
  blocks σ !! b = Some cs →
  operator_delete (Ptr b 0) σ
  = Done tt (set_leaked (λ l, l ++ live_values cs) (set_blocks (delete b) σ)).
Proof. unfold operator_delete. by intros ->. Qed.

Lemma destroy_obj_spec σ a b c cs :
  raws σ !! a = Some (mkRawMemory (Ptr b 0) c) → blocks σ !! b = Some cs →
  RawMemory.destroy (RawObj a) σ
  = Done tt (mkState (delete b (blocks σ)) (vecs σ) (delete a (raws σ))
               (leaked σ ++ live_values cs)).
Proof.
  intros Ha Hb. unfold RawMemory.destroy, RawMemory.dtor. mstep.
  unfold RawMemory.Deallocate.
  by rewrite (bind_done _ _ _ _ _ (operator_delete_spec _ _ _ Hb)).
Qed.

Lemma destroy_obj_null σ a c :
  raws σ !! a = Some (mkRawMemory Null c) →
  RawMemory.destroy (RawObj a) σ = Done tt (set_raws (delete a) σ).
Proof. intros Ha. unfold RawMemory.destroy, RawMemory.dtor. by mstep. Qed.

Lemma destroy_data_spec σ this b c s cs :
  vecs σ !! this = Some (mkVector (mkRawMemory (Ptr b 0) c) s) →
  blocks σ !! b = Some cs →
  RawMemory.destroy (DataOf this) σ
  = Done tt (mkState (delete b (blocks σ)) (delete this (vecs σ)) (raws σ)
               (leaked σ ++ live_values cs)).
Proof.
  intros Ha Hb. unfold RawMemory.destroy, RawMemory.dtor. mstep.
  unfold RawMemory.Deallocate.
  by rewrite (bind_done _ _ _ _ _ (operator_delete_spec _ _ _ Hb)).
Qed.

Lemma destroy_data_null σ this c s :
  vecs σ !! this = Some (mkVector (mkRawMemory Null c) s) →
  RawMemory.destroy (DataOf this) σ = Done tt (set_vecs (delete this) σ).
Proof. intros Ha. unfold RawMemory.destroy, RawMemory.dtor. by mstep. Qed.

(** Entering the scope of a local buffer when the allocation succeeds. *)
Lemma local_spec {A} σ n (body : raw_ref → M T A) :
  0 < n → fits (n * sizeof_T) → (N.of_nat (n * sizeof_T) <= heap_limit)%N →
  RawMemory.local n body σ
  = let a := fresh (dom (raws σ)) in
    let b' := fresh (dom (blocks σ)) in
    (r <- on_exception (body (RawObj a)) (RawMemory.destroy (RawObj a)) ;;
     RawMemory.destroy (RawObj a) ;; ret r)
      (set_raws (insert a (mkRawMemory (Ptr b' 0) n))
         (set_blocks (insert b' (replicate n Raw)) σ)).
Proof.
  intros Hn Hfit Hlim. unfold RawMemory.local.
  unfold bind at 1. unfold fresh_raw.
  unfold RawMemory.ctor. unfold bind at 1. unfold bind at 1.
  rewrite Allocate_spec by done.
  destruct (N.leb_spec (N.of_nat (n * sizeof_T)) heap_limit) as [_|]; [done|lia].
Qed.

(** When it fails, nothing has happened. *)
Lemma local_bad_alloc {A} σ n (body : raw_ref → M T A) :
  0 < n → fits (n * sizeof_T) → (heap_limit < N.of_nat (n * sizeof_T))%N →
  RawMemory.local n body σ = Thrown bad_alloc σ.
Proof.
  intros Hn Hfit Hlim. unfold RawMemory.local.
  unfold bind at 1. unfold fresh_raw.
  unfold RawMemory.ctor. unfold bind at 1. unfold bind at 1.
  rewrite Allocate_spec by done.
  destruct (N.leb_spec (N.of_nat (n * sizeof_T)) heap_limit) as [|_]; [lia|done].
Qed.

End Allocation.

(** ** [Reserve] *)

Section ReserveSpec.
Context `{Platform} {T : Type} `{Element T}.
Implicit Types (σ : state T) (xs : list T).

Lemma reserve_run_length xs : length (reserve_run xs).1 = length xs.
Proof. unfold reserve_run. repeat case_match; simpl; by rewrite ?move_run_length. Qed.

Lemma reserve_run_nil : reserve_run [] = ([], None).
Proof. unfold reserve_run. by repeat case_match. Qed.

Lemma replicate_split (n k : nat) (c : cell T) :
  k ≤ n → replicate n c = replicate k c ++ replicate (n - k) c.
Proof. intros Hle. rewrite <-replicate_add. f_equal. lia. Qed.

Lemma reserve_transfer_spec σ b cap xs b' n :
  b ≠ b' → length xs ≤ n →
  blocks σ !! b = Some (vec_cells cap xs) →
  blocks σ !! b' = Some (replicate n Raw) →
  Vector.reserve_transfer (Ptr b 0) (length xs) (Ptr b' 0) σ
  = let σ1 := set_blocks (insert b (vec_cells cap (reserve_run xs).1)) σ in
    match (reserve_run xs).2 with
    | None => Done tt (set_blocks (insert b' (vec_cells n xs)) σ1)
    | Some e => Thrown e σ1
    end.
Proof.
  intros Hne Hle' Hb Hb'.
  rewrite (replicate_split n (length xs)) in Hb' by done.
  unfold Vector.reserve_transfer, reserve_run.
  assert (Hmove :
    uninitialized_move_n (Ptr b 0) (length xs) (Ptr b' 0) σ
    = let σ1 := set_blocks (insert b (vec_cells cap (move_run xs).1)) σ in
      match (move_run xs).2 with
      | None => Done tt (set_blocks (insert b' (vec_cells n xs)) σ1)
      | Some e => Thrown e σ1
      end).
  { rewrite (uninitialized_move_n_spec xs σ b 0 [] _ b' 0 [] _ Hne Hb eq_refl Hb' eq_refl).
    unfold vec_cells. rewrite move_run_length. done. }
  destruct is_nothrow_move_constructible; [exact Hmove|].
  destruct is_copy_constructible eqn:Hcp.
  - rewrite (uninitialized_copy_n_spec xs σ b 0 [] _ b' 0 [] _ Hne Hb eq_refl Hb' eq_refl).
    simpl. rewrite (set_blocks_insert_id σ b) by done. done.
  - pose proof movable_or_copyable as Hmc. rewrite Hcp, orb_false_r in Hmc.
    rewrite Hmc. exact Hmove.
Qed.

Lemma Reserve_noop σ this p cap xs n :
  is_vec σ this p cap xs → n ≤ cap → Vector.Reserve this n σ = Done tt σ.
Proof.
  intros (Hv & _) Hle. unfold Vector.Reserve, RawMemory.Capacity. mstep.
  by destruct (Nat.leb_spec n cap) as [_|]; [|lia].
Qed.

Lemma Reserve_bad_alloc σ this p cap xs n :
  is_vec σ this p cap xs → cap < n → fits (n * sizeof_T) →
  (heap_limit < N.of_nat (n * sizeof_T))%N →
  Vector.Reserve this n σ = Thrown bad_alloc σ.
Proof.
  intros (Hv & _) Hlt Hfit Hlim. unfold Vector.Reserve, RawMemory.Capacity. mstep.
  destruct (Nat.leb_spec n cap) as [|_]; [lia|].
  apply local_bad_alloc; (done || lia).
Qed.

Lemma Reserve_grow σ this p cap xs n :
  is_vec σ this p cap xs → cap < n → fits (n * sizeof_T) →
  (N.of_nat (n * sizeof_T) <= heap_limit)%N →
  Vector.Reserve this n σ
  = let b' := fresh (dom (blocks σ)) in
    match (reserve_run xs).2 with
    | None =>
        Done tt (mkState (<[b':=vec_cells n xs]> (release p (blocks σ)))
                   (<[this:=mkVector (mkRawMemory (Ptr b' 0) n) (length xs)]> (vecs σ))
                   (raws σ) (leaked σ))
    | Some e =>
        Thrown e (with_cells p (vec_cells cap (reserve_run xs).1) σ)
    end.
Proof.
  intros Hvec Hlt Hfit Halloc.
  pose proof Hvec as (Hv & Hle & Hlim & Hb).
  unfold Vector.Reserve. unfold RawMemory.Capacity.
  mstep. destruct (Nat.leb_spec n cap) as [|_]; [lia|].
  rewrite local_spec by (done || lia). simpl.
  pose proof (fresh_raw_None σ) as Ha. pose proof (fresh_block_None σ) as Hb'.
  set (a := fresh (dom (raws σ))) in *. set (b' := fresh (dom (blocks σ))) in *.
  set (σ2 := set_raws _ _).
  unfold bind at 1. unfold on_exception at 1.
  unfold RawMemory.GetAddress.
  do 3 mstep.
  destruct p as [|b off].
  - destruct (is_vec_null _ _ _ _ Hvec) as [-> ->]. simpl.
    rewrite reserve_run_nil. simpl.
    assert (Htr : Vector.reserve_transfer Null 0 (Ptr b' 0) σ2 = Done tt σ2).
    { unfold Vector.reserve_transfer. pose proof movable_or_copyable as Hmc.
      destruct is_nothrow_move_constructible, is_copy_constructible,
        is_move_constructible; done. }
    rewrite (bind_done _ _ _ _ _ Htr).
    do 2 mstep. rewrite bind_ret_l.
    erewrite RawMemory_Swap_data_obj by lookup_tac.
    erewrite bind_done by (eapply destroy_obj_null; lookup_tac).
    unfold ret. f_equal. unfold σ2. simpl. state_eq_tac.
    unfold vec_cells. simpl. by rewrite Nat.sub_0_r.
  - destruct Hb as [-> Hb].
    assert (Hbb : b ≠ b') by congruence.
    unfold bind at 1.
    rewrite (reserve_transfer_spec σ2 b cap xs b' n) by (try done; try lia; lookup_tac).
    simpl. destruct (reserve_run xs).2 as [e|] eqn:Hrun.
    + erewrite destroy_obj_spec by lookup_tac.
      f_equal. unfold σ2. simpl. rewrite live_values_replicate_Raw.
      state_eq_tac.
    + do 2 mstep.
      assert (Hvc : vec_cells cap (reserve_run xs).1
                    = [] ++ (Live <$> (reserve_run xs).1) ++ replicate (cap - length xs) Raw).
      { unfold vec_cells. by rewrite reserve_run_length. }
      erewrite (bind_done (destroy_n _ _)).
      2:{ rewrite <-(reserve_run_length xs).
          eapply (destroy_n_spec _ _ b 0 []); [|done].
          simpl. rewrite lookup_insert_ne by done. rewrite lookup_insert_eq.
          exact (f_equal Some Hvc). }
      erewrite RawMemory_Swap_data_obj by lookup_tac.
      erewrite bind_done by (eapply destroy_obj_spec; lookup_tac).
      unfold ret. f_equal. unfold σ2. simpl.
      rewrite live_values_app, !live_values_replicate_Raw.
      state_eq_tac.
Qed.

End ReserveSpec.

(** ** A request whose byte size does not fit [size_t] *)

Section Wrapping.
Context `{Platform} {T : Type} `{Element T}.
Implicit Types (σ : state T) (xs : list T).

(** Moving into a block that is too short runs past its end. *)
Lemma uninitialized_move_n_overrun xs : ∀ σ bs s ps qs bd d pd r,
  bs ≠ bd → (∀ x, (elem_move x).2 = None) →
  blocks σ !! bs = Some (ps ++ (Live <$> xs) ++ qs) → s = length ps →
  blocks σ !! bd = Some (pd ++ replicate r Raw) → d = length pd →
  r < length xs →
  uninitialized_move_n (Ptr bs s) (length xs) (Ptr bd d) σ = Undef.
Proof.
  induction xs as [|x xs IH]; intros σ bs s ps qs bd d pd r Hne Hnt Hs -> Hd -> Hr;
    simpl in *; [lia|].
  unfold bind at 1. rewrite (construct_move_spec _ _ _ _ _ _ _ Hs eq_refl). simpl.
  rewrite Hnt.
  set (σ0 := set_blocks (insert bs _) σ).
  assert (Hd0 : blocks σ0 !! bd = Some (pd ++ replicate r Raw)).
  { unfold σ0. by rewrite blocks_set_blocks_insert_ne. }
  destruct r as [|r].
  - unfold placement_new, bind, read_cell. rewrite Hd0. simpl.
    rewrite app_nil_r, lookup_ge_None_2; done.
  - rewrite (placement_new_app _ _ _ _ x _ Hd0 eq_refl).
    set (σ1 := set_blocks _ σ0).
    assert (Hs1 : blocks σ1 !! bs
                  = Some ((ps ++ [Live (elem_move x).1]) ++ (Live <$> xs) ++ qs)).
    { unfold σ1, σ0. simpl. rewrite lookup_insert_ne by done.
      rewrite lookup_insert_eq. by rewrite <-app_assoc. }
    assert (Hd1 : blocks σ1 !! bd = Some ((pd ++ [Live x]) ++ replicate r Raw)).
    { unfold σ1. rewrite blocks_set_blocks_insert. by rewrite <-app_assoc. }
    specialize (IH σ1 bs (length ps + 1) (ps ++ [Live (elem_move x).1]) qs bd
                  (length pd + 1) (pd ++ [Live x]) r Hne Hnt Hs1).
    rewrite !length_app in IH. specialize (IH eq_refl Hd1 eq_refl ltac:(lia)).
    simpl in IH. unfold on_exception. by rewrite IH.
Qed.

(** Entering the scope of a local buffer whatever the request: the block
    has room for the objects that fit the bytes asked for. *)
Lemma local_any {A} σ n (body : raw_ref → M T A) :
  n ≠ 0 → (N.of_nat (wrap (n * sizeof_T)) <= heap_limit)%N →
  RawMemory.local n body σ
  = let a := fresh (dom (raws σ)) in
    let b' := fresh (dom (blocks σ)) in
    (r <- on_exception (body (RawObj a)) (RawMemory.destroy (RawObj a)) ;;
     RawMemory.destroy (RawObj a) ;; ret r)
      (set_raws (insert a (mkRawMemory (Ptr b' 0) n))
         (set_blocks (insert b' (replicate (wrap (n * sizeof_T) / sizeof_T) Raw)) σ)).
Proof.
  intros Hn Hlim. unfold RawMemory.local.
  unfold bind at 1. unfold fresh_raw.
  unfold RawMemory.ctor. unfold bind at 1. unfold bind at 1.
  unfold RawMemory.Allocate, operator_new.
  destruct (Nat.eqb_spec n 0) as [|_]; [done|]. simpl.
  destruct (N.leb_spec (N.of_nat (wrap (n * sizeof_T))) heap_limit) as [_|]; [done|lia].
Qed.

(** [Reserve] with a request whose bytes wrap to less than the elements
    need: the transfer writes past the end of the new block. *)
Lemma Reserve_overrun σ this b cap xs n :
  is_vec σ this (Ptr b 0) cap xs → cap < n →
  is_nothrow_move_constructible = true →
  (N.of_nat (wrap (n * sizeof_T)) <= heap_limit)%N →
  wrap (n * sizeof_T) / sizeof_T < length xs →
  Vector.Reserve this n σ = Undef.
Proof.
  intros Hvec Hlt Hnt Halloc Hshort.
  pose proof Hvec as (Hv & Hle & Hlim & _ & Hb).
  unfold Vector.Reserve. unfold RawMemory.Capacity.
  mstep. destruct (Nat.leb_spec n cap) as [|_]; [lia|].
  rewrite local_any by (done || lia). simpl.
  pose proof (fresh_raw_None σ) as Ha. pose proof (fresh_block_None σ) as Hb'.
  set (a := fresh (dom (raws σ))) in *. set (b' := fresh (dom (blocks σ))) in *.
  set (σ2 := set_raws _ _).
  unfold bind at 1. unfold on_exception at 1.
  unfold RawMemory.GetAddress.
  do 3 mstep.
  assert (Hbb : b ≠ b') by congruence.
  unfold bind at 1. unfold Vector.reserve_transfer. rewrite Hnt.
  erewrite (uninitialized_move_n_overrun xs σ2 b 0 [] _ b' 0 []); try done.
  - by apply nothrow_move_sound.
  - unfold σ2. simpl. rewrite lookup_insert_ne by done. exact Hb.
  - unfold σ2. simpl. by rewrite lookup_insert_eq.
Qed.

End Wrapping.


(** ** Buffers of vectors *)

Section Buffers.
Context `{Platform} {T : Type} `{Element T}.
Implicit Types (σ : state T) (xs : list T).

Lemma assert_ok σ (c : bool) : c = true → assert c σ = Done tt σ.
Proof. intros ->. unfold assert. by destruct NDEBUG. Qed.

Lemma plus_data σ this x off :
  vecs σ !! this = Some x → off ≤ capacity_ (data_ x) →
  RawMemory.plus (DataOf this) off σ = Done (ptr_add (buffer_ (data_ x)) off) σ.
Proof.
  intros Hv Hle. unfold RawMemory.plus. mstep.
  rewrite (bind_done _ _ _ _ _ (assert_ok _ _ (proj2 (Nat.leb_le _ _) Hle))).
  by mstep.
Qed.

Lemma plus_obj σ a m off :
  raws σ !! a = Some m → off ≤ capacity_ m →
  RawMemory.plus (RawObj a) off σ = Done (ptr_add (buffer_ m) off) σ.
Proof.
  intros Hv Hle. unfold RawMemory.plus. mstep.
  rewrite (bind_done _ _ _ _ _ (assert_ok _ _ (proj2 (Nat.leb_le _ _) Hle))).
  by mstep.
Qed.

Lemma at_data σ this x i :
  vecs σ !! this = Some x → i < capacity_ (data_ x) →
  RawMemory.at_ (DataOf this) i σ = Done (ptr_add (buffer_ (data_ x)) i) σ.
Proof.
  intros Hv Hlt. unfold RawMemory.at_. mstep.
  rewrite (bind_done _ _ _ _ _ (assert_ok _ _ (proj2 (Nat.ltb_lt _ _) Hlt))).
  by mstep.
Qed.

(** The live elements of a buffer are destroyed. *)
Lemma destroy_n_vec σ p cap xs :
  buffer_holds σ p cap xs → length xs ≤ cap →
  destroy_n p (length xs) σ = Done tt (with_cells p (replicate cap Raw) σ).
Proof.
  intros Hb Hle. destruct p as [|b off]; simpl in Hb.
  - subst cap. destruct xs; [done | simpl in Hle; lia].
  - destruct Hb as [-> Hb].
    rewrite (destroy_n_spec xs σ b 0 [] (replicate (cap - length xs) Raw) Hb eq_refl).
    simpl. by rewrite <-replicate_split.
Qed.

(** A local whose buffer holds no live object goes out of scope. *)
Lemma destroy_obj_raw σ a p cap :
  raws σ !! a = Some (mkRawMemory p cap) →
  buffer_holds σ p cap [] →
  RawMemory.destroy (RawObj a) σ
  = Done tt (mkState (release p (blocks σ)) (vecs σ) (delete a (raws σ)) (leaked σ)).
Proof.
  intros Ha Hb. destruct p as [|b off]; simpl in Hb.
  - rewrite (destroy_obj_null _ _ _ Ha). done.
  - destruct Hb as [-> Hb]. rewrite (destroy_obj_spec _ _ _ _ _ Ha Hb).
    unfold vec_cells. simpl. rewrite live_values_replicate_Raw. by rewrite app_nil_r.
Qed.

Lemma relocate_run_length xs : length (relocate_run xs).1 = length xs.
Proof. unfold relocate_run. case_match; simpl; by rewrite ?move_run_length. Qed.

Lemma relocate_spec σ p cap xs b' post :
  buffer_holds σ p cap xs → length xs ≤ cap → p ≠ Ptr b' 0 →
  blocks σ !! b' = Some (replicate (length xs) Raw ++ post) →
  Vector.relocate p (length xs) (Ptr b' 0) σ
  = let σ1 := with_cells p (vec_cells cap (relocate_run xs).1) σ in
    match (relocate_run xs).2 with
    | None => Done tt (set_blocks (insert b' ((Live <$> xs) ++ post)) σ1)
    | Some e => Thrown e σ1
    end.
Proof.
  intros Hb Hle Hne Hb'. unfold Vector.relocate, relocate_run.
  destruct p as [|b off]; simpl in Hb.
  - subst cap. destruct xs as [|x xs]; [|simpl in Hle; lia].
    simpl. case_match; simpl; unfold ret; by rewrite set_blocks_insert_id.
  - destruct Hb as [-> Hb]. assert (Hbb : b ≠ b') by congruence.
    case_match.
    + rewrite (uninitialized_move_n_spec xs σ b 0 [] _ b' 0 [] _ Hbb Hb eq_refl Hb' eq_refl).
      simpl. unfold vec_cells. by rewrite move_run_length.
    + rewrite (uninitialized_copy_n_spec xs σ b 0 [] _ b' 0 [] _ Hbb Hb eq_refl Hb' eq_refl).
      simpl. by rewrite (set_blocks_insert_id σ b).
Qed.

Lemma grown_spec σ this p cap xs :
  is_vec σ this p cap xs →
  grown cap = 1 `max` (2 * cap) ∧ fits (grown cap * sizeof_T).
Proof.
  intros (_ & _ & Hlim & _). unfold grown, size_double.
  pose proof heap_limit_bound as Hhl. pose proof sizeof_pos as Hsz.
  pose proof sizeof_fits as Hsf.
  destruct (Nat.eqb_spec cap 0) as [->|Hne].
  - split; [done|]. by rewrite Nat.mul_1_l.
  - assert (Hcs : cap ≤ cap * sizeof_T) by nia.
    assert (Hfit : fits (cap * 2)) by (unfold fits; lia).
    rewrite (wrap_fits _ Hfit). split; [lia|]. unfold fits.
    replace (cap * 2 * sizeof_T) with (2 * (cap * sizeof_T)) by lia. lia.
Qed.

Lemma size_inc_vec σ this p cap xs :
  is_vec σ this p cap xs → size_inc (length xs) = S (length xs).
Proof.
  intros (_ & Hle & Hlim & _). unfold size_inc.
  pose proof heap_limit_bound as Hhl. pose proof sizeof_pos as Hsz.
  assert (Hcs : cap ≤ cap * sizeof_T) by nia.
  rewrite wrap_fits; [lia|]. unfold fits, SIZE_MAX in *. lia.
Qed.

End Buffers.

(** ** [EmplaceBack] *)

Section EmplaceBackSpec.
Context `{Platform} {T : Type} `{Element T}.
Implicit Types (σ : state T) (xs : list T).

Lemma EmplaceBack_full {A} (make : A → A * (exn + T)) σ this p cap xs args :
  is_vec σ this p cap xs → length xs = cap →
  Vector.EmplaceBack make this args σ
  = let c' := 1 `max` (2 * cap) in
    let b' := fresh (dom (blocks σ)) in
    if (N.of_nat (c' * sizeof_T) <=? heap_limit)%N then
      match (make args).2 with
      | inl e => Thrown e σ
      | inr v =>
          match (relocate_run xs).2 with
          | Some e => Thrown e (with_cells p (vec_cells cap (relocate_run xs).1) σ)
          | None =>
              Done (Ptr b' cap)
                (mkState (<[b':=vec_cells c' (xs ++ [v])]> (release p (blocks σ)))
                   (<[this:=mkVector (mkRawMemory (Ptr b' 0) c') (S cap)]> (vecs σ))
                   (raws σ) (leaked σ))
          end
      end
    else Thrown bad_alloc σ.
Proof.
  intros Hvec Hfull.
  pose proof Hvec as (Hv & Hle & Hlim & Hb).
  destruct (grown_spec _ _ _ _ _ Hvec) as [Hg Hgfit].
  pose proof (size_inc_vec _ _ _ _ _ Hvec) as Hinc.
  cbv zeta. set (c' := 1 `max` (2 * cap)) in *.
  assert (Hpos : 0 < c') by (unfold c'; lia).
  assert (Hcc : cap < c') by (unfold c'; lia).
  clearbody c'.
  unfold Vector.EmplaceBack, Vector.Capacity, RawMemory.Capacity.
  do 2 mstep. rewrite Hfull, Nat.eqb_refl.
  rewrite bind_assoc. mstep. fold (grown (length xs)). rewrite Hfull, Hg.
  rewrite Hg in Hgfit.
  destruct (N.leb_spec (N.of_nat (c' * sizeof_T)) heap_limit) as [Hok|Hbad].
  2:{ by rewrite (bind_thrown _ _ _ _ _ (local_bad_alloc σ c' _ Hpos Hgfit Hbad)). }
  unfold bind at 1. rewrite local_spec by done. simpl.
  pose proof (fresh_raw_None σ) as Ha. pose proof (fresh_block_None σ) as Hb'.
  set (a := fresh (dom (raws σ))) in *. set (b' := fresh (dom (blocks σ))) in *.
  set (σ2 := set_raws _ _).
  unfold bind at 1. unfold on_exception at 1.
  mstep. erewrite bind_done by (eapply plus_obj; [lookup_tac | simpl; lia]). simpl.
  unfold Vector.construct_from at 1.
  destruct (make args).2 as [e|v].
  { unfold bind at 1, throw at 1.
    erewrite destroy_obj_raw; [| lookup_tac | ].
    2:{ split; [done|]. simpl. rewrite lookup_insert_eq. unfold vec_cells. simpl.
        by rewrite Nat.sub_0_r. }
    f_equal. unfold σ2. state_eq_tac. }
  rewrite bind_assoc.
  assert (Hnew : blocks σ2 !! b'
                 = Some (replicate (length xs) Raw ++ Raw :: replicate (c' - cap - 1) Raw)).
  { unfold σ2. simpl. rewrite lookup_insert_eq. f_equal.
    rewrite (replicate_split c' (length xs)) by lia. f_equal.
    replace (c' - length xs) with (S (c' - cap - 1)) by lia. done. }
  erewrite bind_done.
  2:{ eapply placement_new_app; [exact Hnew|]. by rewrite length_replicate. }
  rewrite bind_ret_l.
  set (σ3 := set_blocks _ σ2).
  unfold bind at 1. unfold on_exception at 1.
  do 3 mstep.
  assert (Hp : ∀ off, p ≠ Ptr b' off).
  { intros off ->. destruct Hb as [_ Hb]. congruence. }
  assert (Hb3 : buffer_holds σ3 p cap xs).
  { destruct p as [|b off]; [exact Hb|]. destruct Hb as [-> Hb].
    assert (b ≠ b') by congruence.
    split; [reflexivity|]. unfold σ3, σ2. simpl.
    by rewrite !lookup_insert_ne by congruence. }
  erewrite (relocate_spec σ3 p cap xs b'); [| done | lia | done | ].
  2:{ unfold σ3. simpl. by rewrite lookup_insert_eq. }
  cbv zeta.
  destruct (relocate_run xs).2 as [e|] eqn:Hrun.
  - mstep. erewrite bind_done by (eapply plus_obj; [lookup_tac | simpl; lia]). simpl.
    erewrite destroy_at_app.
    2:{ rewrite blocks_with_cells_ne by done. unfold σ3. simpl.
        by rewrite lookup_insert_eq. }
    2:{ by rewrite length_replicate. }
    erewrite destroy_obj_raw; [| lookup_tac | ].
    2:{ split; [done|]. simpl. rewrite lookup_insert_eq. unfold vec_cells. simpl.
        rewrite Nat.sub_0_r. rewrite (replicate_split c' (length xs)) by lia.
        do 2 f_equal. replace (c' - length xs) with (S (c' - cap - 1)) by lia. done. }
    f_equal. unfold σ3, σ2. destruct p; state_eq_tac.
  - do 2 mstep.
    set (σ4 := set_blocks _ (with_cells _ _ σ3)).
    assert (Hb4 : buffer_holds σ4 p cap (relocate_run xs).1).
    { destruct p as [|b off]; [exact Hb|]. destruct Hb as [-> Hb].
      assert (b ≠ b') by congruence.
      split; [reflexivity|]. unfold σ4. simpl.
      rewrite lookup_insert_ne by congruence. by rewrite lookup_insert_eq. }
    erewrite (bind_done (destroy_n _ _)).
    2:{ rewrite <-(relocate_run_length xs).
        eapply destroy_n_vec; [exact Hb4 | rewrite relocate_run_length; lia]. }
    erewrite RawMemory_Swap_data_obj by (unfold σ4; lookup_tac).
    erewrite bind_done.
    2:{ eapply destroy_obj_raw; [unfold σ4; lookup_tac | ].
        destruct p as [|b off]; [exact Hb|]. destruct Hb as [-> Hb].
        split; [reflexivity|]. simpl. rewrite lookup_insert_eq.
        unfold vec_cells. simpl. by rewrite Nat.sub_0_r. }
    unfold ret at 1. cbv beta iota.
    do 2 mstep. rewrite Hinc.
    mstep.
    erewrite at_data by (lookup_tac || (simpl; rewrite size_sub_le by lia; lia)).
    simpl. rewrite size_sub_le by lia. rewrite Hfull.
    replace (S cap - 1) with cap by lia.
    f_equal. unfold σ4, σ3, σ2.
    assert (Hcells : (Live <$> xs) ++ Live v :: replicate (c' - cap - 1) Raw
                     = vec_cells c' (xs ++ [v])).
    { unfold vec_cells. rewrite fmap_app, length_app, <-app_assoc. simpl.
      do 3 f_equal. lia. }
    destruct p; state_eq_tac.
Qed.
End EmplaceBackSpec.

Section EmplaceBackRoom.
Context `{Platform} {T : Type} `{Element T}.
Implicit Types (σ : state T) (xs : list T).

Lemma vec_cells_snoc cap xs v :
  length xs < cap →
  vec_cells cap xs = (Live <$> xs) ++ Raw :: replicate (cap - length xs - 1) Raw
  ∧ vec_cells cap (xs ++ [v]) = (Live <$> xs) ++ Live v :: replicate (cap - length xs - 1) Raw.
Proof.
  intros Hlt. unfold vec_cells. split.
  - destruct (cap - length xs) as [|k] eqn:Hk; [lia|]. simpl. by rewrite Nat.sub_0_r.
  - rewrite fmap_app, length_app, <-app_assoc. simpl. do 3 f_equal. lia.
Qed.

Lemma EmplaceBack_room {A} (make : A → A * (exn + T)) σ this b cap xs args :
  is_vec σ this (Ptr b 0) cap xs → length xs < cap →
  Vector.EmplaceBack make this args σ
  = match (make args).2 with
    | inl e => Thrown e σ
    | inr v =>
        Done (Ptr b (length xs))
          (mkState (<[b:=vec_cells cap (xs ++ [v])]> (blocks σ))
             (<[this:=mkVector (mkRawMemory (Ptr b 0) cap) (S (length xs))]> (vecs σ))
             (raws σ) (leaked σ))
    end.
Proof.
  intros Hvec Hlt.
  pose proof Hvec as (Hv & Hle & Hlim & _ & Hb).
  pose proof (size_inc_vec _ _ _ _ _ Hvec) as Hinc.
  assert (Hc1 : vec_cells cap xs
                = (Live <$> xs) ++ Raw :: replicate (cap - length xs - 1) Raw).
  { unfold vec_cells.
    destruct (cap - length xs) as [|k] eqn:Hk; [lia|]. simpl. by rewrite Nat.sub_0_r. }
  unfold Vector.EmplaceBack, Vector.Capacity, RawMemory.Capacity.
  do 2 mstep. destruct (Nat.eqb_spec (length xs) cap) as [|_]; [lia|].
  rewrite !bind_assoc. mstep. rewrite !bind_assoc.
  erewrite bind_done by (eapply plus_data; [lookup_tac | simpl; lia]). simpl.
  unfold Vector.construct_from at 1.
  destruct (make args).2 as [e|v]; [done|].
  rewrite !bind_assoc. rewrite Hc1 in Hb.
  erewrite bind_done.
  2:{ eapply placement_new_app; [exact Hb|]. by rewrite length_fmap. }
  rewrite !bind_ret_l.
  do 2 mstep. rewrite Hinc. mstep.
  erewrite at_data by (lookup_tac || (simpl; rewrite size_sub_le by lia; lia)).
  simpl. rewrite size_sub_le by lia.
  replace (S (length xs) - 1) with (length xs) by lia.
  f_equal. destruct (vec_cells_snoc cap xs v Hlt) as [_ ->]. state_eq_tac.
Qed.
End EmplaceBackRoom.

(** ** [Erase] *)

Section EraseSpec.
Context `{Platform} {T : Type} `{Element T}.
Implicit Types (σ : state T) (xs : list T).

Lemma ptr_diff_same σ b o1 o2 :
  o2 ≤ o1 → ptr_diff (Ptr b o1) (Ptr b o2) σ = Done (o1 - o2) σ.
Proof.
  intros Hle. unfold ptr_diff. rewrite decide_True by done.
  by destruct (Nat.leb_spec o2 o1) as [_|]; [|lia].
Qed.

Lemma position_ok b i n :
  i < n → ptr_le (Ptr b 0) (Ptr b i) && ptr_lt (Ptr b i) (Ptr b n) = true.
Proof.
  intros Hlt. unfold ptr_le, ptr_lt. rewrite !bool_decide_eq_true_2 by done. simpl.
  by destruct (Nat.ltb_spec i n) as [_|]; [|lia].
Qed.

Lemma Erase_eval σ this b cap l1 d l2 :
  is_vec σ this (Ptr b 0) cap (l1 ++ d :: l2) →
  Vector.Erase this (Ptr b (length l1)) σ
  = match (shift_run d l2).2 with
    | None =>
        Done (Ptr b (length l1))
          (mkState (<[b:=vec_cells cap (l1 ++ l2)]> (blocks σ))
             (<[this:=mkVector (mkRawMemory (Ptr b 0) cap) (length (l1 ++ l2))]> (vecs σ))
             (raws σ) (leaked σ))
    | Some e =>
        Thrown e (set_blocks (insert b (vec_cells cap (l1 ++ (shift_run d l2).1))) σ)
    end.
Proof.
  intros Hvec. pose proof Hvec as (Hv & Hle & Hlim & _ & Hb).
  rewrite length_app in Hle, Hv. simpl in Hle, Hv.
  unfold Vector.Erase, Vector.begin, Vector.end_, RawMemory.GetAddress.
  do 3 mstep. rewrite bind_ret_l.
  erewrite bind_done by (apply assert_ok, position_ok; lia).
  do 2 mstep. rewrite bind_ret_l.
  unfold std_move. rewrite !bind_assoc.
  erewrite bind_done by (apply ptr_diff_same; lia).
  replace (length l1 + S (length l2) - (length l1 + 1)) with (length l2) by lia.
  assert (Hcells : ∀ ys, vec_cells cap (l1 ++ ys)
                   = (Live <$> l1) ++ (Live <$> ys)
                     ++ replicate (cap - length (l1 ++ ys)) Raw).
  { intros ys. unfold vec_cells. by rewrite fmap_app, <-app_assoc. }
  rewrite Hcells in Hb.
  unfold bind at 1.
  rewrite (move_n_assign_shift l2 d σ b (length l1) _ _ Hb) by (by rewrite length_fmap).
  cbv zeta.
  pose proof (shift_run_length l2 d) as Hlen.
  destruct (shift_run d l2).2 as [e|] eqn:Hrun.
  - f_equal. f_equal. rewrite Hcells. rewrite !length_app, Hlen. done.
  - destruct (shift_run_ok l2 d Hrun) as [r Hr]. rewrite Hr.
    do 3 mstep.
    rewrite size_sub_le by lia.
    erewrite bind_done by (eapply plus_data; [lookup_tac | simpl; lia]). simpl.
    erewrite bind_done.
    2:{ eapply (destroy_at_app _ b _ ((Live <$> l1) ++ (Live <$> l2)) r).
        - simpl. rewrite lookup_insert_eq. rewrite fmap_app, <-!app_assoc. done.
        - rewrite length_app, !length_fmap. lia. }
    unfold ret. f_equal.
    assert (Hfin : ((Live <$> l1) ++ (Live <$> l2))
                   ++ Raw :: replicate (cap - length (l1 ++ d :: l2)) Raw
                   = vec_cells cap (l1 ++ l2)).
    { unfold vec_cells. rewrite fmap_app. f_equal. rewrite !length_app. simpl.
      replace (cap - (length l1 + length l2))
        with (S (cap - (length l1 + S (length l2)))) by lia. done. }
    rewrite Hfin.
    replace (length l1 + S (length l2) - 1) with (length (l1 ++ l2))
      by (rewrite length_app; lia).
    state_eq_tac.
Qed.
End EraseSpec.

(** ** Copy assignment *)

Section CopyAssignSpec.
Context `{Platform} {T : Type} `{Element T}.
Implicit Types (σ : state T) (xs ys : list T).

Lemma with_cells_id σ p cap xs :
  buffer_holds σ p cap xs → with_cells p (vec_cells cap xs) σ = σ.
Proof.
  destruct p as [|b off]; [done|]. intros [_ Hb]. simpl.
  by apply set_blocks_insert_id.
Qed.

Lemma buffer_holds_null_nil σ cap xs :
  buffer_holds σ Null cap xs → length xs ≤ cap → xs = [] ∧ cap = 0.
Proof.
  simpl. intros -> Hle. split; [|done]. destruct xs; [done | simpl in Hle; lia].
Qed.

Lemma vec_cells_split cap xs c :
  vec_cells cap xs
  = (Live <$> take c xs) ++ (Live <$> drop c xs) ++ replicate (cap - length xs) Raw.
Proof.
  unfold vec_cells. rewrite app_assoc, <-fmap_app. by rewrite take_drop.
Qed.

Lemma std_copy_vec σ pr capr ys p cap xs c :
  buffer_holds σ pr capr ys → length ys ≤ capr →
  buffer_holds σ p cap xs → length xs ≤ cap →
  c ≤ length xs → c ≤ length ys → apart pr p →
  std_copy pr (ptr_add pr c) p σ
  = let r := copy_assign_run (take c xs) (take c ys) in
    let σ1 := with_cells p (vec_cells cap (r.1 ++ drop c xs)) σ in
    match r.2 with
    | None => Done tt σ1
    | Some e => Thrown e σ1
    end.
Proof.
  intros Hbr Hler Hb Hle Hcx Hcy Hap. cbv zeta.
  destruct pr as [|br offr].
  { destruct (buffer_holds_null_nil _ _ _ Hbr Hler) as [-> _].
    simpl in Hcy. assert (c = 0) as -> by lia.
    rewrite take_0, drop_0. simpl. by rewrite (with_cells_id _ _ _ _ Hb). }
  destruct Hbr as [-> Hbr].
  destruct p as [|b off].
  { destruct (buffer_holds_null_nil _ _ _ Hb Hle) as [-> _].
    simpl in Hcx. assert (c = 0) as -> by lia.
    unfold std_copy. simpl. by rewrite (bind_done _ _ _ _ _ (ptr_diff_same _ _ _ _ (le_n 0))). }
  destruct Hb as [-> Hb].
  assert (Hne : br ≠ b) by (intros ->; by eapply Hap).
  unfold std_copy. simpl.
  rewrite (bind_done _ _ _ _ _ (ptr_diff_same _ _ _ _ (Nat.le_0_l c))).
  rewrite Nat.sub_0_r.
  rewrite (vec_cells_split capr ys c) in Hbr. rewrite (vec_cells_split cap xs c) in Hb.
  assert (Hlc : length (take c ys) = c) by (rewrite length_take; lia).
  assert (Hlx : length (take c xs) = c) by (rewrite length_take; lia).
  rewrite <-Hlc at 1.
  rewrite (copy_n_assign_spec (take c ys) (take c xs) σ br 0 [] _ b 0 [] _ Hne
             ltac:(lia) Hbr eq_refl Hb eq_refl).
  cbv zeta. simpl.
  assert (Hcells : vec_cells cap ((copy_assign_run (take c xs) (take c ys)).1 ++ drop c xs)
          = (Live <$> (copy_assign_run (take c xs) (take c ys)).1)
            ++ (Live <$> drop c xs) ++ replicate (cap - length xs) Raw).
  { unfold vec_cells. rewrite fmap_app, <-app_assoc. do 3 f_equal.
    rewrite length_app, copy_assign_run_length, length_take, length_drop. lia. }
  rewrite Hcells. done.
Qed.

Lemma copy_tail_vec σ pr capr ys p cap xs :
  buffer_holds σ pr capr ys → length ys ≤ capr →
  buffer_holds σ p cap xs → length xs ≤ length ys → length ys ≤ cap → apart pr p →
  uninitialized_copy_n (ptr_add pr (length xs)) (length ys - length xs)
    (ptr_add p (length xs)) σ
  = match copy_run (drop (length xs) ys) with
    | None => Done tt (with_cells p (vec_cells cap (xs ++ drop (length xs) ys)) σ)
    | Some e => Thrown e σ
    end.
Proof.
  intros Hbr Hler Hb Hxy Hle Hap.
  destruct pr as [|br offr].
  { destruct (buffer_holds_null_nil _ _ _ Hbr Hler) as [-> _].
    simpl in Hxy. destruct xs; [|simpl in Hxy; lia]. simpl.
    by rewrite (with_cells_id _ _ _ _ Hb). }
  destruct Hbr as [-> Hbr].
  destruct p as [|b off].
  { simpl in Hb. subst cap. destruct ys; [|simpl in Hle; lia].
    by destruct xs; [|simpl in Hxy; lia]. }
  destruct Hb as [-> Hb].
  assert (Hne : br ≠ b) by (intros ->; by eapply Hap).
  simpl.
  rewrite (vec_cells_split capr ys (length xs)) in Hbr.
  assert (Hcell : vec_cells cap xs
                  = (Live <$> xs) ++ replicate (length (drop (length xs) ys)) Raw
                    ++ replicate (cap - length ys) Raw).
  { unfold vec_cells. f_equal. rewrite <-replicate_add. f_equal.
    rewrite length_drop. lia. }
  rewrite Hcell in Hb.
  replace (length ys - length xs) with (length (drop (length xs) ys))
    by (by rewrite length_drop).
  erewrite (uninitialized_copy_n_spec (drop (length xs) ys) σ br (length xs)
             (Live <$> take (length xs) ys) _ b (length xs) (Live <$> xs) _ Hne Hbr).
  2:{ rewrite length_fmap, length_take. lia. }
  2:{ exact Hb. }
  2:{ by rewrite length_fmap. }
  destruct (copy_run _); [done|]. do 2 f_equal.
  unfold vec_cells. rewrite fmap_app, <-app_assoc. do 3 f_equal.
  rewrite length_app, length_drop. f_equal. lia.
Qed.

Lemma destroy_tail_vec σ p cap xs m :
  buffer_holds σ p cap xs → length xs ≤ cap → m ≤ length xs →
  destroy_n (ptr_add p m) (length xs - m) σ
  = Done tt (with_cells p (vec_cells cap (take m xs)) σ).
Proof.
  intros Hb Hle Hm.
  destruct p as [|b off].
  { destruct (buffer_holds_null_nil _ _ _ Hb Hle) as [-> _]. simpl in Hm.
    by assert (m = 0) as -> by lia. }
  destruct Hb as [-> Hb]. simpl.
  rewrite (vec_cells_split cap xs m) in Hb.
  replace (length xs - m) with (length (drop m xs)) by (by rewrite length_drop).
  rewrite (destroy_n_spec (drop m xs) σ b m (Live <$> take m xs) _ Hb).
  2:{ rewrite length_fmap, length_take. lia. }
  do 2 f_equal. unfold vec_cells. do 2 f_equal. rewrite <-replicate_add. f_equal.
  rewrite length_take, length_drop. lia.
Qed.

Lemma with_cells_twice σ p cs cs' :
  with_cells p cs' (with_cells p cs σ) = with_cells p cs' σ.
Proof. destruct p; [done|]. simpl. apply set_blocks_insert_insert. Qed.

Lemma buffer_holds_with_cells σ p cap xs cs :
  (∀ b off, p = Ptr b off → off = 0) →
  cs = vec_cells cap xs → (p = Null → cap = 0) →
  buffer_holds (with_cells p cs σ) p cap xs.
Proof.
  intros Hoff -> Hnull. destruct p as [|b off]; simpl.
  - by apply Hnull.
  - split; [by eapply Hoff|]. by rewrite lookup_insert_eq.
Qed.

Lemma buffer_holds_apart σ pr capr ys p cs :
  buffer_holds σ pr capr ys → apart pr p →
  buffer_holds (with_cells p cs σ) pr capr ys.
Proof.
  intros Hbr Hap. destruct pr as [|br offr]; [done|].
  destruct Hbr as [-> Hbr]. split; [done|].
  rewrite blocks_with_cells_ne; [done|]. intros off ->. by eapply Hap.
Qed.

Lemma CopyAssignNoRealloc_eval σ this p cap xs rhs pr capr ys :
  this ≠ rhs → is_vec σ this p cap xs → is_vec σ rhs pr capr ys →
  apart pr p → length ys ≤ cap →
  Vector.CopyAssignNoRealloc this rhs σ
  = let c := length xs `min` length ys in
    let r := copy_assign_run (take c xs) (take c ys) in
    let done := Done tt (set_vecs (insert this (mkVector (mkRawMemory p cap) (length ys)))
                           (with_cells p (vec_cells cap ys) σ)) in
    match r.2 with
    | Some e => Thrown e (with_cells p (vec_cells cap (r.1 ++ drop c xs)) σ)
    | None =>
        if length ys <? length xs then done
        else
          match copy_run (drop (length xs) ys) with
          | Some e => Thrown e (with_cells p (vec_cells cap (take (length xs) ys)) σ)
          | None => done
          end
    end.
Proof.
  intros Hne Hvec Hvecr Hap Hm.
  pose proof Hvec as (Hv & Hle & Hlim & Hb).
  pose proof Hvecr as (Hvr & Hler & Hlimr & Hbr).
  cbv zeta. unfold Vector.CopyAssignNoRealloc, RawMemory.GetAddress.
  do 3 mstep.
  erewrite bind_done by (eapply plus_data; [lookup_tac | simpl; lia]). simpl.
  mstep.
  set (c := length xs `min` length ys).
  unfold bind at 1.
  rewrite (std_copy_vec σ pr capr ys p cap xs c) by (done || lia).
  cbv zeta.
  pose proof (copy_assign_run_length (take c xs) (take c ys)) as Hrl.
  rewrite length_take in Hrl.
  destruct (copy_assign_run (take c xs) (take c ys)).2 as [e|] eqn:Hrun; [done|].
  rewrite (copy_assign_run_ok (take c xs) (take c ys)) in * by
    (done || (rewrite !length_take; lia)).
  set (σ1 := with_cells p _ σ).
  assert (Hoff : ∀ b off, p = Ptr b off → off = 0).
  { intros b off ->. by destruct Hb. }
  assert (Hnull : p = Null → cap = 0).
  { intros ->. exact Hb. }
  assert (Hb1 : buffer_holds σ1 p cap (take c ys ++ drop c xs))
    by (by apply buffer_holds_with_cells).
  assert (Hbr1 : buffer_holds σ1 pr capr ys) by (by apply buffer_holds_apart).
  assert (Hl1 : length (take c ys ++ drop c xs) = length xs).
  { rewrite length_app, length_take, length_drop. lia. }
  assert (Hv1 : vecs σ1 !! this = vecs σ !! this) by (unfold σ1; by rewrite vecs_with_cells).
  assert (Hvr1 : vecs σ1 !! rhs = vecs σ !! rhs) by (unfold σ1; by rewrite vecs_with_cells).
  rewrite Hv in Hv1. rewrite Hvr in Hvr1.
  do 2 mstep.
  destruct (Nat.ltb_spec (length ys) (length xs)) as [Hlt|Hge].
  - mstep. rewrite size_sub_le by lia.
    assert (Hc : c = length ys) by lia.
    rewrite <-Hl1.
    rewrite ?bind_assoc.
    erewrite bind_done by (eapply destroy_tail_vec; [exact Hb1 | lia | lia]).
    mstep.
    erewrite set_size_eq by lookup_tac. simpl.
    f_equal. unfold σ1. rewrite with_cells_twice.
    rewrite Hc, take_app_length'; [|rewrite length_take; lia].
    rewrite take_ge by lia. done.
  - do 2 mstep. rewrite size_sub_le by lia.
    assert (Hc : c = length xs) by lia.
    assert (Hxs' : take c ys ++ drop c xs = take (length xs) ys).
    { rewrite Hc, drop_all. by rewrite app_nil_r. }
    rewrite Hxs' in Hb1, Hl1.
    assert (Hcp : uninitialized_copy_n (ptr_add pr (length xs)) (length ys - length xs)
                    (ptr_add p (length xs)) σ1
                  = match copy_run (drop (length xs) ys) with
                    | None => Done tt (with_cells p (vec_cells cap ys) σ1)
                    | Some e => Thrown e σ1
                    end).
    { rewrite <-Hl1 at 1 2 3.
      rewrite (copy_tail_vec σ1 pr capr ys p cap (take (length xs) ys))
        by (done || lia).
      rewrite Hl1. by rewrite take_drop. }
    unfold bind at 1. rewrite Hcp.
    destruct (copy_run (drop (length xs) ys)) as [e|].
    { unfold σ1. by rewrite Hxs'. }
    mstep.
    erewrite set_size_eq by lookup_tac. simpl.
    f_equal. unfold σ1. by rewrite with_cells_twice.
Qed.
End CopyAssignSpec.

(** ** Construction, swap and assignment *)

Section AssignSpec.
Context `{Platform} {T : Type} `{Element T}.
Implicit Types (σ : state T) (xs ys : list T).

Lemma Vector_Swap_eval σ this other m1 s1 m2 s2 :
  this ≠ other →
  vecs σ !! this = Some (mkVector m1 s1) → vecs σ !! other = Some (mkVector m2 s2) →
  Vector.Swap this other σ
  = Done tt (set_vecs (λ V, <[other:=mkVector m1 s1]> (<[this:=mkVector m2 s2]> V)) σ).
Proof.
  intros Hne Hv Ho. unfold Vector.Swap.
  erewrite bind_done by (eapply RawMemory_Swap_data_data; eassumption).
  do 3 mstep. erewrite set_size_eq by lookup_tac. simpl.
  f_equal. state_eq_tac.
Qed.

Lemma Vector_Swap_self σ this x :
  vecs σ !! this = Some x → Vector.Swap this this σ = Done tt σ.
Proof.
  intros Hv. unfold Vector.Swap.
  erewrite bind_done by (eapply RawMemory_Swap_self; eassumption).
  do 3 mstep. erewrite set_size_eq by lookup_tac. simpl.
  f_equal. destruct x as [m s]. state_eq_tac.
Qed.

Lemma destroy_data_raw σ this p cap s :
  vecs σ !! this = Some (mkVector (mkRawMemory p cap) s) →
  buffer_holds σ p cap [] →
  RawMemory.destroy (DataOf this) σ
  = Done tt (mkState (release p (blocks σ)) (delete this (vecs σ)) (raws σ) (leaked σ)).
Proof.
  intros Ha Hb. destruct p as [|b off]; simpl in Hb.
  - rewrite (destroy_data_null _ _ _ _ Ha). done.
  - destruct Hb as [-> Hb]. rewrite (destroy_data_spec _ _ _ _ _ _ Ha Hb).
    unfold vec_cells. simpl. rewrite live_values_replicate_Raw. by rewrite app_nil_r.
Qed.

Lemma Vector_dtor_eval σ this p cap xs :
  is_vec σ this p cap xs →
  Vector.dtor this σ
  = Done tt (mkState (release p (blocks σ)) (delete this (vecs σ)) (raws σ) (leaked σ)).
Proof.
  intros (Hv & Hle & Hlim & Hb). unfold Vector.dtor, RawMemory.GetAddress.
  do 2 mstep.
  erewrite bind_done by (by eapply destroy_n_vec).
  erewrite destroy_data_raw.
  2:{ rewrite vecs_with_cells. exact Hv. }
  2:{ apply buffer_holds_with_cells.
      - intros b off ->. by destruct Hb.
      - unfold vec_cells. simpl. by rewrite Nat.sub_0_r.
      - intros ->. exact Hb. }
  f_equal. destruct p; state_eq_tac.
Qed.

Lemma ctor_copy_eval σ this rhs pr capr ys :
  vecs σ !! this = None → is_vec σ rhs pr capr ys →
  Vector.ctor_copy this rhs σ
  = let m := length ys in
    let p' := if m =? 0 then Null else Ptr (fresh (dom (blocks σ))) 0 in
    match copy_run ys with
    | Some e => Thrown e σ
    | None =>
        Done tt (set_vecs (insert this (mkVector (mkRawMemory p' m) m))
                   (with_cells p' (vec_cells m ys) σ))
    end.
Proof.
  intros Hfresh (Hvr & Hler & Hlimr & Hbr). cbv zeta.
  assert (Hne : this ≠ rhs) by congruence.
  unfold Vector.ctor_copy. mstep.
  unfold RawMemory.ctor. rewrite bind_assoc.
  destruct (Nat.eqb_spec (length ys) 0) as [Hz|Hnz].
  - destruct ys; [|done]. simpl.
    unfold RawMemory.Allocate. simpl. rewrite bind_ret_l.
    unfold bind at 1, init_raw.
    unfold on_exception. unfold RawMemory.GetAddress.
    do 5 mstep.
    unfold ret. f_equal. state_eq_tac.
  - pose proof heap_limit_bound as Hhl.
    assert (Hms : length ys * sizeof_T ≤ capr * sizeof_T) by nia.
    assert (Hfit : fits (length ys * sizeof_T)) by (unfold fits; lia).
    unfold bind at 1. rewrite Allocate_spec by (done || lia).
    destruct (N.leb_spec (N.of_nat (length ys * sizeof_T)) heap_limit) as [_|]; [|lia].
    pose proof (fresh_block_None σ) as Hb'.
    set (b' := fresh (dom (blocks σ))) in *.
    unfold bind at 1, init_raw.
    unfold on_exception. unfold RawMemory.GetAddress.
    do 5 mstep.
    destruct pr as [|br offr].
    { simpl in Hbr. subst capr. lia. }
    destruct Hbr as [-> Hbr].
    assert (Hnb : br ≠ b') by congruence.
    erewrite (uninitialized_copy_n_spec ys _ br 0 [] _ b' 0 [] []); [| exact Hnb | | done | | done].
    2:{ simpl. rewrite lookup_insert_ne by done. exact Hbr. }
    2:{ simpl. rewrite lookup_insert_eq. by rewrite app_nil_r. }
    destruct (copy_run ys) as [e|].
    + unfold Vector.abandon.
      erewrite destroy_data_raw; [| lookup_tac | ].
      2:{ split; [done|]. simpl. rewrite lookup_insert_eq. unfold vec_cells. simpl.
          by rewrite Nat.sub_0_r. }
      f_equal. state_eq_tac.
    + f_equal. state_eq_tac. unfold vec_cells. rewrite Nat.sub_diag. simpl. by rewrite app_nil_r.
Qed.

Lemma copy_assign_realloc σ this p cap xs rhs pr capr ys :
  this ≠ rhs → is_vec σ this p cap xs → is_vec σ rhs pr capr ys →
  apart pr p → cap < length ys →
  Vector.copy_assign this rhs σ
  = let m := length ys in
    let b' := fresh (dom (blocks σ)) in
    match copy_run ys with
    | Some e => Thrown e σ
    | None =>
        Done tt (mkState (<[b':=vec_cells m ys]> (release p (blocks σ)))
                   (<[this:=mkVector (mkRawMemory (Ptr b' 0) m) m]> (vecs σ))
                   (raws σ) (leaked σ))
    end.
Proof.
  intros Hne Hvec Hvecr Hap Hlt.
  pose proof Hvec as (Hv & Hle & Hlim & Hb).
  pose proof Hvecr as (Hvr & Hler & Hlimr & Hbr).
  cbv zeta. unfold Vector.copy_assign.
  rewrite bool_decide_eq_false_2 by done. simpl.
  unfold RawMemory.Capacity. do 2 mstep.
  destruct (Nat.ltb_spec cap (length ys)) as [_|]; [|lia].
  unfold bind at 1, fresh_vec.
  pose proof (fresh_vec_None σ) as Htmp. pose proof (fresh_block_None σ) as Hb'.
  set (tmp := fresh (dom (vecs σ))) in *. set (b' := fresh (dom (blocks σ))) in *.
  assert (Htt : this ≠ tmp) by congruence.
  unfold bind at 1.
  rewrite (ctor_copy_eval σ tmp rhs pr capr ys Htmp Hvecr). cbv zeta.
  destruct (copy_run ys) as [e|]; [done|].
  destruct (Nat.eqb_spec (length ys) 0) as [|_]; [lia|].
  fold b'. simpl.
  erewrite bind_done by (eapply Vector_Swap_eval; [exact Htt | lookup_tac | lookup_tac]).
  erewrite Vector_dtor_eval.
  2:{ split; [lookup_tac|]. split; [done|]. split; [done|].
      destruct p as [|b off]; [exact Hb|]. destruct Hb as [-> Hb].
      split; [done|]. simpl. rewrite lookup_insert_ne by congruence. exact Hb. }
  f_equal. destruct p as [|b off]; [state_eq_tac|].
  destruct Hb as [-> Hb]. assert (b ≠ b') by congruence. state_eq_tac.
Qed.

Lemma copy_assign_noalloc σ this rhs x y :
  this ≠ rhs → vecs σ !! this = Some x → vecs σ !! rhs = Some y →
  size_ y ≤ capacity_ (data_ x) →
  Vector.copy_assign this rhs σ = Vector.CopyAssignNoRealloc this rhs σ.
Proof.
  intros Hne Hv Hvr Hle. unfold Vector.copy_assign.
  rewrite bool_decide_eq_false_2 by done. simpl.
  unfold RawMemory.Capacity. do 2 mstep.
  by destruct (Nat.ltb_spec (capacity_ (data_ x)) (size_ y)) as [|_]; [lia|].
Qed.

Lemma copy_assign_self σ this : Vector.copy_assign this this σ = Done tt σ.
Proof. unfold Vector.copy_assign. by rewrite bool_decide_eq_true_2. Qed.

Lemma move_assign_self σ this : Vector.move_assign this this σ = Done tt σ.
Proof. unfold Vector.move_assign. by rewrite bool_decide_eq_true_2. Qed.
End AssignSpec.

(** ** Moves of [RawMemory] *)

Section RawMemoryMoves.
Context `{Platform} {T : Type} `{Element T}.
Implicit Types (σ : state T) (xs ys : list T).

Lemma RawMemory_Swap_obj_obj σ a a' m m' :
  a ≠ a' → raws σ !! a = Some m → raws σ !! a' = Some m' →
  RawMemory.Swap (RawObj a) (RawObj a') σ
  = Done tt (set_raws (λ R, <[a':=m]> (<[a:=m']> R)) σ).
Proof.
  intros Hne Ha Ha'. unfold RawMemory.Swap.
  do 7 mstep.
  erewrite set_capacity_obj by lookup_tac. simpl.
  f_equal. destruct m, m'. state_eq_tac.
Qed.

Lemma RawMemory_move_ctor_obj σ a a' m :
  a ≠ a' → raws σ !! a' = Some m →
  RawMemory.move_ctor (RawObj a) (RawObj a') σ
  = Done tt (set_raws (λ R, <[a':=mkRawMemory Null 0]> (<[a:=m]> R)) σ).
Proof.
  intros Hne Ha'. unfold RawMemory.move_ctor.
  unfold bind at 1, init_raw.
  do 5 mstep.
  erewrite set_capacity_obj by lookup_tac. simpl.
  f_equal. destruct m. state_eq_tac.
Qed.

End RawMemoryMoves.

Section MoreRepresentation.
Context `{Platform} {T : Type} `{Element T}.
Implicit Types (σ : state T) (xs ys : list T).

Lemma buffer_holds_blocks σ σ' p cap xs :
  blocks σ' = blocks σ → buffer_holds σ p cap xs → buffer_holds σ' p cap xs.
Proof. intros Hbl. destruct p; [done|]. simpl. by rewrite Hbl. Qed.

End MoreRepresentation.

(** ** The member objects after each operation *)

Section Frame.
Context `{Platform} {T : Type} `{Element T}.
Implicit Types (σ : state T) (xs ys : list T).
Local Abbreviation mem_only := (mem_only (T:=T)).
Local Abbreviation reads := (reads (T:=T)).

Lemma same_objects_refl σ : same_objects σ σ.
Proof. by split. Qed.

Lemma same_objects_trans σ1 σ2 σ3 :
  same_objects σ1 σ2 → same_objects σ2 σ3 → same_objects σ1 σ3.
Proof. intros [? ?] [? ?]. split; congruence. Qed.

Lemma wp_bind {A B} (m : M T A) (k : A → M T B) σ Q E :
  wp m σ (λ a σ', wp (k a) σ' Q E) E → wp (bind m k) σ Q E.
Proof. unfold wp, bind. by destruct (m σ). Qed.

Lemma wp_ret {A} (a : A) σ (Q : A → state T → Prop) E : Q a σ → wp (ret a) σ Q E.
Proof. done. Qed.

Lemma wp_mono {A} (m : M T A) σ (Q Q' : A → state T → Prop) (E E' : exn → state T → Prop) :
  wp m σ Q E → (∀ a σ', Q a σ' → Q' a σ') → (∀ e σ', E e σ' → E' e σ') → wp m σ Q' E'.
Proof. unfold wp. destruct (m σ); auto. Qed.

Lemma wp_eq {A} (m : M T A) σ a σ' (Q : A → state T → Prop) E :
  m σ = Done a σ' → Q a σ' → wp m σ Q E.
Proof. unfold wp. by intros ->. Qed.

Lemma wp_on_exception {A} (m : M T A) h σ Q E :
  wp m σ Q (λ e σ', wp h σ' (λ _ σ'', E e σ'') E) → wp (on_exception m h) σ Q E.
Proof.
  unfold wp, on_exception. destruct (m σ) as [a σ'|e σ'| |]; try done.
  by destruct (h σ').
Qed.

Lemma wp_mem {A} (m : M T A) σ (Q : A → state T → Prop) (E : exn → state T → Prop) :
  mem_only m →
  (∀ a σ', same_objects σ σ' → Q a σ') → (∀ e σ', same_objects σ σ' → E e σ') →
  wp m σ Q E.
Proof.
  intros Hm HQ HE. specialize (Hm σ). unfold wp in *.
  destruct (m σ); auto.
Qed.

Lemma mem_only_ret {A} (a : A) : mem_only (ret a : M T A).
Proof. intros σ. apply same_objects_refl. Qed.

Lemma mem_only_throw {A} e : mem_only (throw e : M T A).
Proof. intros σ. apply same_objects_refl. Qed.

Lemma mem_only_undef {A} : mem_only (undef : M T A).
Proof. by intros σ. Qed.

Lemma mem_only_bind {A B} (m : M T A) (k : A → M T B) :
  mem_only m → (∀ a, mem_only (k a)) → mem_only (bind m k).
Proof.
  intros Hm Hk σ. apply wp_bind. apply wp_mem; [done| |done].
  intros a σ' Hs. eapply wp_mono; [apply Hk| |]; simpl;
    intros; by eapply same_objects_trans.
Qed.

Lemma mem_only_on_exception {A} (m : M T A) h :
  mem_only m → mem_only h → mem_only (on_exception m h).
Proof.
  intros Hm Hh σ. apply wp_on_exception. apply wp_mem; [done|done|].
  intros e σ' Hs. eapply wp_mono; [apply Hh| |]; simpl;
    intros; by eapply same_objects_trans.
Qed.

Lemma mem_only_read_cell p : mem_only (read_cell p).
Proof.
  intros σ. unfold wp, read_cell. destruct p; [done|].
  destruct (blocks σ !! b); [|done]. destruct (l !! off); [|done].
  apply same_objects_refl.
Qed.

Lemma mem_only_write_cell p c : mem_only (write_cell p c).
Proof.
  intros σ. unfold wp, write_cell. destruct p; [done|].
  destruct (blocks σ !! b); [|done]. destruct (off <? length l); simpl; [by split|done].
Qed.

Lemma mem_only_operator_new n : mem_only (operator_new n).
Proof.
  intros σ. unfold wp, operator_new.
  destruct (N.of_nat n <=? heap_limit)%N; simpl; by split.
Qed.

Lemma mem_only_operator_delete p : mem_only (operator_delete p).
Proof.
  intros σ. unfold wp, operator_delete. destruct p as [|b [|off]]; simpl; try done.
  destruct (blocks σ !! b); simpl; [by split|done].
Qed.

Lemma mem_only_assert c : mem_only (assert c : M T unit).
Proof. intros σ. unfold wp, assert. destruct NDEBUG, c; simpl; try done; by split. Qed.

Lemma mem_only_ptr_diff p q : mem_only (ptr_diff p q : M T nat).
Proof.
  intros σ. unfold wp, ptr_diff. destruct p as [|b1 o1], q as [|b2 o2]; simpl; try done.
  destruct (decide (b1 = b2)); [|done]. destruct (o2 <=? o1); simpl; [by split|done].
Qed.

Create HintDb frame discriminated.

#[local] Hint Resolve mem_only_ret mem_only_throw mem_only_undef mem_only_read_cell
  mem_only_write_cell mem_only_operator_new mem_only_operator_delete mem_only_assert
  mem_only_ptr_diff : frame.

Ltac frame_step :=
  first
    [ solve [ auto 1 with nocore frame ]
    | apply mem_only_bind; [|intros ?]
    | apply mem_only_on_exception
    | match goal with
      | |- mem_only (match ?x with _ => _ end) => destruct x
      | |- mem_only (if ?x then _ else _) => destruct x
      end ].

Ltac frame := repeat frame_step.

Lemma mem_only_load p : mem_only (load p).
Proof. unfold load. frame. Qed.
#[local] Hint Resolve mem_only_load : frame.

Lemma mem_only_store p v : mem_only (store p v).
Proof. unfold store. frame. Qed.
#[local] Hint Resolve mem_only_store : frame.

Lemma mem_only_placement_new p v : mem_only (placement_new p v).
Proof.
  unfold placement_new. frame.
  intros σ. apply (mem_only_write_cell p (Live v) (set_leaked _ σ)).
Qed.
#[local] Hint Resolve mem_only_placement_new : frame.

Lemma mem_only_destroy_at p : mem_only (destroy_at p).
Proof. unfold destroy_at. frame. Qed.
#[local] Hint Resolve mem_only_destroy_at : frame.

Lemma mem_only_construct_copy d s : mem_only (construct_copy d s).
Proof. unfold construct_copy. frame. Qed.

Lemma mem_only_construct_move d s : mem_only (construct_move d s).
Proof. unfold construct_move. frame. Qed.

Lemma mem_only_construct_value k d : mem_only (construct_value k d).
Proof. unfold construct_value. frame. Qed.

Lemma mem_only_assign_copy d s : mem_only (assign_copy d s).
Proof. unfold assign_copy. frame. Qed.

Lemma mem_only_assign_move d s : mem_only (assign_move d s).
Proof. unfold assign_move. frame. Qed.

Lemma mem_only_assign_move_from d s : mem_only (assign_move_from d s).
Proof. unfold assign_move_from. frame. Qed.
#[local] Hint Resolve mem_only_construct_copy mem_only_construct_move mem_only_construct_value
  mem_only_assign_copy mem_only_assign_move mem_only_assign_move_from : frame.

Lemma mem_only_uninitialized_copy_n n : ∀ s d, mem_only (uninitialized_copy_n s n d).
Proof. induction n as [|n IH]; intros s d; simpl; frame. Qed.

Lemma mem_only_uninitialized_move_n n : ∀ s d, mem_only (uninitialized_move_n s n d).
Proof. induction n as [|n IH]; intros s d; simpl; frame. Qed.

Lemma mem_only_value_construct_from n : ∀ k d, mem_only (value_construct_from k d n).
Proof. induction n as [|n IH]; intros k d; simpl; frame. Qed.

Lemma mem_only_uninitialized_value_construct_n n d :
  mem_only (uninitialized_value_construct_n d n).
Proof. apply mem_only_value_construct_from. Qed.

Lemma mem_only_destroy_n n : ∀ p, mem_only (destroy_n p n).
Proof. induction n as [|n IH]; intros p; simpl; frame. Qed.

Lemma mem_only_copy_n_assign n : ∀ s d, mem_only (copy_n_assign s n d).
Proof. induction n as [|n IH]; intros s d; simpl; frame. Qed.

Lemma mem_only_move_n_assign n : ∀ s d, mem_only (move_n_assign s n d).
Proof. induction n as [|n IH]; intros s d; simpl; frame. Qed.

Lemma mem_only_move_backward_n n : ∀ s d, mem_only (move_backward_n s n d).
Proof. induction n as [|n IH]; intros s d; simpl; frame. Qed.
#[local] Hint Resolve mem_only_uninitialized_copy_n mem_only_uninitialized_move_n
  mem_only_uninitialized_value_construct_n mem_only_destroy_n mem_only_copy_n_assign
  mem_only_move_n_assign mem_only_move_backward_n : frame.

Lemma mem_only_std_copy f l d : mem_only (std_copy f l d).
Proof. unfold std_copy. frame. Qed.

Lemma mem_only_std_move f l d : mem_only (std_move f l d).
Proof. unfold std_move. frame. Qed.

Lemma mem_only_std_move_backward f l d : mem_only (std_move_backward f l d).
Proof. unfold std_move_backward. frame. Qed.

Lemma mem_only_construct_from {A} (make : A → A * (exn + T)) args p :
  mem_only (Vector.construct_from make args p).
Proof. unfold Vector.construct_from. frame. Qed.

Lemma mem_only_reserve_transfer s n d : mem_only (Vector.reserve_transfer s n d).
Proof. unfold Vector.reserve_transfer. frame. Qed.

Lemma mem_only_relocate s n d : mem_only (Vector.relocate s n d).
Proof. unfold Vector.relocate. frame. Qed.

Lemma mem_only_Allocate n : mem_only (RawMemory.Allocate n).
Proof. unfold RawMemory.Allocate. frame. Qed.

Lemma mem_only_Deallocate p : mem_only (RawMemory.Deallocate p).
Proof. unfold RawMemory.Deallocate. frame. Qed.
#[local] Hint Resolve mem_only_std_copy mem_only_std_move mem_only_std_move_backward
  mem_only_construct_from mem_only_reserve_transfer mem_only_relocate mem_only_Allocate
  mem_only_Deallocate : frame.

(** *** The members of the objects after a call *)

Ltac flookup :=
  simpl;
  repeat match goal with
         | H : vecs ?s = _ |- context [vecs ?s] => rewrite H; simpl
         | H : raws ?s = _ |- context [raws ?s] => rewrite H; simpl
         end;
  repeat first
    [ rewrite lookup_insert_eq
    | rewrite lookup_insert_ne by (done || congruence)
    | rewrite lookup_delete_ne by (done || congruence) ];
  first [ eassumption | reflexivity ].

Ltac ffield :=
  first
    [ eapply get_buffer_data; flookup
    | eapply get_buffer_obj; flookup
    | eapply get_capacity_data; flookup
    | eapply get_capacity_obj; flookup
    | eapply get_size_eq; flookup
    | eapply set_size_eq; flookup
    | eapply set_buffer_data; flookup
    | eapply set_capacity_data; flookup
    | eapply RawMemory_Swap_data_obj; flookup
    | eapply RawMemory_Swap_data_data; [done | flookup | flookup] ].

(** The next call of a sequence: a member access, or a computation on
    blocks. *)
Ltac wfield := apply wp_bind; eapply wp_eq; [ffield|]; simpl.
Ltac wmem :=
  apply wp_bind; apply wp_mem;
  [ by auto 2 with nocore frame
  | intros ? ? [? ?]
  | intros ? ? [? ?] ].

(** The end of a [RawMemory] object: it never throws. *)
Lemma wp_destroy r σ (Q : unit → state T → Prop) E :
  (∀ σ', match r with
         | RawObj a => vecs σ' = vecs σ ∧ raws σ' = delete a (raws σ)
         | DataOf v => vecs σ' = delete v (vecs σ) ∧ raws σ' = raws σ
         end → Q tt σ') →
  wp (RawMemory.destroy r) σ Q E.
Proof.
  intros HQ.
  unfold wp, RawMemory.destroy, RawMemory.dtor, RawMemory.Deallocate,
    get_buffer, get_raw, operator_delete, free_obj, bind, ret.
  destruct r as [a|v]; simpl.
  - destruct (raws σ !! a) as [m|]; [|done]. simpl.
    destruct (buffer_ m) as [|b [|o]]; [by apply HQ| |done].
    destruct (blocks σ !! b); [|done]. by apply HQ.
  - destruct (vecs σ !! v) as [x|]; [|done]. simpl.
    destruct (buffer_ (data_ x)) as [|b [|o]]; [by apply HQ| |done].
    destruct (blocks σ !! b); [|done]. by apply HQ.
Qed.

(** The scope of a local buffer: the body runs with the local at a fresh
    address, and the local is gone when the scope is left. *)
Lemma wp_local {A} n (body : raw_ref → M T A) σ (Q : A → state T → Prop) E :
  (∀ e σ', same_objects σ σ' → E e σ') →
  (∀ p σ1, let a := fresh (dom (raws σ)) in
     vecs σ1 = vecs σ → raws σ1 = <[a:=mkRawMemory p n]> (raws σ) →
     wp (body (RawObj a)) σ1
       (λ r σ2, ∀ σ3, vecs σ3 = vecs σ2 → raws σ3 = delete a (raws σ2) → Q r σ3)
       (λ e σ2, ∀ σ3, vecs σ3 = vecs σ2 → raws σ3 = delete a (raws σ2) → E e σ3)) →
  wp (RawMemory.local n body) σ Q E.
Proof.
  intros HE Hbody. unfold RawMemory.local.
  apply wp_bind. unfold wp at 1, fresh_raw.
  unfold RawMemory.ctor.
  do 2 apply wp_bind. apply wp_mem; [apply mem_only_Allocate| |exact HE].
  intros p σ0 [Hv0 Hr0].
  unfold wp at 1, init_raw.
  apply wp_bind. apply wp_on_exception.
  eapply wp_mono; [apply (Hbody p)| |]; simpl; try congruence.
  - intros r σ2 HQ. apply wp_bind. apply wp_destroy. intros σ3 [? ?].
    apply wp_ret. by apply HQ.
  - intros e σ2 HQ. apply wp_destroy. intros σ3 [? ?]. by apply HQ.
Qed.

Lemma wp_reads {A} (m : M T A) σ (Q : A → state T → Prop) E :
  reads m → (∀ a, Q a σ) → wp m σ Q E.
Proof.
  intros Hm HQ. specialize (Hm σ). unfold wp in *.
  destruct (m σ) as [a σ'| | |]; try done. subst. apply HQ.
Qed.

Lemma reads_ret {A} (a : A) : reads (ret a).
Proof. by intros σ. Qed.

Lemma reads_bind {A B} (m : M T A) (k : A → M T B) :
  reads m → (∀ a, reads (k a)) → reads (bind m k).
Proof.
  intros Hm Hk σ. apply wp_bind. apply wp_reads; [done|]. intros a. apply Hk.
Qed.

Lemma reads_assert c : reads (assert c).
Proof. intros σ. unfold wp, assert. by destruct NDEBUG, c. Qed.

Lemma reads_ptr_diff p q : reads (ptr_diff p q).
Proof.
  intros σ. unfold wp, ptr_diff.
  destruct p as [|b1 o1], q as [|b2 o2]; try done.
  destruct (decide (b1 = b2)); [|done]. by destruct (o2 <=? o1).
Qed.

Lemma reads_get_raw r : reads (get_raw r).
Proof.
  intros σ. unfold wp, get_raw.
  destruct r as [a|v]; [by destruct (raws σ !! a)|by destruct (vecs σ !! v)].
Qed.

Lemma reads_get_size this : reads (get_size this).
Proof. intros σ. unfold wp, get_size. by destruct (vecs σ !! this). Qed.

Lemma reads_fresh_vec : reads fresh_vec.
Proof. by intros σ. Qed.

#[local] Hint Resolve reads_ret reads_assert reads_ptr_diff reads_get_raw
  reads_get_size reads_fresh_vec : frame.

Ltac reads_step :=
  first
    [ solve [ auto 1 with nocore frame ]
    | apply reads_bind; [|intros ?] ].
Ltac reads_tac := repeat reads_step.

Lemma reads_get_buffer r : reads (get_buffer r).
Proof. unfold get_buffer. reads_tac. Qed.
Lemma reads_get_capacity r : reads (get_capacity r).
Proof. unfold get_capacity. reads_tac. Qed.
#[local] Hint Resolve reads_get_buffer reads_get_capacity : frame.

Lemma reads_plus r n : reads (RawMemory.plus r n).
Proof. unfold RawMemory.plus. reads_tac. Qed.
Lemma reads_raw_at r n : reads (RawMemory.at_ r n).
Proof. unfold RawMemory.at_. reads_tac. Qed.
Lemma reads_GetAddress r : reads (RawMemory.GetAddress r).
Proof. unfold RawMemory.GetAddress. reads_tac. Qed.
Lemma reads_begin this : reads (Vector.begin this).
Proof. unfold Vector.begin, RawMemory.GetAddress. reads_tac. Qed.
Lemma reads_end this : reads (Vector.end_ this).
Proof. unfold Vector.end_, RawMemory.GetAddress. reads_tac. Qed.
#[local] Hint Resolve reads_plus reads_raw_at reads_GetAddress reads_begin
  reads_end : frame.

Lemma mem_only_reads {A} (m : M T A) : reads m → mem_only m.
Proof.
  intros Hm σ. apply wp_reads; [done|]. intros _. apply same_objects_refl.
Qed.

Lemma mem_only_GetAddress r : mem_only (RawMemory.GetAddress r).
Proof. apply mem_only_reads. auto with nocore frame. Qed.
Lemma mem_only_get_size this : mem_only (get_size this).
Proof. apply mem_only_reads. auto with nocore frame. Qed.
Lemma mem_only_plus r n : mem_only (RawMemory.plus r n).
Proof. apply mem_only_reads. auto with nocore frame. Qed.
Lemma mem_only_raw_at r n : mem_only (RawMemory.at_ r n).
Proof. apply mem_only_reads. auto with nocore frame. Qed.
#[local] Hint Resolve mem_only_GetAddress mem_only_get_size mem_only_plus
  mem_only_raw_at : frame.

(** The next call reads the store; its result is not needed. *)
Ltac wread :=
  apply wp_bind; apply wp_reads; [ by auto 2 with nocore frame | intros ? ].

Ltac wlast := apply wp_reads; [ by auto 2 with nocore frame | intros ? ].

(** The members at the end, from those at each step. *)
Ltac wfinish :=
  intros; simpl in *;
  repeat match goal with H : same_objects _ _ |- _ => destruct H end;
  try (eexists; split); try split;
  repeat match goal with
         | H : vecs ?s = _ |- context [vecs ?s] => rewrite H; simpl
         | H : raws ?s = _ |- context [raws ?s] => rewrite H; simpl
         | x := _ |- _ => subst x
         end;
  try done; map_eq_tac.

(** [Emplace]: the members after the call. *)
Lemma Emplace_fields {A} (make : A → A * (exn + T)) σ this pos args p c n :
  vecs σ !! this = Some (mkVector (mkRawMemory p c) n) →
  wp (Vector.Emplace make this pos args) σ
    (λ _ σ', ∃ p',
       vecs σ' = <[this:=mkVector (mkRawMemory p' (if n =? c then grown n else c))
                          (size_inc n)]> (vecs σ) ∧
       raws σ' = raws σ)
    (λ _ σ', same_objects σ σ').
Proof.
  intros Hv. pose proof (fresh_raw_None σ) as Ha.
  unfold Vector.Emplace, Vector.Capacity, RawMemory.Capacity.
  do 5 wread. wfield. wfield.
  destruct (Nat.eqb_spec n c) as [->|Hne].
  - wfield. fold (grown c). apply wp_local; [done|].
    intros p' σ1 ra Hv1 Hr1.
    wread. apply wp_bind. apply wp_on_exception.
    apply wp_mem; [by frame| |].
    + intros _ σ2 [Hv2 Hr2]. wread. wfield. wmem.
      wfield. wfield. wfield. wread. apply wp_ret.
      * wfinish.
      * wfinish.
    + intros _ σ2 [Hv2 Hr2]. apply wp_mem; [by frame| |]; intros ? ? [? ?]; wfinish.
  - destruct (make args).2 as [e|tmp]; [done|].
    wfield. apply wp_bind. apply wp_mem; [by frame| |done].
    intros ? ? [? ?]. wfield. wfield. wread. apply wp_ret. wfinish.
Qed.

(** [EmplaceBack]: the members after the call. *)
Lemma EmplaceBack_fields {A} (make : A → A * (exn + T)) σ this args p c n :
  vecs σ !! this = Some (mkVector (mkRawMemory p c) n) →
  wp (Vector.EmplaceBack make this args) σ
    (λ _ σ', ∃ p',
       vecs σ' = <[this:=mkVector (mkRawMemory p' (if n =? c then grown n else c))
                          (size_inc n)]> (vecs σ) ∧
       raws σ' = raws σ)
    (λ _ σ', same_objects σ σ').
Proof.
  intros Hv. pose proof (fresh_raw_None σ) as Ha.
  unfold Vector.EmplaceBack, Vector.Capacity, RawMemory.Capacity.
  wfield. wfield. apply wp_bind.
  destruct (Nat.eqb_spec n c) as [->|Hne].
  - wfield. fold (grown c). apply wp_local; [done|].
    intros p' σ1 ra Hv1 Hr1.
    wfield. wread. wmem; [|wfinish].
    apply wp_bind. apply wp_mem; [by frame| |wfinish].
    intros ? ? [? ?]. wread. wfield. wmem; [|wfinish].
    eapply wp_eq; [ffield|]. intros σ3 Hv3 Hr3.
    wfield. wfield. wfield. wlast. wfinish.
  - apply wp_mem; [by frame| |done].
    intros ? ? [? ?]. wfield. wfield. wfield. wlast. wfinish.
Qed.

(** [Reserve]: the members after the call. *)
Lemma Reserve_fields σ this new_capacity p c n :
  vecs σ !! this = Some (mkVector (mkRawMemory p c) n) →
  wp (Vector.Reserve this new_capacity) σ
    (λ _ σ', ∃ p',
       vecs σ' = <[this:=mkVector (mkRawMemory p' (c `max` new_capacity)) n]> (vecs σ) ∧
       raws σ' = raws σ)
    (λ _ σ', same_objects σ σ').
Proof.
  intros Hv. pose proof (fresh_raw_None σ) as Ha.
  unfold Vector.Reserve, RawMemory.Capacity.
  wfield. destruct (Nat.leb_spec new_capacity c) as [Hle|Hlt].
  - apply wp_ret. exists p. rewrite Nat.max_l by done.
    split; [|done]. by rewrite insert_id.
  - rewrite Nat.max_r by lia. apply wp_local; [done|].
    intros p' σ1 ra Hv1 Hr1.
    wread. wfield. wread. wmem; [|wfinish].
    wread. wfield. wmem; [|wfinish].
    eapply wp_eq; [ffield|]. wfinish.
Qed.

(** [Resize]: the members after the call. *)
Lemma Resize_fields σ this new_size p c n :
  vecs σ !! this = Some (mkVector (mkRawMemory p c) n) →
  wp (Vector.Resize this new_size) σ
    (λ _ σ', ∃ p',
       vecs σ' = <[this:=mkVector
                           (mkRawMemory p' (if n <? new_size then c `max` new_size else c))
                           new_size]> (vecs σ) ∧
       raws σ' = raws σ)
    (λ _ σ', ∃ p' c',
       vecs σ' = <[this:=mkVector (mkRawMemory p' c') n]> (vecs σ) ∧
       raws σ' = raws σ ∧ c ≤ c').
Proof.
  intros Hv. unfold Vector.Resize.
  wfield. apply wp_bind. destruct (n <? new_size).
  - apply wp_bind. eapply wp_mono; [exact (Reserve_fields _ _ _ _ _ _ Hv)| |].
    + intros _ σ1 (p' & Hv1 & Hr1). simpl.
      wread. wfield. apply wp_mem; [by frame| |].
      * intros ? ? [? ?]. eapply wp_eq; [ffield|]. wfinish.
      * intros ? ? [? ?]. exists p', (c `max` new_size).
        split_and!; [congruence|congruence|lia].
    + intros _ σ1 [Hv1 Hr1]. exists p, c.
      split_and!; [|done..]. by rewrite Hv1, insert_id.
  - wread. wfield. apply wp_mem; [by frame| |].
    + intros ? ? [? ?]. eapply wp_eq; [ffield|]. wfinish.
    + intros ? ? [? ?]. exists p, c.
      split_and!; [|congruence|done]. rewrite insert_id by done. congruence.
Qed.

(** [PopBack]: the members after the call. *)
Lemma PopBack_fields σ this p c n :
  vecs σ !! this = Some (mkVector (mkRawMemory p c) n) →
  wp (Vector.PopBack this) σ
    (λ _ σ',
       vecs σ' = <[this:=mkVector (mkRawMemory p c) (n - 1)]> (vecs σ) ∧
       raws σ' = raws σ)
    (λ _ σ', same_objects σ σ').
Proof.
  intros Hv. unfold Vector.PopBack.
  wfield. destruct (Nat.ltb_spec 0 n) as [Hpos|Hz].
  - wread. wfield. wmem; [|wfinish]. wfield.
    eapply wp_eq; [ffield|]. rewrite size_sub_le by lia. wfinish.
  - apply wp_ret. replace (n - 1) with n by lia.
    split; [|done]. by rewrite insert_id.
Qed.

(** Destructors do not throw. *)
Lemma wp_destroy_at p σ (Q : unit → state T → Prop) E :
  (∀ σ', same_objects σ σ' → Q tt σ') → wp (destroy_at p) σ Q E.
Proof.
  intros HQ. unfold wp, destroy_at, bind, read_cell, write_cell, undef.
  destruct p as [|b off]; [done|].
  destruct (blocks σ !! b) as [cs|] eqn:Hb; [|done].
  destruct (cs !! off) as [[|v]|]; [done| |done].
  rewrite Hb. destruct (off <? length cs); [|done]. by apply HQ.
Qed.

Lemma wp_destroy_n p n σ (Q : unit → state T → Prop) E :
  (∀ σ', same_objects σ σ' → Q tt σ') → wp (destroy_n p n) σ Q E.
Proof.
  revert p σ. induction n as [|n IH]; intros p σ HQ; simpl.
  - apply wp_ret, HQ, same_objects_refl.
  - apply wp_bind, wp_destroy_at. intros σ1 H1. apply IH.
    intros σ2 H2. apply HQ. by eapply same_objects_trans.
Qed.

(** [Erase]: the members after the call. *)
Lemma Erase_fields σ this pos p c n :
  vecs σ !! this = Some (mkVector (mkRawMemory p c) n) →
  wp (Vector.Erase this pos) σ
    (λ _ σ',
       vecs σ' = <[this:=mkVector (mkRawMemory p c) (size_sub n 1)]> (vecs σ) ∧
       raws σ' = raws σ)
    (λ _ σ', same_objects σ σ').
Proof.
  intros Hv. unfold Vector.Erase.
  do 4 wread. wmem; [|wfinish]. wfield. wfield. wfield. wread.
  apply wp_bind, wp_destroy_at. intros ? [? ?]. apply wp_ret. wfinish.
Qed.

(** The constructors: the members of the new object. *)
Lemma ctor_default_fields σ this :
  wp (Vector.ctor_default this) σ
    (λ _ σ',
       vecs σ' = <[this:=mkVector (mkRawMemory Null 0) 0]> (vecs σ) ∧
       raws σ' = raws σ)
    (λ _ _, False).
Proof.
  unfold Vector.ctor_default, RawMemory.ctor_default.
  apply wp_bind. eapply wp_eq; [reflexivity|].
  eapply wp_eq; [ffield|]. wfinish.
Qed.

Lemma ctor_size_fields σ this size :
  vecs σ !! this = None →
  wp (Vector.ctor_size this size) σ
    (λ _ σ', ∃ p,
       vecs σ' = <[this:=mkVector (mkRawMemory p size) size]> (vecs σ) ∧
       raws σ' = raws σ)
    (λ _ σ', same_objects σ σ').
Proof.
  intros Hv. unfold Vector.ctor_size, RawMemory.ctor, Vector.abandon.
  do 2 apply wp_bind. apply wp_mem; [by frame| |done].
  intros p σ1 [Hv1 Hr1]. eapply wp_eq; [reflexivity|].
  apply wp_on_exception. wfield. wread.
  apply wp_mem; [by frame| |].
  - wfinish.
  - intros ? ? [? ?]. apply wp_destroy. intros ? [? ?]. wfinish.
Qed.

Lemma ctor_copy_fields σ this other q c n :
  vecs σ !! this = None →
  vecs σ !! other = Some (mkVector (mkRawMemory q c) n) →
  wp (Vector.ctor_copy this other) σ
    (λ _ σ', ∃ p,
       vecs σ' = <[this:=mkVector (mkRawMemory p n) n]> (vecs σ) ∧
       raws σ' = raws σ)
    (λ _ σ', same_objects σ σ').
Proof.
  intros Hv Ho. assert (this ≠ other) by congruence.
  unfold Vector.ctor_copy, RawMemory.ctor, Vector.abandon.
  wfield. do 2 apply wp_bind. apply wp_mem; [by frame| |done].
  intros p σ1 [Hv1 Hr1]. eapply wp_eq; [reflexivity|].
  apply wp_on_exception. wfield. wfield. wread. wfield. wread.
  apply wp_mem; [by frame| |].
  - wfinish.
  - intros ? ? [? ?]. apply wp_destroy. intros ? [? ?]. wfinish.
Qed.

Lemma ctor_move_fields σ this other q c n :
  vecs σ !! this = None →
  vecs σ !! other = Some (mkVector (mkRawMemory q c) n) →
  wp (Vector.ctor_move this other) σ
    (λ _ σ',
       vecs σ' = <[this:=mkVector (mkRawMemory q c) n]>
                   (<[other:=mkVector (mkRawMemory Null 0) 0]> (vecs σ)) ∧
       raws σ' = raws σ)
    (λ _ _, False).
Proof.
  intros Hv Ho. assert (this ≠ other) by congruence.
  unfold Vector.ctor_move, RawMemory.move_ctor.
  do 2 apply wp_bind. eapply wp_eq; [reflexivity|].
  do 5 wfield. eapply wp_eq; [ffield|].
  do 2 wfield. eapply wp_eq; [ffield|]. wfinish.
Qed.

(** [Swap] and the assignments. *)
Lemma Swap_fields σ this other v w :
  vecs σ !! this = Some v → vecs σ !! other = Some w →
  wp (Vector.Swap this other) σ
    (λ _ σ', vecs σ' = <[other:=v]> (<[this:=w]> (vecs σ)) ∧ raws σ' = raws σ)
    (λ _ _, False).
Proof.
  intros Hv Hw. destruct (decide (this = other)) as [->|Hne].
  - eapply wp_eq; [by eapply Vector_Swap_self|].
    simplify_eq. by do 2 rewrite (insert_id (vecs σ)) by done.
  - destruct v, w. eapply wp_eq; [by eapply Vector_Swap_eval|]. done.
Qed.

Lemma move_assign_fields σ this rhs v w :
  vecs σ !! this = Some v → vecs σ !! rhs = Some w →
  wp (Vector.move_assign this rhs) σ
    (λ _ σ', vecs σ' = <[rhs:=v]> (<[this:=w]> (vecs σ)) ∧ raws σ' = raws σ)
    (λ _ _, False).
Proof.
  intros Hv Hw. unfold Vector.move_assign. case_bool_decide as Hne; simpl.
  - subst. apply wp_ret. simplify_eq. by do 2 rewrite (insert_id (vecs σ)) by done.
  - by apply Swap_fields.
Qed.

Lemma copy_assign_fields σ this rhs p c n q d m :
  this ≠ rhs →
  vecs σ !! this = Some (mkVector (mkRawMemory p c) n) →
  vecs σ !! rhs = Some (mkVector (mkRawMemory q d) m) →
  wp (Vector.copy_assign this rhs) σ
    (λ _ σ', ∃ p',
       vecs σ' = <[this:=mkVector (mkRawMemory p' (if c <? m then m else c)) m]> (vecs σ) ∧
       raws σ' = raws σ)
    (λ _ σ', same_objects σ σ').
Proof.
  intros Hne Hv Hr. pose proof (fresh_vec_None σ) as Htmp.
  unfold Vector.copy_assign. rewrite bool_decide_eq_false_2 by done. simpl.
  unfold RawMemory.Capacity. wfield. wfield. destruct (c <? m).
  - apply wp_bind. eapply wp_eq; [reflexivity|].
    set (tmp := fresh (dom (vecs σ))) in *.
    assert (this ≠ tmp ∧ rhs ≠ tmp) as [? ?] by (split; congruence).
    apply wp_bind. eapply wp_mono; [exact (ctor_copy_fields _ _ _ _ _ _ Htmp Hr)| |done].
    intros _ σ1 (p' & Hv1 & Hr1). simpl.
    apply wp_bind. eapply wp_mono; [eapply Swap_fields; flookup| |done].
    intros _ σ2 [Hv2 Hr2]. simpl. unfold Vector.dtor.
    wread. wfield. apply wp_bind, wp_destroy_n. intros ? [? ?].
    apply wp_destroy. intros ? [? ?]. wfinish.
  - unfold Vector.CopyAssignNoRealloc.
    wfield. wfield. do 3 wread. wmem; [|wfinish].
    wfield. wfield. apply wp_bind. apply wp_mem; [by frame| |wfinish].
    intros ? ? [? ?]. wfield. eapply wp_eq; [ffield|]. wfinish.
Qed.

(** *** The invariant *)

Lemma invariant_intro σ this x :
  vecs σ !! this = Some x → size_ x ≤ capacity_ (data_ x) → invariant σ this.
Proof.
  intros Hx Hle. exists (size_ x), (capacity_ (data_ x)).
  split_and!; [by apply get_size_eq| |lia|done].
  unfold Vector.Capacity, RawMemory.Capacity. by rewrite (get_capacity_data _ _ x).
Qed.

Lemma wf_invariant σ this : wf σ this → invariant σ this.
Proof.
  intros (p & cap & xs & Hv & Hle & _). by eapply invariant_intro.
Qed.

(** The invariant depends on the member objects only. *)
Lemma invariant_same σ σ' this :
  vecs σ' = vecs σ → invariant σ this → invariant σ' this.
Proof.
  intros Heq (n & c & Hn & Hc & Hle).
  unfold Vector.Size, Vector.Capacity, RawMemory.Capacity, get_size, get_capacity,
    bind, get_raw, ret in *.
  rewrite <-Heq in Hn, Hc.
  destruct (vecs σ' !! this) as [x|] eqn:Hx; [|done].
  simplify_eq. eapply invariant_intro; [done|lia].
Qed.

Lemma invariant_insert_ne σ σ' this v x :
  vecs σ' = <[this:=x]> (vecs σ) → v ≠ this → invariant σ v → invariant σ' v.
Proof.
  intros Heq Hne (n & c & Hn & Hc & Hle).
  unfold Vector.Size, Vector.Capacity, RawMemory.Capacity, get_size, get_capacity,
    bind, get_raw, ret in *.
  destruct (vecs σ !! v) as [y|] eqn:Hy; [|done]. simplify_eq.
  apply (invariant_intro _ _ y); [|lia].
  by rewrite Heq, lookup_insert_ne.
Qed.

Lemma invariant_insert σ σ' this x :
  vecs σ' = <[this:=x]> (vecs σ) → size_ x ≤ capacity_ (data_ x) → invariant σ' this.
Proof.
  intros Heq Hle. apply (invariant_intro _ _ x); [|done].
  by rewrite Heq, lookup_insert_eq.
Qed.

Lemma grow_room σ this p cap xs :
  is_vec σ this p cap xs →
  size_inc (length xs) ≤ (if length xs =? cap then grown (length xs) else cap).
Proof.
  intros Hvec. rewrite (size_inc_vec _ _ _ _ _ Hvec).
  pose proof Hvec as (_ & Hle & _).
  destruct (Nat.eqb_spec (length xs) cap) as [->|Hne]; [|lia].
  destruct (grown_spec _ _ _ _ _ Hvec) as [-> _]. lia.
Qed.

Lemma EmplaceBack_invariant {A} (make : A → A * (exn + T)) σ this args :
  wf σ this →
  wp (Vector.EmplaceBack make this args ;; ret tt) σ
    (λ _ σ', Forall (invariant σ') [this]) (λ _ σ', Forall (invariant σ') [this]).
Proof.
  intros Hwf. pose proof Hwf as (p & cap & xs & Hvec).
  pose proof Hvec as (Hv & _).
  apply wp_bind. eapply wp_mono; [exact (EmplaceBack_fields make _ _ args _ _ _ Hv)| |].
  - intros _ σ' (p' & Hv' & _). apply wp_ret. apply Forall_singleton.
    eapply invariant_insert; [exact Hv'|]. simpl. by eapply grow_room.
  - intros _ σ' [Hv' _]. apply Forall_singleton.
    by apply (invariant_same σ), wf_invariant.
Qed.

Lemma Emplace_invariant {A} (make : A → A * (exn + T)) σ this pos args :
  wf σ this →
  wp (Vector.Emplace make this pos args ;; ret tt) σ
    (λ _ σ', Forall (invariant σ') [this]) (λ _ σ', Forall (invariant σ') [this]).
Proof.
  intros Hwf. pose proof Hwf as (p & cap & xs & Hvec).
  pose proof Hvec as (Hv & _).
  apply wp_bind. eapply wp_mono; [exact (Emplace_fields make _ _ pos args _ _ _ Hv)| |].
  - intros _ σ' (p' & Hv' & _). apply wp_ret. apply Forall_singleton.
    eapply invariant_insert; [exact Hv'|]. simpl. by eapply grow_room.
  - intros _ σ' [Hv' _]. apply Forall_singleton.
    by apply (invariant_same σ), wf_invariant.
Qed.

End Frame.

(** ** [Emplace] on an empty array *)

Section EmplaceEmpty.
Context `{Platform} {T : Type} `{Element T}.
Implicit Types (σ : state T) (xs ys : list T).

Lemma Emplace_empty_abort {A} (make : A → A * (exn + T)) σ this p cap args :
  NDEBUG = false → is_vec σ this p cap [] →
  Vector.Emplace make this p args σ = Abort.
Proof.
  intros Hdbg (Hv & _ & _ & Hb).
  unfold Vector.Emplace, Vector.begin, Vector.end_, RawMemory.GetAddress.
  mstep. rewrite !bind_assoc. do 2 mstep. rewrite bind_ret_l.
  assert (ptr_le p p && ptr_lt p (ptr_add p 0) = false) as ->.
  { destruct p as [|b off]; [done|]. destruct Hb as [-> _].
    unfold ptr_le, ptr_lt. simpl. rewrite bool_decide_eq_true_2 by done. done. }
  unfold assert. rewrite Hdbg. done.
Qed.

Lemma Emplace_empty_in_place {A} (make : A → A * (exn + T)) σ this b cap args :
  NDEBUG = true → is_vec σ this (Ptr b 0) cap [] → 0 < cap →
  Vector.Emplace make this (Ptr b 0) args σ
  = match (make args).2 with
    | inl e => Thrown e σ
    | inr _ =>
        match (make (make args).1).2 with
        | inl e => Thrown e σ
        | inr v =>
            Done (Ptr b 0)
              (mkState (<[b:=vec_cells cap [v]]> (blocks σ))
                 (<[this:=mkVector (mkRawMemory (Ptr b 0) cap) 1]> (vecs σ))
                 (raws σ) (leaked σ))
        end
    end.
Proof.
  intros Hndebug Hvec Hcap.
  pose proof Hvec as (Hv & _ & _ & _ & Hb).
  pose proof (size_inc_vec _ _ _ _ _ Hvec) as Hinc.
  unfold Vector.Emplace, Vector.begin, Vector.end_, Vector.Capacity,
    RawMemory.GetAddress, RawMemory.Capacity.
  mstep. rewrite !bind_assoc. do 2 mstep. rewrite bind_ret_l.
  unfold assert at 1. rewrite Hndebug. rewrite bind_ret_l.
  mstep. rewrite (bind_done _ _ _ _ _ (ptr_diff_same σ b 0 0 (le_n 0))). simpl.
  do 2 mstep. change (match cap with 0 => true | S _ => false end) with (0 =? cap).
  destruct (Nat.eqb_spec 0 cap) as [|_]; [lia|].
  destruct (make args).2 as [e|tmp]; [done|].
  mstep. rewrite !bind_assoc.
  erewrite bind_done by (eapply plus_data; [lookup_tac | simpl; lia]). simpl.
  unfold Vector.construct_from at 1.
  destruct (make (make args).1).2 as [e|v]; [done|].
  destruct (vec_cells_snoc cap [] v Hcap) as [Hc0 Hc1]. simpl in Hc0, Hc1.
  rewrite !bind_assoc. rewrite Hc0 in Hb.
  erewrite bind_done.
  2:{ eapply (placement_new_app _ _ _ []); [exact Hb|]. done. }
  rewrite !bind_ret_l.
  do 2 mstep. mstep. unfold ret. simpl in Hinc. rewrite Hinc.
  f_equal. rewrite Hc1. state_eq_tac.
Qed.

End EmplaceEmpty.


(** * The claims *)

Section Claims.
Context `{Platform} {T : Type} `{Element T}.
Implicit Types (σ : state T) (xs ys : list T).

(** C2, as amended.  [EmplaceBack] on an array at full capacity
    constructs the new element before any element is relocated: when
    that construction throws, the store is exactly as before.  When the
    relocation throws, the new element has been destroyed and the new
    block released, the exception propagates, and length and capacity
    are as before; the contents are as before when the elements are
    relocated by copy, while a move-only type whose move constructor
    throws leaves the elements already relocated in their moved-from
    state.  When nothing throws, the array has capacity
    [max 1 (2 * cap)] and the new element after the old ones.  The same
    holds of [PushBack] of an lvalue and of an rvalue, whose new element
    is made by the copy and by the move constructor. *)
Theorem EmplaceBack_full_guarantee {A} (make : A → A * (exn + T)) σ this p cap xs args :
  is_vec σ this p cap xs → length xs = cap →
  let guarantee (made : exn + T) (r : outcome (state T) unit) :=
    match r with
    | Done _ σ' =>
        ∃ v b', made = inr v ∧
                is_vec σ' this (Ptr b' 0) (1 `max` (2 * cap)) (xs ++ [v])
    | Thrown e σ' =>
        (e = bad_alloc ∧ σ' = σ) ∨
        (made = inl e ∧ σ' = σ) ∨
        (∃ v, made = inr v ∧
              is_nothrow_move_constructible = false ∧
              (relocate_run xs).2 = Some e ∧
              σ' = with_cells p (vec_cells cap (relocate_run xs).1) σ ∧
              (is_copy_constructible = true → σ' = σ))
    | Abort | Undef => False
    end in
  match Vector.EmplaceBack make this args σ with
  | Done q σ' =>
      ∃ v b', (make args).2 = inr v ∧ q = Ptr b' cap ∧
              is_vec σ' this (Ptr b' 0) (1 `max` (2 * cap)) (xs ++ [v])
  | Thrown e σ' =>
      (e = bad_alloc ∧ σ' = σ) ∨
      ((make args).2 = inl e ∧ σ' = σ) ∨
      (∃ v, (make args).2 = inr v ∧
            is_nothrow_move_constructible = false ∧
            (relocate_run xs).2 = Some e ∧
            σ' = with_cells p (vec_cells cap (relocate_run xs).1) σ ∧
            (is_copy_constructible = true → σ' = σ))
  | Abort | Undef => False
  end ∧
  (∀ value, guarantee (Vector.by_copy value).2 (Vector.PushBack_copy this value σ)) ∧
  (∀ value, guarantee (Vector.by_move value).2 (Vector.PushBack_move this value σ)).
Proof.
  intros Hvec Hfull guarantee.
  assert (Hmain : ∀ B (mk : B → B * (exn + T)) a,
    match Vector.EmplaceBack mk this a σ with
    | Done q σ' =>
        ∃ v b', (mk a).2 = inr v ∧ q = Ptr b' cap ∧
                is_vec σ' this (Ptr b' 0) (1 `max` (2 * cap)) (xs ++ [v])
    | Thrown e σ' =>
        (e = bad_alloc ∧ σ' = σ) ∨
        ((mk a).2 = inl e ∧ σ' = σ) ∨
        (∃ v, (mk a).2 = inr v ∧
              is_nothrow_move_constructible = false ∧
              (relocate_run xs).2 = Some e ∧
              σ' = with_cells p (vec_cells cap (relocate_run xs).1) σ ∧
              (is_copy_constructible = true → σ' = σ))
    | Abort | Undef => False
    end).
  { intros B mk a. rewrite (EmplaceBack_full mk _ _ _ _ _ _ Hvec Hfull). cbv zeta.
    pose proof Hvec as (Hv & Hle & _ & Hb).
    destruct (N.leb_spec (N.of_nat (1 `max` (2 * cap) * sizeof_T)) heap_limit) as [Hok|Hbad];
      [|by left].
    destruct (mk a).2 as [e|v] eqn:Hmk; [right; by left|].
    destruct (relocate_run xs).2 as [e|] eqn:Hrun.
    - right. right. exists v.
      assert (Hnt : is_nothrow_move_constructible = false).
      { destruct is_nothrow_move_constructible eqn:Hnt; [|done].
        unfold relocate_run in Hrun. rewrite Hnt in Hrun. simpl in Hrun.
        by rewrite (move_run_nothrow xs Hnt) in Hrun. }
      repeat split; try done.
      intros Hcp. unfold relocate_run. rewrite Hnt, Hcp. simpl.
      by rewrite (with_cells_id _ _ _ _ Hb).
    - exists v, (fresh (dom (blocks σ))). repeat split; simpl; try done.
      + rewrite lookup_insert_eq. do 3 f_equal. rewrite length_app. simpl. lia.
      + rewrite length_app. simpl. lia.
      + by rewrite lookup_insert_eq. }
  split; [apply Hmain|].
  split; intros value.
  - specialize (Hmain T Vector.by_copy value).
    unfold guarantee, Vector.PushBack_copy, bind.
    destruct (Vector.EmplaceBack Vector.by_copy this value σ) as [q σ'|e σ'| |]; try done.
    destruct Hmain as (v & b' & Hmk & _ & Hvec'). by exists v, b'.
  - specialize (Hmain T Vector.by_move value).
    unfold guarantee, Vector.PushBack_move, bind.
    destruct (Vector.EmplaceBack Vector.by_move this value σ) as [q σ'|e σ'| |]; try done.
    destruct Hmain as (v & b' & Hmk & _ & Hvec'). by exists v, b'.
Qed.

(** C5, as amended: for a request whose byte size [n * sizeof(T)] fits
    [size_t].  [Reserve n] does nothing when [n <= cap].  Otherwise, when it
    returns, the array has a new block of capacity exactly [n], the same
    length and the same elements in order; the elements are transferred
    by move when move construction cannot throw (no exception but
    [bad_alloc] is possible), otherwise by copy when copy construction
    is available (an exception of a copy leaves the store exactly as
    before), otherwise by a move that may throw. *)
Theorem Reserve_correct σ this p cap xs n :
  is_vec σ this p cap xs → fits (n * sizeof_T) →
  (n ≤ cap → Vector.Reserve this n σ = Done tt σ) ∧
  (cap < n →
     match Vector.Reserve this n σ with
     | Done _ σ' =>
         ∃ b', blocks σ !! b' = None ∧
               is_vec σ' this (Ptr b' 0) n xs ∧
               blocks σ' = <[b':=vec_cells n xs]> (release p (blocks σ)) ∧
               leaked σ' = leaked σ ∧
               (if is_nothrow_move_constructible then True
                else if is_copy_constructible then copy_run xs = None
                else (move_run xs).2 = None)
     | Thrown e σ' =>
         (e = bad_alloc ∧ σ' = σ) ∨
         (is_nothrow_move_constructible = false ∧ is_copy_constructible = true ∧
          copy_run xs = Some e ∧ σ' = σ) ∨
         (is_nothrow_move_constructible = false ∧ is_copy_constructible = false ∧
          (move_run xs).2 = Some e ∧
          σ' = with_cells p (vec_cells cap (move_run xs).1) σ)
     | Abort | Undef => False
     end).
Proof.
  intros Hvec Hfit. split; [by eapply Reserve_noop|]. intros Hlt.
  destruct (N.leb_spec (N.of_nat (n * sizeof_T)) heap_limit) as [Hok|Hbad].
  2:{ rewrite (Reserve_bad_alloc _ _ _ _ _ _ Hvec Hlt Hfit Hbad). by left. }
  rewrite (Reserve_grow _ _ _ _ _ _ Hvec Hlt Hfit Hok). cbv zeta.
  pose proof Hvec as (Hv & Hle & _ & Hb).
  pose proof (fresh_block_None σ) as Hb'.
  unfold reserve_run.
  destruct is_nothrow_move_constructible eqn:Hnt.
  - rewrite (move_run_nothrow xs Hnt).
    exists (fresh (dom (blocks σ))). repeat split; simpl; try done.
    + by rewrite lookup_insert_eq.
    + lia.
    + by rewrite lookup_insert_eq.
  - destruct is_copy_constructible eqn:Hcp; simpl.
    + destruct (copy_run xs) as [e|] eqn:Hrun.
      * right. left. repeat split; try done. by rewrite (with_cells_id _ _ _ _ Hb).
      * exists (fresh (dom (blocks σ))). repeat split; simpl; try done.
        -- by rewrite lookup_insert_eq.
        -- lia.
        -- by rewrite lookup_insert_eq.
    + destruct (move_run xs).2 as [e|] eqn:Hrun.
      * right. right. by repeat split.
      * exists (fresh (dom (blocks σ))). repeat split; simpl; try done.
        -- by rewrite lookup_insert_eq.
        -- lia.
        -- by rewrite lookup_insert_eq.
Qed.

(** C7.  [Erase] at index [i] of an array [xs], when it returns, gives
    the iterator to position [i]; the array holds [delete i xs]: one
    element less, the elements before [i] unchanged, those after [i] one
    index down, moved there by move assignment; the last slot is
    destroyed; the iterator is [end()] when the last element was
    erased.  It never fails otherwise than by an exception of a move
    assignment. *)
Theorem Erase_correct σ this b cap xs i x :
  is_vec σ this (Ptr b 0) cap xs → xs !! i = Some x →
  match Vector.Erase this (Ptr b i) σ with
  | Done q σ' =>
      q = Ptr b i ∧
      is_vec σ' this (Ptr b 0) cap (delete i xs) ∧
      length (delete i xs) = length xs - 1 ∧
      (∀ j, j < i → delete i xs !! j = xs !! j) ∧
      (∀ j, i ≤ j → delete i xs !! j = xs !! S j) ∧
      (S i = length xs → Vector.end_ this σ' = Done q σ') ∧
      (∃ cs, blocks σ' !! b = Some cs ∧ cs !! (length xs - 1) = Some Raw) ∧
      (shift_run x (drop (S i) xs)).2 = None
  | Thrown e σ' => (shift_run x (drop (S i) xs)).2 = Some e
  | Abort | Undef => False
  end.
Proof.
  intros Hvec Hi.
  pose proof (take_drop_middle xs i x Hi) as Hxs.
  pose proof (lookup_lt_Some _ _ _ Hi) as Hlt.
  assert (Hl1 : length (take i xs) = i) by (rewrite length_take; lia).
  rewrite <-Hxs in Hvec.
  replace (Vector.Erase this (Ptr b i) σ)
    with (Vector.Erase this (Ptr b (length (take i xs))) σ) by (by rewrite Hl1).
  rewrite (Erase_eval _ _ _ _ _ _ _ Hvec).
  destruct (shift_run x (drop (S i) xs)).2 as [e|] eqn:Hrun; [done|].
  rewrite <-delete_take_drop.
  pose proof Hvec as (Hv & Hle & Hlim & _ & Hb).
  rewrite Hxs in Hle.
  assert (Hld : length (delete i xs) = length xs - 1).
  { rewrite length_delete by done. lia. }
  repeat split; simpl; try done.
  - by rewrite Hl1.
  - by rewrite lookup_insert_eq.
  - lia.
  - by rewrite lookup_insert_eq.
  - intros j Hj. by apply list_lookup_delete_lt.
  - intros j Hj. by apply list_lookup_delete_ge.
  - intros Hlast. unfold Vector.end_, RawMemory.GetAddress.
    do 2 mstep. unfold ret. rewrite Hl1. do 2 f_equal. lia.
  - eexists. split; [by rewrite lookup_insert_eq|]. unfold vec_cells.
    rewrite lookup_app_r by (rewrite length_fmap; lia).
    rewrite length_fmap, Hld. apply lookup_replicate_2. lia.
Qed.

(** C8.  Copy assignment from another array [rhs].  When [rhs] is
    longer than the capacity, a copy of [rhs] is built and swapped in: on
    success the array has a new block holding the elements of [rhs], and
    an exception leaves the store exactly as before.  Otherwise the
    buffer and capacity are kept: the common prefix is assigned
    element by element, then the surplus tail is destroyed or the
    suffix of [rhs] is copy-constructed into the raw tail.  On success,
    in both cases, length and contents are those of [rhs], and [rhs] is
    unchanged. *)
Theorem copy_assign_correct σ this p cap xs rhs pr capr ys :
  this ≠ rhs → is_vec σ this p cap xs → is_vec σ rhs pr capr ys → apart pr p →
  (cap < length ys →
     match Vector.copy_assign this rhs σ with
     | Done _ σ' =>
         ∃ b', blocks σ !! b' = None ∧
               is_vec σ' this (Ptr b' 0) (length ys) ys ∧
               is_vec σ' rhs pr capr ys ∧
               leaked σ' = leaked σ
     | Thrown e σ' => copy_run ys = Some e ∧ σ' = σ
     | Abort | Undef => False
     end) ∧
  (length ys ≤ cap →
     let c := length xs `min` length ys in
     match Vector.copy_assign this rhs σ with
     | Done _ σ' =>
         is_vec σ' this p cap ys ∧
         is_vec σ' rhs pr capr ys ∧
         leaked σ' = leaked σ ∧
         (copy_assign_run (take c xs) (take c ys)).2 = None ∧
         (length xs ≤ length ys → copy_run (drop (length xs) ys) = None)
     | Thrown e σ' =>
         vecs σ' = vecs σ ∧
         ((copy_assign_run (take c xs) (take c ys)).2 = Some e ∨
          (length xs ≤ length ys ∧ copy_run (drop (length xs) ys) = Some e))
     | Abort | Undef => False
     end).
Proof.
  intros Hne Hvec Hvecr Hap.
  pose proof Hvec as (Hv & Hle & Hlim & Hb).
  pose proof Hvecr as (Hvr & Hler & Hlimr & Hbr).
  pose proof (fresh_block_None σ) as Hb'.
  split.
  - intros Hlt. rewrite (copy_assign_realloc _ _ _ _ _ _ _ _ _ Hne Hvec Hvecr Hap Hlt).
    cbv zeta. destruct (copy_run ys) as [e|] eqn:Hrun; [done|].
    exists (fresh (dom (blocks σ))).
    assert (Hlimy : (N.of_nat (length ys * sizeof_T) <= heap_limit)%N).
    { assert (length ys * sizeof_T ≤ capr * sizeof_T) by nia. lia. }
    repeat split; simpl; try done.
    + by rewrite lookup_insert_eq.
    + by rewrite lookup_insert_eq.
    + by rewrite lookup_insert_ne.
    + destruct pr as [|br offr]; [exact Hbr|]. destruct Hbr as [-> Hbr].
      split; [done|]. simpl.
      rewrite lookup_insert_ne by congruence.
      destruct p as [|b off]; [done|]. simpl.
      rewrite lookup_delete_ne; [done|]. intros ->. by eapply Hap.
  - intros Hm. cbv zeta.
    rewrite (copy_assign_noalloc _ _ _ _ _ Hne Hv Hvr) by done.
    rewrite (CopyAssignNoRealloc_eval _ _ _ _ _ _ _ _ _ Hne Hvec Hvecr Hap Hm).
    cbv zeta.
    set (c := length xs `min` length ys).
    assert (Hdone : ∀ σ',
      σ' = set_vecs (insert this (mkVector (mkRawMemory p cap) (length ys)))
             (with_cells p (vec_cells cap ys) σ) →
      is_vec σ' this p cap ys ∧ is_vec σ' rhs pr capr ys ∧ leaked σ' = leaked σ).
    { intros σ' ->. repeat split; simpl; try done.
      - by rewrite lookup_insert_eq.
      - eapply (buffer_holds_blocks (with_cells p (vec_cells cap ys) σ)); [done|].
        apply buffer_holds_with_cells; [|done|].
        + intros b off ->. by destruct Hb.
        + intros ->. exact Hb.
      - rewrite lookup_insert_ne by done. by rewrite vecs_with_cells.
      - eapply (buffer_holds_blocks (with_cells p (vec_cells cap ys) σ)); [done|].
        by apply buffer_holds_apart.
      - by rewrite leaked_with_cells. }
    destruct (copy_assign_run (take c xs) (take c ys)).2 as [e|] eqn:Hrun.
    { split; [by rewrite vecs_with_cells | by left]. }
    destruct (Nat.ltb_spec (length ys) (length xs)) as [Hlt|Hge].
    { destruct (Hdone _ eq_refl) as (? & ? & ?). split_and!; try done. intros. lia. }
    destruct (copy_run (drop (length xs) ys)) as [e|] eqn:Hcr.
    { split; [by rewrite vecs_with_cells | by right]. }
    destruct (Hdone _ eq_refl) as (? & ? & ?). by split_and!.
Qed.

(** C9, as amended.  Move construction of a [RawMemory] gives the block
    of the source to the new object and leaves the source null with
    capacity 0.  Move assignment exchanges the blocks: the destination
    gets the block of the source and the source gets the block the
    destination had (nothing happens when both are one object).  Neither
    touches the blocks themselves. *)
Theorem RawMemory_moves σ a a' m m' :
  a ≠ a' → raws σ !! a' = Some m' →
  (RawMemory.move_ctor (RawObj a) (RawObj a') σ
   = Done tt (set_raws (λ R, <[a':=mkRawMemory Null 0]> (<[a:=m']> R)) σ)) ∧
  (raws σ !! a = Some m →
   RawMemory.move_assign (RawObj a) (RawObj a') σ
   = Done tt (set_raws (λ R, <[a':=m]> (<[a:=m']> R)) σ)) ∧
  RawMemory.move_assign (RawObj a') (RawObj a') σ = Done tt σ.
Proof.
  intros Hne Ha'. split; [by apply RawMemory_move_ctor_obj|]. split.
  - intros Ha. unfold RawMemory.move_assign.
    rewrite bool_decide_eq_false_2 by congruence. simpl.
    by apply RawMemory_Swap_obj_obj.
  - unfold RawMemory.move_assign. by rewrite bool_decide_eq_true_2.
Qed.

(** C10.  Self-assignment, by copy or by move, leaves the whole store,
    and so the length, capacity and contents of the array, unchanged. *)
Theorem self_assignment σ this :
  Vector.copy_assign this this σ = Done tt σ ∧
  Vector.move_assign this this σ = Done tt σ.
Proof. split; [apply copy_assign_self | apply move_assign_self]. Qed.

(** C3.  [Emplace] at [begin()] of an empty array.  With assertions
    compiled in, the call stops at the assertion
    [pos >= begin() && pos < end()], since [begin() == end()].  With
    [NDEBUG], on an empty array that has capacity, the temporary is
    constructed from the arguments and then the element is constructed
    in place from what the first construction left of them; the length
    becomes 1 and the iterator returned is [begin()]. *)
Theorem Emplace_on_empty {A} (make : A → A * (exn + T)) σ this p cap args :
  is_vec σ this p cap [] →
  (NDEBUG = false → Vector.Emplace make this p args σ = Abort) ∧
  (NDEBUG = true → 0 < cap →
   ∃ b, p = Ptr b 0 ∧
        Vector.Emplace make this p args σ
        = match (make args).2 with
          | inl e => Thrown e σ
          | inr _ =>
              match (make (make args).1).2 with
              | inl e => Thrown e σ
              | inr v =>
                  Done p
                    (mkState (<[b:=vec_cells cap [v]]> (blocks σ))
                       (<[this:=mkVector (mkRawMemory p cap) 1]> (vecs σ))
                       (raws σ) (leaked σ))
              end
          end).
Proof.
  intros Hvec. split; [intros Hdbg; by eapply Emplace_empty_abort|].
  intros Hndebug Hcap. pose proof Hvec as (_ & _ & _ & Hb).
  destruct p as [|b off]; [simpl in Hb; lia|]. destruct Hb as [-> _].
  exists b. split; [done|]. by apply Emplace_empty_in_place.
Qed.

Local Ltac inv_tac Hv' :=
  eapply invariant_intro;
  [ rewrite Hv';
    repeat first [ rewrite lookup_insert_eq | rewrite lookup_insert_ne by done ];
    first [ reflexivity | eassumption ]
  | simpl; try lia ].

(** C4.  When [EmplaceBack], [PushBack] (of an lvalue or of an rvalue),
    [Emplace] or [Insert] (of an lvalue or of an rvalue) is called on a
    full array and returns, the capacity is
    [max(1, 2 * capacity before)]. *)
Theorem growth_policy {A} (make : A → A * (exn + T)) σ this p cap xs args value pos σ' :
  is_vec σ this p cap xs → length xs = cap →
  (∃ q, Vector.EmplaceBack make this args σ = Done q σ') ∨
  Vector.PushBack_copy this value σ = Done tt σ' ∨
  Vector.PushBack_move this value σ = Done tt σ' ∨
  (∃ q, Vector.Emplace make this pos args σ = Done q σ') ∨
  (∃ q, Vector.Insert_copy this pos value σ = Done q σ') ∨
  (∃ q, Vector.Insert_move this pos value σ = Done q σ') →
  Vector.Capacity this σ' = Done (1 `max` (2 * cap)) σ'.
Proof.
  intros Hvec Hfull Hrun.
  destruct (grown_spec _ _ _ _ _ Hvec) as [Hg _].
  pose proof Hvec as (Hv & _).
  assert (Hback : ∀ B (mk : B → B * (exn + T)) a q,
            Vector.EmplaceBack mk this a σ = Done q σ' →
            ∃ p', vecs σ' = <[this:=mkVector (mkRawMemory p' (grown cap)) (size_inc cap)]>
                              (vecs σ)).
  { intros B mk a q Hq.
    pose proof (EmplaceBack_fields mk _ _ a _ _ _ Hv) as Hwp.
    unfold wp in Hwp. rewrite Hq, Hfull, Nat.eqb_refl in Hwp.
    destruct Hwp as (p' & Hv' & _). by exists p'. }
  assert (Hins : ∀ B (mk : B → B * (exn + T)) a q,
            Vector.Emplace mk this pos a σ = Done q σ' →
            ∃ p', vecs σ' = <[this:=mkVector (mkRawMemory p' (grown cap)) (size_inc cap)]>
                              (vecs σ)).
  { intros B mk a q Hq.
    pose proof (Emplace_fields mk _ _ pos a _ _ _ Hv) as Hwp.
    unfold wp in Hwp. rewrite Hq, Hfull, Nat.eqb_refl in Hwp.
    destruct Hwp as (p' & Hv' & _). by exists p'. }
  assert (∃ p', vecs σ' = <[this:=mkVector (mkRawMemory p' (grown cap)) (size_inc cap)]>
                            (vecs σ)) as (p' & Hv').
  { destruct Hrun as [[q Hrun]|[Hrun|[Hrun|[[q Hrun]|[[q Hrun]|[q Hrun]]]]]].
    - by eapply Hback.
    - unfold Vector.PushBack_copy, bind in Hrun.
      destruct (Vector.EmplaceBack Vector.by_copy this value σ) as [q σ1| | |] eqn:Hq;
        try discriminate.
      injection Hrun as <-. by eapply Hback.
    - unfold Vector.PushBack_move, bind in Hrun.
      destruct (Vector.EmplaceBack Vector.by_move this value σ) as [q σ1| | |] eqn:Hq;
        try discriminate.
      injection Hrun as <-. by eapply Hback.
    - by eapply Hins.
    - by eapply Hins.
    - by eapply Hins. }
  unfold Vector.Capacity, RawMemory.Capacity.
  erewrite get_capacity_data by (rewrite Hv'; apply lookup_insert_eq).
  simpl. by rewrite Hg.
Qed.

(** C6.  Every operation of the public interface, run where its
    requirements hold, leaves [0 <= Size() <= Capacity()] in each
    [Vector] it worked on: in those that exist when it returns, and, when
    it throws, in those that existed before the call. *)
Theorem invariant_restored {A} (make : A → A * (exn + T)) σ (op : operation T A) :
  ready σ op →
  match run make op σ with
  | Done _ σ' => Forall (invariant σ') (subjects op)
  | Thrown _ σ' => Forall (invariant σ') (operands op)
  | Abort | Undef => True
  end.
Proof.
  intros Hready.
  change (wp (run make op) σ (λ _ σ', Forall (invariant σ') (subjects op))
            (λ _ σ', Forall (invariant σ') (operands op))).
  destruct op as [this|this size|this other|this other|this rhs|this rhs|this other
                 |this n|this n|this x rvalue|this args|this pos x rvalue|this pos args
                 |this pos|this]; simpl in *.
  - eapply wp_mono; [apply ctor_default_fields| |done].
    intros _ σ' [Hv' _]. apply Forall_singleton. inv_tac Hv'.
  - eapply wp_mono; [by apply ctor_size_fields| |done].
    intros _ σ' (p & Hv' & _). apply Forall_singleton. inv_tac Hv'.
  - destruct Hready as (Hnew & Hwf). pose proof Hwf as (q & c & ys & Ho & Hle & _).
    assert (other ≠ this) by congruence.
    eapply wp_mono; [exact (ctor_copy_fields _ _ _ _ _ _ Hnew Ho)| |].
    + intros _ σ' (p & Hv' & _). repeat constructor; inv_tac Hv'.
    + intros _ σ' [Hv' _]. apply Forall_singleton. inv_tac Hv'.
  - destruct Hready as (Hnew & Hwf). pose proof Hwf as (q & c & ys & Ho & Hle & _).
    assert (other ≠ this) by congruence.
    eapply wp_mono; [exact (ctor_move_fields _ _ _ _ _ _ Hnew Ho)| |done].
    intros _ σ' [Hv' _]. repeat constructor; inv_tac Hv'.
  - apply Forall_cons in Hready as [(p & c & xs & Hv & Hle & _) Hready].
    apply Forall_singleton in Hready as (q & d & ys & Hr & Hle' & _).
    destruct (decide (this = rhs)) as [<-|Hne].
    + eapply wp_eq; [by eapply copy_assign_self|].
      repeat constructor; eapply invariant_intro; eauto.
    + assert (rhs ≠ this) by congruence.
      eapply wp_mono; [exact (copy_assign_fields _ _ _ _ _ _ _ _ _ Hne Hv Hr)| |].
      * intros _ σ' (p' & Hv' & _). repeat constructor; inv_tac Hv'.
        destruct (Nat.ltb_spec c (length ys)); lia.
      * intros _ σ' [Hv' _]. repeat constructor; inv_tac Hv'.
  - apply Forall_cons in Hready as [(p & c & xs & Hv & Hle & _) Hready].
    apply Forall_singleton in Hready as (q & d & ys & Hr & Hle' & _).
    eapply wp_mono; [exact (move_assign_fields _ _ _ _ _ Hv Hr)| |done].
    intros _ σ' [Hv' _].
    destruct (decide (this = rhs)) as [<-|Hne]; repeat constructor; inv_tac Hv'.
  - apply Forall_cons in Hready as [(p & c & xs & Hv & Hle & _) Hready].
    apply Forall_singleton in Hready as (q & d & ys & Hr & Hle' & _).
    eapply wp_mono; [exact (Swap_fields _ _ _ _ _ Hv Hr)| |done].
    intros _ σ' [Hv' _].
    destruct (decide (this = other)) as [<-|Hne]; repeat constructor; inv_tac Hv'.
  - apply Forall_singleton in Hready as (p & c & xs & Hv & Hle & _).
    eapply wp_mono; [exact (Reserve_fields _ _ n _ _ _ Hv)| |].
    + intros _ σ' (p' & Hv' & _). apply Forall_singleton. inv_tac Hv'.
    + intros _ σ' [Hv' _]. apply Forall_singleton. inv_tac Hv'.
  - apply Forall_singleton in Hready as (p & c & xs & Hv & Hle & _).
    eapply wp_mono; [exact (Resize_fields _ _ n _ _ _ Hv)| |].
    + intros _ σ' (p' & Hv' & _). apply Forall_singleton. inv_tac Hv'.
      destruct (Nat.ltb_spec (length xs) n); lia.
    + intros _ σ' (p' & c' & Hv' & _ & Hc'). apply Forall_singleton. inv_tac Hv'.
  - rewrite Forall_singleton in Hready.
    unfold Vector.PushBack_move, Vector.PushBack_copy.
    destruct rvalue; by apply EmplaceBack_invariant.
  - rewrite Forall_singleton in Hready. by apply EmplaceBack_invariant.
  - rewrite Forall_singleton in Hready.
    unfold Vector.Insert_move, Vector.Insert_copy.
    destruct rvalue; by apply Emplace_invariant.
  - rewrite Forall_singleton in Hready. by apply Emplace_invariant.
  - destruct Hready as (b & cap & xs & i & (Hv & Hle & _) & -> & Hi).
    apply wp_bind. eapply wp_mono; [exact (Erase_fields _ _ _ _ _ _ Hv)| |].
    + intros _ σ' [Hv' _]. apply wp_ret. apply Forall_singleton. inv_tac Hv'.
      rewrite size_sub_le by lia. lia.
    + intros _ σ' [Hv' _]. apply Forall_singleton. inv_tac Hv'.
  - apply Forall_singleton in Hready as (p & c & xs & Hv & Hle & _).
    eapply wp_mono; [exact (PopBack_fields _ _ _ _ _ Hv)| |].
    + intros _ σ' [Hv' _]. apply Forall_singleton. inv_tac Hv'.
    + intros _ σ' [Hv' _]. apply Forall_singleton. inv_tac Hv'.
Qed.

End Claims.

(** ** Concrete runs *)

Section Runs.
Import Probe.

Local Ltac is_vec_tac := split_and!; [reflexivity | simpl; lia | by vm_compute | by split].

(** C1.  [Insert] into the full array [1; 13] of a type whose move of
    13 throws.  At index 0 the suffix move throws after the new element
    was constructed: the handler destroys [index = 0] elements, so the
    new element 7 is lost with the block, and the element already moved
    is left moved-from.  At index 2 of [1; 13; 5] the prefix move throws:
    the handler destroys two slots that hold no object.  At index 1 of
    [1; 2], inserting 13 whose copy throws, the prefix was moved-from. *)
Theorem Emplace_realloc_exception :
  @Vector.Insert_copy debug nat fragile 0 (Ptr 0 0) 7 (vec0 2 [1; 13])
  = Thrown (elem_exn 13)
      (mkState {[ 0 := [Live 0; Live 13] ]}
         {[ 0 := mkVector (mkRawMemory (Ptr 0 0) 2) 2 ]} ∅ [7]) ∧
  @Vector.Insert_copy debug nat fragile 0 (Ptr 0 2) 7 (vec0 3 [1; 13; 5]) = Undef ∧
  @Vector.Insert_copy debug nat fragile 0 (Ptr 0 1) 13 (vec0 2 [1; 2])
  = Thrown (elem_exn 13)
      (mkState {[ 0 := [Live 0; Live 2] ]}
         {[ 0 := mkVector (mkRawMemory (Ptr 0 0) 2) 2 ]} ∅ []).
Proof. split_and!; by vm_compute. Qed.

(** C2, counterexample.  [PushBack] on the full array [1; 13] of a
    move-only type whose move of 13 throws: the exception propagates and
    the first element is left moved-from. *)
Lemma EmplaceBack_move_only_not_strong :
  is_vec (H := debug) (H0 := move_only) (vec0 2 [1; 13]) 0 (Ptr 0 0) 2 [1; 13] ∧
  ∃ σ', @Vector.PushBack_move debug nat move_only 0 7 (vec0 2 [1; 13])
        = Thrown (elem_exn 13) σ' ∧
        blocks σ' !! 0 = Some [Live 0; Live 13] ∧
        σ' ≠ vec0 2 [1; 13].
Proof.
  split; [is_vec_tac|]. eexists. split; [by vm_compute|].
  split; [by vm_compute|]. intros Heq. by apply (f_equal (λ σ, blocks σ !! 0)) in Heq.
Qed.

Lemma EmplaceBack_full_guarantee_witness :
  is_vec (H := debug) (H0 := text) (vec0 2 [1; 2]) 0 (Ptr 0 0) 2 [1; 2] ∧
  length [1; 2] = 2 ∧
  (∃ σ', @Vector.EmplaceBack debug nat text nat (Vector.by_copy (H0 := text)) 0 7
           (vec0 2 [1; 2]) = Done (Ptr 1 2) σ' ∧
         is_vec (H := debug) (H0 := text) σ' 0 (Ptr 1 0) 4 [1; 2; 7]) ∧
  (∃ σ' b', @Vector.PushBack_copy debug nat text 0 7 (vec0 2 [1; 2]) = Done tt σ' ∧
            is_vec (H := debug) (H0 := text) σ' 0 (Ptr b' 0) 4 [1; 2; 7]).
Proof.
  assert (Hv : is_vec (H := debug) (H0 := text) (vec0 2 [1; 2]) 0 (Ptr 0 0) 2 [1; 2])
    by is_vec_tac.
  split; [exact Hv|]. split; [reflexivity|].
  destruct (@EmplaceBack_full_guarantee debug nat text nat (Vector.by_copy (H0 := text))
              (vec0 2 [1; 2]) 0 (Ptr 0 0) 2 [1; 2] 7 Hv eq_refl) as (Hspec & Hcopy & _).
  split.
  - destruct (@Vector.EmplaceBack debug nat text nat (Vector.by_copy (H0 := text)) 0 7
                (vec0 2 [1; 2])) as [q σ'|e σ'| |] eqn:Hrun; vm_compute in Hrun;
      try discriminate.
    destruct Hspec as (v & b' & Hmk & -> & Hvec').
    vm_compute in Hmk. injection Hmk as <-.
    injection Hrun as <- Hσ.
    exists σ'. split; [done|]. exact Hvec'.
  - specialize (Hcopy 7).
    destruct (@Vector.PushBack_copy debug nat text 0 7 (vec0 2 [1; 2]))
      as [q σ'|e σ'| |] eqn:Hrun; vm_compute in Hrun; try discriminate.
    destruct Hcopy as (v & b' & Hmk & Hvec').
    vm_compute in Hmk. injection Hmk as <-.
    destruct q. exists σ', b'. split; [done|]. exact Hvec'.
Defined.

(** C5, counterexample.  [Reserve] with a request whose byte size does
    not fit [size_t]: on the array [1, 2] of capacity 2,
    [Reserve(2^62 + 1)] with elements of four bytes asks [operator new]
    for 4 bytes, records the capacity [2^62 + 1] and moves the second
    element past the end of the one-element block.  The call does not
    return with the elements transferred into a block of the new
    capacity. *)
Lemma Reserve_request_wraps :
  is_vec (H := debug) (H0 := text) (vec0 2 [1; 2]) 0 (Ptr 0 0) 2 [1; 2] ∧
  (2 < 4611686018427387905 <= SIZE_MAX)%N ∧
  @Vector.Reserve debug nat text 0 (N.to_nat 4611686018427387905) (vec0 2 [1; 2]) = Undef ∧
  ¬ ∃ σ' p', @Vector.Reserve debug nat text 0 (N.to_nat 4611686018427387905) (vec0 2 [1; 2])
             = Done tt σ' ∧
             is_vec (H := debug) (H0 := text) σ' 0 p' (N.to_nat 4611686018427387905) [1; 2].
Proof.
  split; [split_and!; [reflexivity | simpl; lia | by vm_compute | by split]|].
  split; [by vm_compute|].
  assert (Hrun : @Vector.Reserve debug nat text 0 (N.to_nat 4611686018427387905)
                   (vec0 2 [1; 2]) = Undef); [|split; [exact Hrun|]].
  2:{ intros (σ' & p' & Hdone & _). rewrite Hrun in Hdone. discriminate Hdone. }
  apply (Reserve_overrun (H := debug) (H0 := text) _ _ 0 2 [1; 2]).
  - split_and!; [reflexivity | simpl; lia | by vm_compute | by split].
  - lia.
  - reflexivity.
  - unfold wrap. change (sizeof_T (Element := text)) with 4.
    rewrite N2Nat.id, Nat2N.inj_mul, N2Nat.id. by vm_compute.
  - unfold wrap. change (sizeof_T (Element := text)) with 4.
    rewrite Nat2N.inj_mul, N2Nat.id.
    change ((4611686018427387905 * N.of_nat 4) mod (SIZE_MAX + 1))%N with 4%N.
    simpl. lia.
Qed.

Lemma Reserve_correct_witness :
  is_vec (H := debug) (H0 := text) (vec0 2 [1; 2]) 0 (Ptr 0 0) 2 [1; 2] ∧
  fits (4 * 4) ∧
  @Vector.Reserve debug nat text 0 1 (vec0 2 [1; 2]) = Done tt (vec0 2 [1; 2]) ∧
  ∃ σ', @Vector.Reserve debug nat text 0 4 (vec0 2 [1; 2]) = Done tt σ' ∧
        is_vec (H := debug) (H0 := text) σ' 0 (Ptr 1 0) 4 [1; 2].
Proof.
  assert (Hv : is_vec (H := debug) (H0 := text) (vec0 2 [1; 2]) 0 (Ptr 0 0) 2 [1; 2])
    by is_vec_tac.
  assert (Hf : fits (4 * 4)) by (by vm_compute).
  split; [exact Hv|]. split; [exact Hf|]. split.
  - apply (proj1 (@Reserve_correct debug nat text (vec0 2 [1; 2]) 0 (Ptr 0 0) 2 [1; 2] 1
                    Hv ltac:(by vm_compute))). lia.
  - pose proof (proj2 (@Reserve_correct debug nat text (vec0 2 [1; 2]) 0 (Ptr 0 0) 2
                         [1; 2] 4 Hv Hf) ltac:(lia)) as Hspec.
    destruct (@Vector.Reserve debug nat text 0 4 (vec0 2 [1; 2]))
      as [q σ'|e σ'| |] eqn:Hrun; vm_compute in Hrun; try discriminate.
    destruct Hspec as (b' & Hfresh & Hvec' & Hbl & _).
    destruct q. injection Hrun as Hσ.
    exists σ'. split; [done|].
    assert (b' = 1) as ->.
    { destruct Hvec' as (Hv' & _). rewrite <-Hσ in Hv'. vm_compute in Hv'. congruence. }
    exact Hvec'.
Defined.

(** [Insert] at [begin()] of an empty array, run from the construction
    of the array: with assertions compiled in it stops at the assertion,
    whether the array has capacity or not; with [NDEBUG], on an array
    with capacity, an rvalue 7 of a type whose moved-from state is 0 is
    stored as 0. *)
Lemma Emplace_on_empty_runs :
  (Vector.ctor_default 0 ;; b <- Vector.begin 0 ;;
   @Vector.Insert_copy debug nat text 0 b 7) empty_state = Abort ∧
  (Vector.ctor_default 0 ;; @Vector.Reserve debug nat text 0 3 ;; b <- Vector.begin 0 ;;
   @Vector.Insert_copy debug nat text 0 b 7) empty_state = Abort ∧
  (Vector.ctor_default 0 ;; @Vector.Reserve ndebug nat text 0 3 ;; b <- Vector.begin 0 ;;
   @Vector.Insert_move ndebug nat text 0 b 7) empty_state
  = Done (Ptr 0 0)
      (mkState {[ 0 := [Live 0; Raw; Raw] ]}
         {[ 0 := mkVector (mkRawMemory (Ptr 0 0) 3) 1 ]} ∅ []).
Proof. split_and!; by vm_compute. Qed.

Lemma Emplace_on_empty_witness :
  is_vec (H := debug) (H0 := text) (vec0 3 []) 0 (Ptr 0 0) 3 [] ∧
  @Vector.Insert_copy debug nat text 0 (Ptr 0 0) 7 (vec0 3 []) = Abort ∧
  @Vector.Insert_move ndebug nat text 0 (Ptr 0 0) 7 (vec0 3 [])
  = Done (Ptr 0 0)
      (mkState {[ 0 := [Live 0; Raw; Raw] ]}
         {[ 0 := mkVector (mkRawMemory (Ptr 0 0) 3) 1 ]} ∅ []).
Proof.
  assert (Hv : is_vec (H := debug) (H0 := text) (vec0 3 []) 0 (Ptr 0 0) 3 [])
    by is_vec_tac.
  assert (Hv' : is_vec (H := ndebug) (H0 := text) (vec0 3 []) 0 (Ptr 0 0) 3 [])
    by is_vec_tac.
  split; [exact Hv|]. split.
  - exact (proj1 (@Emplace_on_empty debug nat text nat (Vector.by_copy (H0 := text))
                    (vec0 3 []) 0 (Ptr 0 0) 3 7 Hv) eq_refl).
  - destruct (proj2 (@Emplace_on_empty ndebug nat text nat (Vector.by_move (H0 := text))
                       (vec0 3 []) 0 (Ptr 0 0) 3 7 Hv') eq_refl ltac:(lia))
      as (b & Hb & Heq).
    injection Hb as <-. unfold Vector.Insert_move. rewrite Heq. by vm_compute.
Defined.

Lemma Erase_correct_witness :
  is_vec (H := debug) (H0 := text) (vec0 4 [1; 2; 3]) 0 (Ptr 0 0) 4 [1; 2; 3] ∧
  [1; 2; 3] !! 1 = Some 2 ∧
  ∃ σ', @Vector.Erase debug nat text 0 (Ptr 0 1) (vec0 4 [1; 2; 3]) = Done (Ptr 0 1) σ' ∧
        is_vec (H := debug) (H0 := text) σ' 0 (Ptr 0 0) 4 [1; 3].
Proof.
  assert (Hv : is_vec (H := debug) (H0 := text) (vec0 4 [1; 2; 3]) 0 (Ptr 0 0) 4 [1; 2; 3])
    by is_vec_tac.
  split; [exact Hv|]. split; [reflexivity|].
  pose proof (@Erase_correct debug nat text (vec0 4 [1; 2; 3]) 0 0 4 [1; 2; 3] 1 2
                Hv eq_refl) as Hspec.
  destruct (@Vector.Erase debug nat text 0 (Ptr 0 1) (vec0 4 [1; 2; 3]))
    as [q σ'|e σ'| |] eqn:Hrun; vm_compute in Hrun; try discriminate.
  destruct Hspec as (-> & Hvec' & _).
  exists σ'. split; [done|]. exact Hvec'.
Defined.

Lemma copy_assign_correct_witness :
  (0 ≠ 1 ∧
   is_vec (H := debug) (H0 := text) (two_vecs 2 [1; 2] 3 [5; 6; 7]) 0 (Ptr 0 0) 2 [1; 2] ∧
   is_vec (H := debug) (H0 := text) (two_vecs 2 [1; 2] 3 [5; 6; 7]) 1 (Ptr 1 0) 3 [5; 6; 7] ∧
   apart (Ptr 1 0) (Ptr 0 0)) ∧
  (∃ σ', @Vector.copy_assign debug nat text 0 1 (two_vecs 2 [1; 2] 3 [5; 6; 7]) = Done tt σ' ∧
         is_vec (H := debug) (H0 := text) σ' 0 (Ptr 2 0) 3 [5; 6; 7]) ∧
  (∃ σ', @Vector.copy_assign debug nat text 1 0 (two_vecs 2 [1; 2] 3 [5; 6; 7]) = Done tt σ' ∧
         is_vec (H := debug) (H0 := text) σ' 1 (Ptr 1 0) 3 [1; 2]).
Proof.
  set (σ := two_vecs 2 [1; 2] 3 [5; 6; 7]).
  assert (H01 : 0 ≠ 1) by lia.
  assert (H10 : 1 ≠ 0) by lia.
  assert (Hv0 : is_vec (H := debug) (H0 := text) σ 0 (Ptr 0 0) 2 [1; 2]) by is_vec_tac.
  assert (Hv1 : is_vec (H := debug) (H0 := text) σ 1 (Ptr 1 0) 3 [5; 6; 7]) by is_vec_tac.
  assert (Ha : apart (Ptr 1 0) (Ptr 0 0)) by (intros b o o' [= <- <-]; congruence).
  assert (Ha' : apart (Ptr 0 0) (Ptr 1 0)) by (intros b o o' [= <- <-]; congruence).
  split; [by split_and!|]. split.
  - pose proof (proj1 (@copy_assign_correct debug nat text σ 0 (Ptr 0 0) 2 [1; 2] 1 (Ptr 1 0)
                         3 [5; 6; 7] H01 Hv0 Hv1 Ha) ltac:(simpl; lia)) as Hspec.
    destruct (@Vector.copy_assign debug nat text 0 1 σ)
      as [q σ'|e σ'| |] eqn:Hrun; vm_compute in Hrun; try discriminate.
    destruct Hspec as (b' & _ & Hvec' & _).
    destruct q. injection Hrun as Hσ.
    exists σ'. split; [done|].
    assert (b' = 2) as ->.
    { destruct Hvec' as (Hv' & _). rewrite <-Hσ in Hv'. vm_compute in Hv'. congruence. }
    exact Hvec'.
  - pose proof (proj2 (@copy_assign_correct debug nat text σ 1 (Ptr 1 0) 3 [5; 6; 7] 0 (Ptr 0 0)
                         2 [1; 2] H10 Hv1 Hv0 Ha') ltac:(simpl; lia)) as Hspec.
    cbv zeta in Hspec.
    destruct (@Vector.copy_assign debug nat text 1 0 σ)
      as [q σ'|e σ'| |] eqn:Hrun; vm_compute in Hrun; try discriminate.
    destruct Hspec as (Hvec' & _).
    destruct q. exists σ'. split; [done|]. exact Hvec'.
Defined.

(** C9, counterexample.  After a move assignment between two buffers of
    capacities 2 and 3 the source owns the block the destination had: it
    is neither null nor of capacity 0. *)
Lemma RawMemory_move_assign_source_not_null :
  ∃ σ', @RawMemory.move_assign nat (RawObj 0) (RawObj 1) two_buffers = Done tt σ' ∧
        raws σ' !! 1 = Some (mkRawMemory (Ptr 0 0) 2) ∧
        raws σ' !! 1 ≠ Some (mkRawMemory Null 0).
Proof. eexists. split; [by vm_compute|]. split; by vm_compute. Qed.

Lemma RawMemory_moves_witness :
  (0 ≠ 1 ∧ raws two_buffers !! 1 = Some (mkRawMemory (Ptr 1 0) 3)) ∧
  raws two_buffers !! 0 = Some (mkRawMemory (Ptr 0 0) 2) ∧
  @RawMemory.move_assign nat (RawObj 0) (RawObj 1) two_buffers
  = Done tt (set_raws (λ R, <[1:=mkRawMemory (Ptr 0 0) 2]> (<[0:=mkRawMemory (Ptr 1 0) 3]> R))
               two_buffers).
Proof.
  assert (H01 : 0 ≠ 1) by lia.
  assert (H1 : raws two_buffers !! 1 = Some (mkRawMemory (Ptr 1 0) 3)) by reflexivity.
  assert (H0 : raws two_buffers !! 0 = Some (mkRawMemory (Ptr 0 0) 2)) by reflexivity.
  split; [by split|]. split; [done|].
  exact (proj1 (proj2 (@RawMemory_moves nat two_buffers 0 1
           (mkRawMemory (Ptr 0 0) 2) (mkRawMemory (Ptr 1 0) 3) H01 H1)) H0).
Defined.

Lemma growth_policy_witness :
  is_vec (H := debug) (H0 := text) (vec0 2 [1; 2]) 0 (Ptr 0 0) 2 [1; 2] ∧
  length [1; 2] = 2 ∧
  (∃ σ', @Vector.EmplaceBack debug nat text nat (Vector.by_copy (H0 := text)) 0 7
           (vec0 2 [1; 2]) = Done (Ptr 1 2) σ' ∧
         @Vector.Capacity nat 0 σ' = Done 4 σ') ∧
  (∃ σ', @Vector.PushBack_move debug nat text 0 7 (vec0 2 [1; 2]) = Done tt σ' ∧
         @Vector.Capacity nat 0 σ' = Done 4 σ') ∧
  (∃ σ', @Vector.Insert_copy debug nat text 0 (Ptr 0 1) 7 (vec0 2 [1; 2])
         = Done (Ptr 1 1) σ' ∧
         @Vector.Capacity nat 0 σ' = Done 4 σ').
Proof.
  assert (Hv : is_vec (H := debug) (H0 := text) (vec0 2 [1; 2]) 0 (Ptr 0 0) 2 [1; 2])
    by is_vec_tac.
  split; [exact Hv|]. split; [reflexivity|]. split; [|split].
  - destruct (@Vector.EmplaceBack debug nat text nat (Vector.by_copy (H0 := text)) 0 7
                (vec0 2 [1; 2])) as [q σ'|e σ'| |] eqn:Hrun.
    2-4: vm_compute in Hrun; discriminate.
    pose proof (@growth_policy debug nat text nat (Vector.by_copy (H0 := text))
                  (vec0 2 [1; 2]) 0 (Ptr 0 0) 2 [1; 2] 7 7 Null σ' Hv eq_refl
                  (or_introl (ex_intro _ q Hrun))) as Hcap.
    vm_compute in Hrun. injection Hrun as <- _.
    exists σ'. split; [reflexivity|exact Hcap].
  - destruct (@Vector.PushBack_move debug nat text 0 7 (vec0 2 [1; 2]))
      as [q σ'|e σ'| |] eqn:Hrun.
    2-4: vm_compute in Hrun; discriminate.
    destruct q.
    pose proof (@growth_policy debug nat text nat (Vector.by_copy (H0 := text))
                  (vec0 2 [1; 2]) 0 (Ptr 0 0) 2 [1; 2] 7 7 Null σ' Hv eq_refl
                  (or_intror (or_intror (or_introl Hrun)))) as Hcap.
    exists σ'. split; [reflexivity|exact Hcap].
  - destruct (@Vector.Insert_copy debug nat text 0 (Ptr 0 1) 7 (vec0 2 [1; 2]))
      as [q σ'|e σ'| |] eqn:Hrun.
    2-4: vm_compute in Hrun; discriminate.
    pose proof (@growth_policy debug nat text nat (Vector.by_copy (H0 := text))
                  (vec0 2 [1; 2]) 0 (Ptr 0 0) 2 [1; 2] 7 7 (Ptr 0 1) σ' Hv eq_refl
                  (or_intror (or_intror (or_intror (or_intror
                     (or_introl (ex_intro _ q Hrun))))))) as Hcap.
    vm_compute in Hrun. injection Hrun as <- _.
    exists σ'. split; [reflexivity|exact Hcap].
Defined.

Lemma invariant_restored_witness :
  ready (H := debug) (H0 := text) (vec0 2 [1; 2]) (DoResize (A := nat) 0 5) ∧
  ready (H := debug) (H0 := text) (vec0 2 [1; 2]) (DoInsert (A := nat) 0 (Ptr 0 1) 7 false) ∧
  (∃ σ', run (H := debug) (H0 := text) (Vector.by_copy (H0 := text)) (DoResize 0 5)
           (vec0 2 [1; 2]) = Done tt σ' ∧
         Forall (invariant σ') [0] ∧ @Vector.Size nat 0 σ' = Done 5 σ') ∧
  (∃ σ', run (H := debug) (H0 := text) (Vector.by_copy (H0 := text))
           (DoInsert 0 (Ptr 0 1) 7 false) (vec0 2 [1; 2]) = Done tt σ' ∧
         Forall (invariant σ') [0] ∧ @Vector.Size nat 0 σ' = Done 3 σ').
Proof.
  assert (Hv : is_vec (H := debug) (H0 := text) (vec0 2 [1; 2]) 0 (Ptr 0 0) 2 [1; 2])
    by is_vec_tac.
  assert (Hr1 : ready (H := debug) (H0 := text) (vec0 2 [1; 2]) (DoResize (A := nat) 0 5)).
  { apply Forall_singleton. by exists (Ptr 0 0), 2, [1; 2]. }
  assert (Hr2 : ready (H := debug) (H0 := text) (vec0 2 [1; 2])
                  (DoInsert (A := nat) 0 (Ptr 0 1) 7 false)).
  { apply Forall_singleton. by exists (Ptr 0 0), 2, [1; 2]. }
  split; [exact Hr1|]. split; [exact Hr2|]. split.
  - pose proof (@invariant_restored debug nat text nat (Vector.by_copy (H0 := text))
                  (vec0 2 [1; 2]) (DoResize 0 5) Hr1) as Hspec.
    destruct (run (H := debug) (H0 := text) (Vector.by_copy (H0 := text)) (DoResize 0 5)
                (vec0 2 [1; 2])) as [q σ'|e σ'| |] eqn:Hrun;
      vm_compute in Hrun; try discriminate.
    destruct q. injection Hrun as Hσ.
    exists σ'. split; [reflexivity|]. split; [exact Hspec|].
    rewrite <-Hσ. reflexivity.
  - pose proof (@invariant_restored debug nat text nat (Vector.by_copy (H0 := text))
                  (vec0 2 [1; 2]) (DoInsert 0 (Ptr 0 1) 7 false) Hr2) as Hspec.
    destruct (run (H := debug) (H0 := text) (Vector.by_copy (H0 := text))
                (DoInsert 0 (Ptr 0 1) 7 false) (vec0 2 [1; 2])) as [q σ'|e σ'| |] eqn:Hrun;
      vm_compute in Hrun; try discriminate.
    destruct q. injection Hrun as Hσ.
    exists σ'. split; [reflexivity|]. split; [exact Hspec|].
    rewrite <-Hσ. reflexivity.
Defined.

End Runs.

(** * Further properties of the code *)

(** ** Evaluation of the remaining operations *)

Section Further.
Context `{Platform} {T : Type} `{Element T}.
Implicit Types (σ : state T) (xs ys : list T).

Lemma is_vec_room σ this p cap xs :
  is_vec σ this p cap xs → length xs < cap → ∃ b, p = Ptr b 0.
Proof.
  intros (_ & _ & _ & Hb) Hlt. destruct p as [|b off]; [simpl in Hb; lia|].
  destruct Hb as [-> _]. by exists b.
Qed.

(** [PopBack], evaluated. *)
Lemma PopBack_empty σ this p cap :
  is_vec σ this p cap [] → Vector.PopBack this σ = Done tt σ.
Proof.
  intros (Hv & _). unfold Vector.PopBack. by mstep.
Qed.

Lemma PopBack_eval σ this b cap ys x :
  is_vec σ this (Ptr b 0) cap (ys ++ [x]) →
  Vector.PopBack this σ
  = Done tt (mkState (<[b:=vec_cells cap ys]> (blocks σ))
               (<[this:=mkVector (mkRawMemory (Ptr b 0) cap) (length ys)]> (vecs σ))
               (raws σ) (leaked σ)).
Proof.
  intros (Hv & Hle & _ & _ & Hb).
  rewrite length_app in Hv, Hle. simpl in Hv, Hle.
  assert (Hlt : length ys < cap) by lia.
  destruct (vec_cells_snoc cap ys x Hlt) as [Hc0 Hc1]. rewrite Hc1 in Hb.
  unfold Vector.PopBack, RawMemory.GetAddress.
  mstep. destruct (Nat.ltb_spec 0 (length ys + 1)) as [_|]; [|lia].
  do 2 mstep.
  replace (length ys + 1 - 1) with (length ys) by lia.
  erewrite bind_done.
  2:{ eapply destroy_at_app; [exact Hb|]. by rewrite length_fmap. }
  mstep. erewrite set_size_eq by lookup_tac. simpl.
  rewrite size_sub_le by lia.
  replace (length ys + 1 - 1) with (length ys) by lia.
  f_equal. rewrite Hc0. state_eq_tac.
Qed.

Lemma is_vec_updated σ this b cap xs ys B L :
  is_vec σ this (Ptr b 0) cap xs → length ys ≤ cap →
  is_vec (mkState (<[b:=vec_cells cap ys]> B)
            (<[this:=mkVector (mkRawMemory (Ptr b 0) cap) (length ys)]> (vecs σ))
            (raws σ) L) this (Ptr b 0) cap ys.
Proof.
  intros (_ & _ & Hlim & _) Hle. split_and!; simpl; try done.
  - by rewrite lookup_insert_eq.
  - by rewrite lookup_insert_eq.
Qed.

(** [Vector(size)], evaluated. *)
Lemma ctor_size_eval σ this n :
  vecs σ !! this = None → fits (n * sizeof_T) →
  Vector.ctor_size this n σ
  = if n =? 0 then
      Done tt (set_vecs (insert this (mkVector (mkRawMemory Null 0) 0)) σ)
    else if (N.of_nat (n * sizeof_T) <=? heap_limit)%N then
      match (value_run 0 n).2 with
      | Some e => Thrown e σ
      | None =>
          let b' := fresh (dom (blocks σ)) in
          Done tt (mkState (<[b':=Live <$> (value_run 0 n).1]> (blocks σ))
                     (<[this:=mkVector (mkRawMemory (Ptr b' 0) n) n]> (vecs σ))
                     (raws σ) (leaked σ))
      end
    else Thrown bad_alloc σ.
Proof.
  intros Hfresh Hfit.
  unfold Vector.ctor_size, RawMemory.ctor. rewrite bind_assoc.
  destruct (Nat.eqb_spec n 0) as [->|Hnz].
  - unfold RawMemory.Allocate. simpl. rewrite bind_ret_l.
    unfold bind at 1, init_raw.
    unfold on_exception, RawMemory.GetAddress.
    do 2 mstep. unfold ret. f_equal. state_eq_tac.
  - unfold bind at 1. rewrite Allocate_spec by (done || lia).
    destruct (N.leb_spec (N.of_nat (n * sizeof_T)) heap_limit) as [Hok|Hbad]; [|done].
    pose proof (fresh_block_None σ) as Hb'.
    set (b' := fresh (dom (blocks σ))) in *.
    unfold bind at 1, init_raw.
    unfold on_exception, RawMemory.GetAddress.
    do 2 mstep.
    erewrite (uninitialized_value_construct_n_spec n _ b' 0 [] []); [| | done].
    2:{ simpl. rewrite lookup_insert_eq. by rewrite app_nil_r. }
    destruct (value_run 0 n).2 as [e|].
    + unfold Vector.abandon.
      erewrite destroy_data_raw; [| lookup_tac | ].
      2:{ split; [done|]. simpl. rewrite lookup_insert_eq. unfold vec_cells. simpl.
          by rewrite Nat.sub_0_r. }
      f_equal. state_eq_tac.
    + f_equal. state_eq_tac.
Qed.

Lemma is_vec_fresh_block this n xs (B : gmap nat (list (cell T))) V R L b :
  length xs ≤ n → (N.of_nat (n * sizeof_T) <= heap_limit)%N →
  is_vec (mkState (<[b:=vec_cells n xs]> B)
            (<[this:=mkVector (mkRawMemory (Ptr b 0) n) (length xs)]> V) R L)
    this (Ptr b 0) n xs.
Proof.
  intros Hle Hlim. split; [|split; [done|split; [done|split; [done|]]]]; simpl.
  - by rewrite lookup_insert_eq.
  - by rewrite lookup_insert_eq.
Qed.

Lemma is_vec_empty_null this V (B : gmap nat (list (cell T))) R L :
  is_vec (mkState B (<[this:=mkVector (mkRawMemory Null 0) 0]> V) R L) this Null 0 [].
Proof.
  split; [|split; [done|split; [|done]]]; simpl.
  - by rewrite lookup_insert_eq.
  - lia.
Qed.

Lemma vec_cells_full xs : vec_cells (length xs) xs = Live <$> xs.
Proof. unfold vec_cells. rewrite Nat.sub_diag. simpl. by rewrite app_nil_r. Qed.

Lemma ctor_size_outcome σ this n :
  vecs σ !! this = None → fits (n * sizeof_T) →
  match Vector.ctor_size this n σ with
  | Done _ σ' =>
      ∃ p, is_vec σ' this p n (value_run 0 n).1 ∧ (value_run 0 n).2 = None ∧
           leaked σ' = leaked σ ∧
           (n = 0 → p = Null ∧ blocks σ' = blocks σ)
  | Thrown e σ' =>
      σ' = σ ∧ 0 < n ∧
      if (N.of_nat (n * sizeof_T) <=? heap_limit)%N
      then (value_run 0 n).2 = Some e else e = bad_alloc
  | Abort | Undef => False
  end.
Proof.
  intros Hfresh Hfit. rewrite ctor_size_eval by done.
  destruct (Nat.eqb_spec n 0) as [->|Hnz].
  - exists Null. split; [apply is_vec_empty_null|]. by split_and!.
  - destruct (N.leb_spec (N.of_nat (n * sizeof_T)) heap_limit) as [Hok|Hbad].
    2:{ split; [done|]. split; [lia|done]. }
    destruct (value_run 0 n).2 as [e|] eqn:Hrun.
    { split; [done|]. split; [lia|done]. }
    cbv zeta. exists (Ptr (fresh (dom (blocks σ))) 0).
    pose proof (value_run_length 0 n Hrun) as Hlen.
    split.
    { pose proof (is_vec_fresh_block this n (value_run 0 n).1 (blocks σ) (vecs σ)
                    (raws σ) (leaked σ) (fresh (dom (blocks σ)))) as Hv.
      unfold vec_cells in Hv. rewrite Hlen, Nat.sub_diag, app_nil_r in Hv.
      by apply Hv. }
    split; [done|]. split; [done|]. intros ->. done.
Qed.

Lemma ctor_copy_outcome σ this rhs pr capr ys :
  vecs σ !! this = None → is_vec σ rhs pr capr ys →
  match Vector.ctor_copy this rhs σ with
  | Done _ σ' =>
      ∃ p', is_vec σ' this p' (length ys) ys ∧
            is_vec σ' rhs pr capr ys ∧
            apart p' pr ∧
            leaked σ' = leaked σ ∧
            copy_run ys = None
  | Thrown e σ' => copy_run ys = Some e ∧ σ' = σ
  | Abort | Undef => False
  end.
Proof.
  intros Hfresh Hvecr. rewrite (ctor_copy_eval _ _ _ _ _ _ Hfresh Hvecr). cbv zeta.
  pose proof Hvecr as (Hvr & Hler & Hlimr & Hbr).
  assert (Hne : rhs ≠ this) by congruence.
  destruct (copy_run ys) as [e|] eqn:Hrun; [done|].
  pose proof (fresh_block_None σ) as Hb'.
  assert (Hlimy : (N.of_nat (length ys * sizeof_T) <= heap_limit)%N).
  { assert (length ys * sizeof_T ≤ capr * sizeof_T) by nia. lia. }
  destruct (Nat.eqb_spec (length ys) 0) as [Hz|Hnz].
  - exists Null. destruct ys; [|done]. simpl.
    split; [apply is_vec_empty_null|].
    split; [|done].
    split; [simpl; by rewrite lookup_insert_ne|]. done.
  - exists (Ptr (fresh (dom (blocks σ))) 0). simpl.
    split; [by apply is_vec_fresh_block|].
    split.
    { split; [simpl; by rewrite lookup_insert_ne|].
      split; [done|]. split; [done|].
      destruct pr as [|br offr]; [exact Hbr|]. destruct Hbr as [-> Hbr].
      split; [done|]. simpl. rewrite lookup_insert_ne by congruence. done. }
    split; [|done].
    intros b o o' [= <- <-] ->. destruct Hbr as [_ Hbr]. congruence.
Qed.

(** [Vector(Vector&&)], evaluated. *)
Lemma ctor_move_eval σ this other x :
  vecs σ !! this = None → vecs σ !! other = Some x →
  Vector.ctor_move this other σ
  = Done tt (set_vecs (λ V, <[this:=x]> (<[other:=mkVector (mkRawMemory Null 0) 0]> V)) σ).
Proof.
  intros Hfresh Ho. assert (Hne : this ≠ other) by congruence.
  unfold Vector.ctor_move, RawMemory.move_ctor.
  rewrite !bind_assoc. unfold bind at 1, init_raw.
  do 8 mstep. erewrite set_size_eq by lookup_tac. simpl.
  f_equal. destruct x as [[q c] n]. state_eq_tac.
Qed.

Lemma is_vec_swapped σ this other p cap xs q d ys :
  this ≠ other → is_vec σ this p cap xs → is_vec σ other q d ys →
  let σ' := set_vecs (λ V, <[other:=mkVector (mkRawMemory p cap) (length xs)]>
                             (<[this:=mkVector (mkRawMemory q d) (length ys)]> V)) σ in
  is_vec σ' this q d ys ∧ is_vec σ' other p cap xs.
Proof.
  intros Hne (Hv & Hle & Hlim & Hb) (Ho & Hle' & Hlim' & Hb'). cbv zeta. split.
  - split; [simpl; rewrite lookup_insert_ne by done; by rewrite lookup_insert_eq|].
    split; [done|]. split; [done|]. by eapply buffer_holds_blocks.
  - split; [simpl; by rewrite lookup_insert_eq|].
    split; [done|]. split; [done|]. by eapply buffer_holds_blocks.
Qed.

Lemma Swap_twice σ this other x y :
  this ≠ other → vecs σ !! this = Some x → vecs σ !! other = Some y →
  (Vector.Swap this other ;; Vector.Swap this other) σ = Done tt σ.
Proof.
  intros Hne Hv Ho. destruct x as [m1 s1], y as [m2 s2].
  erewrite bind_done by (by eapply Vector_Swap_eval).
  erewrite Vector_Swap_eval; [|done| |].
  2:{ simpl. rewrite lookup_insert_ne by done. by rewrite lookup_insert_eq. }
  2:{ simpl. by rewrite lookup_insert_eq. }
  f_equal. apply state_eq; simpl; try done.
  apply map_eq. intros i.
  destruct (decide (i = other)) as [->|Hio].
  { by rewrite lookup_insert_eq. }
  rewrite lookup_insert_ne by done.
  destruct (decide (i = this)) as [->|Hit].
  { by rewrite lookup_insert_eq. }
  by rewrite !lookup_insert_ne by done.
Qed.

Lemma load_vec σ this p cap xs i x :
  is_vec σ this p cap xs → xs !! i = Some x → load (ptr_add p i) σ = Done x σ.
Proof.
  intros (_ & Hle & _ & Hb) Hi. pose proof (lookup_lt_Some _ _ _ Hi) as Hlt.
  destruct p as [|b off]; [simpl in Hb; lia|]. destruct Hb as [-> Hb]. simpl.
  rewrite <-(take_drop_middle xs i x Hi) in Hb. unfold vec_cells in Hb.
  rewrite fmap_app, <-app_assoc in Hb. simpl in Hb.
  eapply load_app; [exact Hb|]. rewrite length_fmap, length_take. lia.
Qed.

(** The growing branch of [Resize] once the capacity is there. *)
Lemma Resize_fill σ this b cap xs m :
  is_vec σ this (Ptr b 0) cap xs → length xs < m → m ≤ cap →
  ((p <- RawMemory.GetAddress (DataOf this) ;;
    n <- get_size this ;;
    uninitialized_value_construct_n (ptr_add p n) (size_sub m n)) ;;
   set_size this m) σ
  = match (value_run 0 (m - length xs)).2 with
    | Some e => Thrown e σ
    | None =>
        Done tt (mkState (<[b:=vec_cells cap (xs ++ (value_run 0 (m - length xs)).1)]>
                            (blocks σ))
                   (<[this:=mkVector (mkRawMemory (Ptr b 0) cap) m]> (vecs σ))
                   (raws σ) (leaked σ))
    end.
Proof.
  intros (Hv & Hle & Hlim & _ & Hb) Hlt Hm.
  unfold RawMemory.GetAddress. rewrite !bind_assoc. do 2 mstep.
  rewrite size_sub_le by lia.
  assert (Hcells : vec_cells cap xs
                   = (Live <$> xs) ++ replicate (m - length xs) Raw ++ replicate (cap - m) Raw).
  { unfold vec_cells. f_equal. rewrite <-replicate_add. f_equal. lia. }
  rewrite Hcells in Hb.
  unfold bind at 1.
  erewrite (uninitialized_value_construct_n_spec _ _ b _ (Live <$> xs)); [|exact Hb|].
  2:{ by rewrite length_fmap. }
  destruct (value_run 0 (m - length xs)).2 as [e|] eqn:Hrun; [done|].
  pose proof (value_run_length _ _ Hrun) as Hlen.
  erewrite set_size_eq by lookup_tac. simpl.
  f_equal. apply state_eq; simpl; try done.
  - f_equal. unfold vec_cells.
    rewrite fmap_app, <-app_assoc, length_app, Hlen. do 3 f_equal. lia.
Qed.

(** The shrinking branch. *)
Lemma Resize_shrink σ this p cap xs m :
  is_vec σ this p cap xs → m ≤ length xs →
  Vector.Resize this m σ
  = Done tt (set_vecs (insert this (mkVector (mkRawMemory p cap) m))
               (with_cells p (vec_cells cap (take m xs)) σ)).
Proof.
  intros (Hv & Hle & Hlim & Hb) Hm.
  unfold Vector.Resize, RawMemory.GetAddress. mstep.
  destruct (Nat.ltb_spec (length xs) m) as [|_]; [lia|].
  rewrite !bind_assoc. do 2 mstep. rewrite size_sub_le by lia.
  erewrite bind_done by (by eapply destroy_tail_vec).
  erewrite set_size_eq by lookup_tac. done.
Qed.

Lemma Resize_grow_eval σ this p cap xs m :
  is_vec σ this p cap xs → length xs < m →
  Vector.Resize this m σ
  = match Vector.Reserve this m σ with
    | Done _ σ1 =>
        ((p <- RawMemory.GetAddress (DataOf this) ;;
          n <- get_size this ;;
          uninitialized_value_construct_n (ptr_add p n) (size_sub m n)) ;;
         set_size this m) σ1
    | Thrown e σ1 => Thrown e σ1
    | Abort => Abort
    | Undef => Undef
    end.
Proof.
  intros (Hv & _) Hlt. unfold Vector.Resize. mstep.
  destruct (Nat.ltb_spec (length xs) m) as [_|]; [|lia].
  rewrite bind_assoc. unfold bind at 1.
  by destruct (Vector.Reserve this m σ).
Qed.






Lemma is_vec_set_cells σ this b cap xs xs' :
  is_vec σ this (Ptr b 0) cap xs → length xs' = length xs →
  is_vec (set_blocks (insert b (vec_cells cap xs')) σ) this (Ptr b 0) cap xs'.
Proof.
  intros (Hv & Hle & Hlim & _) Hlen.
  split; [simpl; by rewrite Hlen|]. split; [lia|]. split; [done|].
  split; [done|]. simpl. by rewrite lookup_insert_eq.
Qed.






End Further.

(** ** The properties *)

Section Properties.
Context `{Platform} {T : Type} `{Element T}.
Implicit Types (σ : state T) (xs ys : list T).

(** X1.  [EmplaceBack] on an array with spare capacity constructs the
    new element in the first raw slot: buffer and capacity are kept, the
    elements stay where they are, the new element is last, and the
    reference returned designates it.  When the constructor throws, the
    store is exactly as before.  The same holds of [PushBack] of an
    lvalue and of an rvalue, whose new element is made by the copy and
    by the move constructor. *)
Theorem EmplaceBack_with_room {A} (make : A → A * (exn + T)) σ this p cap xs args :
  is_vec σ this p cap xs → length xs < cap →
  let appended (made : exn + T) (r : outcome (state T) unit) :=
    match r with
    | Done _ σ' =>
        ∃ v, made = inr v ∧
             is_vec σ' this p cap (xs ++ [v]) ∧
             load (ptr_add p (length xs)) σ' = Done v σ' ∧
             leaked σ' = leaked σ ∧ raws σ' = raws σ
    | Thrown e σ' => made = inl e ∧ σ' = σ
    | Abort | Undef => False
    end in
  match Vector.EmplaceBack make this args σ with
  | Done q σ' =>
      ∃ v, (make args).2 = inr v ∧ q = ptr_add p (length xs) ∧
           is_vec σ' this p cap (xs ++ [v]) ∧
           load q σ' = Done v σ' ∧
           leaked σ' = leaked σ ∧ raws σ' = raws σ
  | Thrown e σ' => (make args).2 = inl e ∧ σ' = σ
  | Abort | Undef => False
  end ∧
  (∀ value, appended (Vector.by_copy value).2 (Vector.PushBack_copy this value σ)) ∧
  (∀ value, appended (Vector.by_move value).2 (Vector.PushBack_move this value σ)).
Proof.
  intros Hvec Hlt appended.
  assert (Hmain : ∀ B (mk : B → B * (exn + T)) a,
    match Vector.EmplaceBack mk this a σ with
    | Done q σ' =>
        ∃ v, (mk a).2 = inr v ∧ q = ptr_add p (length xs) ∧
             is_vec σ' this p cap (xs ++ [v]) ∧
             load q σ' = Done v σ' ∧
             leaked σ' = leaked σ ∧ raws σ' = raws σ
    | Thrown e σ' => (mk a).2 = inl e ∧ σ' = σ
    | Abort | Undef => False
    end).
  { intros B mk a. destruct (is_vec_room _ _ _ _ _ Hvec Hlt) as [b ->].
    rewrite (EmplaceBack_room mk _ _ _ _ _ _ Hvec Hlt).
    destruct (mk a).2 as [e|v]; [done|].
    exists v. split; [done|]. split; [done|]. split; [|split; [|done]].
    - replace (S (length xs)) with (length (xs ++ [v])) by (rewrite length_app; simpl; lia).
      apply (is_vec_updated σ this b cap xs); [done|]. rewrite length_app. simpl. lia.
    - destruct (vec_cells_snoc cap xs v Hlt) as [_ Hc1].
      eapply load_app; [simpl; by rewrite lookup_insert_eq, Hc1|].
      by rewrite length_fmap. }
  split; [apply Hmain|].
  split; intros value.
  - specialize (Hmain T Vector.by_copy value).
    unfold appended, Vector.PushBack_copy, bind.
    destruct (Vector.EmplaceBack Vector.by_copy this value σ) as [q σ'|e σ'| |]; try done.
    destruct Hmain as (v & Hmk & -> & Hrest). by exists v.
  - specialize (Hmain T Vector.by_move value).
    unfold appended, Vector.PushBack_move, bind.
    destruct (Vector.EmplaceBack Vector.by_move this value σ) as [q σ'|e σ'| |]; try done.
    destruct Hmain as (v & Hmk & -> & Hrest). by exists v.
Qed.

(** X2.  [PopBack] destroys the last element and keeps buffer and
    capacity; on an empty array it does nothing.  It never throws. *)
Theorem PopBack_correct σ this p cap xs :
  is_vec σ this p cap xs →
  ∃ σ', Vector.PopBack this σ = Done tt σ' ∧
        is_vec σ' this p cap (take (length xs - 1) xs) ∧
        leaked σ' = leaked σ ∧ raws σ' = raws σ ∧
        (xs = [] → σ' = σ).
Proof.
  intros Hvec. destruct xs as [|x ys _] using rev_ind.
  - exists σ. split; [by eapply PopBack_empty|]. by split.
  - assert (Hlt : length ys < cap).
    { destruct Hvec as (_ & Hle & _). rewrite length_app in Hle. simpl in Hle. lia. }
    assert (∃ b, p = Ptr b 0) as [b ->].
    { destruct Hvec as (_ & _ & _ & Hb). destruct p as [|b off]; [simpl in Hb; lia|].
      destruct Hb as [-> _]. by exists b. }
    eexists. split; [by eapply PopBack_eval|].
    rewrite length_app. simpl. replace (length ys + 1 - 1) with (length ys) by lia.
    rewrite take_app_length.
    split; [|split; [done|split; [done|]]].
    + apply (is_vec_updated σ this b cap (ys ++ [x])); [done|lia].
    + intros Hnil. by destruct ys.
Qed.

(** X3.  An [EmplaceBack] into spare capacity followed by [PopBack]
    gives back exactly the store before the two calls; so does a
    [PushBack], of an lvalue or of an rvalue, followed by [PopBack]. *)
Theorem PushBack_PopBack {A} (make : A → A * (exn + T)) σ this p cap xs args v :
  is_vec σ this p cap xs → length xs < cap → (make args).2 = inr v →
  (Vector.EmplaceBack make this args ;; Vector.PopBack this) σ = Done tt σ ∧
  (∀ value, elem_copy value = None →
            (Vector.PushBack_copy this value ;; Vector.PopBack this) σ = Done tt σ) ∧
  (∀ value, (elem_move value).2 = None →
            (Vector.PushBack_move this value ;; Vector.PopBack this) σ = Done tt σ).
Proof.
  intros Hvec Hlt Hmk.
  assert (Hmain : ∀ B (mk : B → B * (exn + T)) a w, (mk a).2 = inr w →
            (Vector.EmplaceBack mk this a ;; Vector.PopBack this) σ = Done tt σ).
  { intros B mk a w Hw. destruct (is_vec_room _ _ _ _ _ Hvec Hlt) as [b ->].
    pose proof Hvec as (Hv & _ & _ & _ & Hb).
    erewrite bind_done by (rewrite (EmplaceBack_room mk _ _ _ _ _ _ Hvec Hlt), Hw; done).
    erewrite PopBack_eval.
    2:{ replace (S (length xs)) with (length (xs ++ [w]))
          by (rewrite length_app; simpl; lia).
        apply (is_vec_updated σ this b cap xs); [done|]. rewrite length_app. simpl. lia. }
    f_equal. apply state_eq; simpl; try done.
    - rewrite insert_insert_eq. by apply insert_id.
    - rewrite insert_insert_eq. by apply insert_id. }
  split; [by eapply Hmain|].
  split; intros value Hok.
  - specialize (Hmain T Vector.by_copy value value).
    unfold Vector.by_copy in Hmain at 1. simpl in Hmain. rewrite Hok in Hmain.
    specialize (Hmain eq_refl). revert Hmain.
    unfold Vector.PushBack_copy, bind.
    by destruct (Vector.EmplaceBack Vector.by_copy this value σ).
  - specialize (Hmain T Vector.by_move value value).
    unfold Vector.by_move in Hmain at 1. simpl in Hmain. rewrite Hok in Hmain.
    specialize (Hmain eq_refl). revert Hmain.
    unfold Vector.PushBack_move, bind.
    by destruct (Vector.EmplaceBack Vector.by_move this value σ).
Qed.

(** X4.  For a new length whose byte size fits [size_t]: [Resize] to at
    most the length destroys the elements from the new length on and
    keeps buffer and capacity.  [Resize] to more appends the
    value-initialised elements, after a [Reserve] of the new length.
    When it throws, the length is as before: by [bad_alloc] or in the
    transfer of [Reserve] the array is as [Reserve] leaves it; when a
    value initialisation throws, the elements built before it are
    destroyed and the old elements are unchanged, though the array may
    already be in the larger block. *)
Theorem Resize_correct σ this p cap xs m :
  is_vec σ this p cap xs → fits (m * sizeof_T) →
  (m ≤ length xs →
   ∃ σ', Vector.Resize this m σ = Done tt σ' ∧
         is_vec σ' this p cap (take m xs) ∧ leaked σ' = leaked σ) ∧
  (length xs < m →
   match Vector.Resize this m σ with
   | Done _ σ' =>
       ∃ p', (value_run 0 (m - length xs)).2 = None ∧
             is_vec σ' this p' (cap `max` m) (xs ++ (value_run 0 (m - length xs)).1) ∧
             (m ≤ cap → p' = p) ∧ leaked σ' = leaked σ
   | Thrown e σ' =>
       (e = bad_alloc ∧ σ' = σ) ∨
       (cap < m ∧ (reserve_run xs).2 = Some e ∧
        σ' = with_cells p (vec_cells cap (reserve_run xs).1) σ) ∨
       ((value_run 0 (m - length xs)).2 = Some e ∧
        ∃ p', is_vec σ' this p' (cap `max` m) xs ∧ (m ≤ cap → σ' = σ) ∧
              leaked σ' = leaked σ)
   | Abort | Undef => False
   end).
Proof.
  intros Hvec Hfit. pose proof Hvec as (Hv & Hle & Hlim & Hb). split.
  - intros Hm. eexists. split; [by eapply Resize_shrink|].
    split; [|simpl; by rewrite leaked_with_cells].
    split; [simpl; rewrite lookup_insert_eq, length_take_le by done; done|].
    split; [rewrite length_take; lia|]. split; [done|].
    eapply (buffer_holds_blocks (with_cells p (vec_cells cap (take m xs)) σ)); [done|].
    apply buffer_holds_with_cells; [|done|].
    + intros b off ->. by destruct Hb.
    + intros ->. exact Hb.
  - intros Hlt. rewrite (Resize_grow_eval _ _ _ _ _ _ Hvec Hlt).
    destruct (Nat.le_gt_cases m cap) as [Hmc|Hcm].
    + rewrite (Reserve_noop _ _ _ _ _ _ Hvec Hmc).
      rewrite Nat.max_l by done.
      assert (∃ b, p = Ptr b 0) as [b ->].
      { destruct p as [|b off]; [simpl in Hb; lia|]. destruct Hb as [-> _]. by exists b. }
      rewrite (Resize_fill _ _ _ _ _ _ Hvec Hlt Hmc).
      destruct (value_run 0 (m - length xs)).2 as [e|] eqn:Hinit.
      * right. right. split; [done|]. exists (Ptr b 0). by split_and!.
      * pose proof (value_run_length _ _ Hinit) as Hlen.
        exists (Ptr b 0). split; [done|]. split; [|done].
        split; [simpl; rewrite lookup_insert_eq, length_app, Hlen;
                do 2 f_equal; lia|].
        split; [rewrite length_app, Hlen; lia|]. split; [done|].
        split; [done|]. simpl. by rewrite lookup_insert_eq.
    + rewrite Nat.max_r by lia.
      destruct (N.leb_spec (N.of_nat (m * sizeof_T)) heap_limit) as [Hok|Hbad].
      2:{ rewrite (Reserve_bad_alloc _ _ _ _ _ _ Hvec Hcm Hfit Hbad). by left. }
      rewrite (Reserve_grow _ _ _ _ _ _ Hvec Hcm Hfit Hok). cbv zeta.
      destruct (reserve_run xs).2 as [e|] eqn:Hrun.
      { right. left. by split_and!. }
      set (b' := fresh (dom (blocks σ))).
      set (σ1 := mkState _ _ _ _).
      assert (Hvec1 : is_vec σ1 this (Ptr b' 0) m xs).
      { split; [simpl; by rewrite lookup_insert_eq|]. split; [lia|]. split; [done|].
        split; [done|]. simpl. by rewrite lookup_insert_eq. }
      rewrite (Resize_fill _ _ _ _ _ _ Hvec1 Hlt (le_n m)).
      destruct (value_run 0 (m - length xs)).2 as [e|] eqn:Hinit.
      * right. right. split; [done|]. exists (Ptr b' 0).
        split; [done|]. split; [lia|done].
      * pose proof (value_run_length _ _ Hinit) as Hlen.
        exists (Ptr b' 0). split; [done|]. split; [|split; [lia|done]].
        split; [simpl; rewrite lookup_insert_eq, length_app, Hlen;
                do 2 f_equal; lia|].
        split; [rewrite length_app, Hlen; lia|]. split; [done|].
        split; [done|]. simpl. by rewrite lookup_insert_eq.
Qed.

(** X5.  For a size whose byte size fits [size_t], [Vector(size)] builds
    an array of the [size] value-initialised elements, whose capacity is
    [size]; for [size = 0] nothing is allocated.  When the allocation
    fails or the constructor of some element throws, the store is
    exactly as before: the elements built before it have been
    destroyed and the block has been given back. *)
Theorem ctor_size_correct σ this n :
  vecs σ !! this = None → fits (n * sizeof_T) →
  match Vector.ctor_size this n σ with
  | Done _ σ' =>
      ∃ p, is_vec σ' this p n (value_run 0 n).1 ∧ (value_run 0 n).2 = None ∧
           leaked σ' = leaked σ ∧
           (n = 0 → p = Null ∧ blocks σ' = blocks σ)
  | Thrown e σ' =>
      σ' = σ ∧ 0 < n ∧
      if (N.of_nat (n * sizeof_T) <=? heap_limit)%N
      then (value_run 0 n).2 = Some e else e = bad_alloc
  | Abort | Undef => False
  end.
Proof. exact (ctor_size_outcome σ this n). Qed.

(** X6.  The copy constructor builds an array with the elements of the
    source, in a block of its own whose capacity is the length of the
    source (not its capacity); the source is unchanged.  When a copy
    throws, the store is exactly as before. *)
Theorem ctor_copy_correct σ this rhs pr capr ys :
  vecs σ !! this = None → is_vec σ rhs pr capr ys →
  match Vector.ctor_copy this rhs σ with
  | Done _ σ' =>
      ∃ p', is_vec σ' this p' (length ys) ys ∧
            is_vec σ' rhs pr capr ys ∧
            apart p' pr ∧
            leaked σ' = leaked σ ∧
            copy_run ys = None
  | Thrown e σ' => copy_run ys = Some e ∧ σ' = σ
  | Abort | Undef => False
  end.
Proof. exact (ctor_copy_outcome σ this rhs pr capr ys). Qed.

(** X7.  The move constructor takes over the buffer of the source with
    its capacity and elements, and leaves the source empty, with a null
    buffer and capacity 0.  No element is constructed, moved or
    destroyed, and nothing is allocated. *)
Theorem ctor_move_correct σ this other p cap xs :
  vecs σ !! this = None → is_vec σ other p cap xs →
  ∃ σ', Vector.ctor_move this other σ = Done tt σ' ∧
        is_vec σ' this p cap xs ∧
        is_vec σ' other Null 0 [] ∧
        blocks σ' = blocks σ ∧ leaked σ' = leaked σ.
Proof.
  intros Hfresh (Hv & Hle & Hlim & Hb). assert (Hne : other ≠ this) by congruence.
  eexists. split; [by apply ctor_move_eval|].
  split.
  { split; [simpl; by rewrite lookup_insert_eq|]. split; [done|]. split; [done|].
    by eapply buffer_holds_blocks. }
  split; [|done].
  split; [simpl; rewrite lookup_insert_ne by done; by rewrite lookup_insert_eq|].
  split; [done|]. split; [lia|done].
Qed.

(** X8.  The destructor destroys every element and gives the block
    back: the object and its block are gone, no element is lost without
    its destructor, and nothing else in the store changes. *)
Theorem dtor_correct σ this p cap xs :
  is_vec σ this p cap xs →
  ∃ σ', Vector.dtor this σ = Done tt σ' ∧
        vecs σ' = delete this (vecs σ) ∧
        blocks σ' = release p (blocks σ) ∧
        (∀ b off, p = Ptr b off → blocks σ' !! b = None) ∧
        leaked σ' = leaked σ ∧ raws σ' = raws σ.
Proof.
  intros Hvec. eexists. split; [by eapply Vector_dtor_eval|].
  split; [done|]. split; [done|]. split; [|done].
  intros b off ->. simpl. by rewrite lookup_delete_eq.
Qed.

(** X9.  An array that is constructed ([Vector(size)], for a size whose
    byte size fits [size_t], or the copy constructor) and then destroyed
    leaves the store exactly as it was before the construction; so does
    a construction that throws, at whichever element. *)
Theorem construct_destroy σ this n rhs pr capr ys :
  vecs σ !! this = None → fits (n * sizeof_T) → is_vec σ rhs pr capr ys →
  match (Vector.ctor_size this n ;; Vector.dtor this) σ with
  | Done _ σ' | Thrown _ σ' => σ' = σ
  | Abort | Undef => False
  end ∧
  match (Vector.ctor_copy this rhs ;; Vector.dtor this) σ with
  | Done _ σ' | Thrown _ σ' => σ' = σ
  | Abort | Undef => False
  end.
Proof.
  intros Hfresh Hfit Hvecr. pose proof (fresh_block_None σ) as Hb'. split.
  - pose proof (ctor_size_outcome σ this n Hfresh Hfit) as Hc.
    unfold bind at 1.
    destruct (Vector.ctor_size this n σ) as [[] σ1|e σ1| |] eqn:Hrun; [|by destruct Hc|done..].
    rewrite ctor_size_eval in Hrun by done.
    destruct Hc as (p & Hvec1 & _).
    rewrite (Vector_dtor_eval _ _ _ _ _ Hvec1).
    destruct (Nat.eqb_spec n 0) as [->|Hnz].
    + injection Hrun as <-. destruct Hvec1 as (Hv1 & _). simpl in Hv1.
      rewrite lookup_insert_eq in Hv1. injection Hv1 as <-.
      simpl. destruct σ. simpl in *. f_equal. by rewrite delete_insert_id.
    + destruct (N.of_nat (n * sizeof_T) <=? heap_limit)%N; [|done].
      destruct (value_run 0 n).2 as [e|]; [done|]. cbv zeta in Hrun.
      injection Hrun as <-. destruct Hvec1 as (Hv1 & _). simpl in Hv1.
      rewrite lookup_insert_eq in Hv1. injection Hv1 as <-.
      simpl. destruct σ. simpl in *. f_equal; by rewrite delete_insert_id.
  - pose proof (ctor_copy_outcome σ this rhs pr capr ys Hfresh Hvecr) as Hc.
    unfold bind at 1.
    destruct (Vector.ctor_copy this rhs σ) as [[] σ1|e σ1| |] eqn:Hrun; [|by destruct Hc|done..].
    rewrite (ctor_copy_eval _ _ _ _ _ _ Hfresh Hvecr) in Hrun. cbv zeta in Hrun.
    destruct Hc as (p & Hvec1 & _).
    rewrite (Vector_dtor_eval _ _ _ _ _ Hvec1).
    destruct (copy_run ys); [done|].
    injection Hrun as <-. destruct Hvec1 as (Hv1 & _). simpl in Hv1.
    rewrite lookup_insert_eq in Hv1. injection Hv1 as <-.
    destruct (length ys =? 0); simpl.
    + destruct σ. simpl in *. f_equal. by rewrite delete_insert_id.
    + destruct σ. simpl in *. f_equal; by rewrite delete_insert_id.
Qed.

(** X10.  [Swap] exchanges the buffers, capacities and lengths of two
    arrays, so that each holds what the other held; no element is
    touched.  Swapping twice gives back the store before, and swapping
    an array with itself does nothing. *)
Theorem Swap_correct σ this other p cap xs q d ys :
  this ≠ other → is_vec σ this p cap xs → is_vec σ other q d ys →
  (∃ σ', Vector.Swap this other σ = Done tt σ' ∧
         is_vec σ' this q d ys ∧ is_vec σ' other p cap xs ∧
         blocks σ' = blocks σ ∧ leaked σ' = leaked σ) ∧
  (Vector.Swap this other ;; Vector.Swap this other) σ = Done tt σ ∧
  Vector.Swap this this σ = Done tt σ.
Proof.
  intros Hne Hvec Hvec'.
  pose proof Hvec as (Hv & _). pose proof Hvec' as (Ho & _).
  split; [|split; [by eapply Swap_twice|by eapply Vector_Swap_self]].
  eexists. split; [by eapply Vector_Swap_eval|].
  destruct (is_vec_swapped _ _ _ _ _ _ _ _ _ Hne Hvec Hvec') as [? ?].
  by split_and!.
Qed.

(** X11.  Move assignment from another array exchanges the two arrays:
    the destination gets the buffer and elements of the source, and the
    source is left holding the former elements of the destination, which
    are not destroyed by the assignment. *)
Theorem move_assign_correct σ this rhs p cap xs q d ys :
  this ≠ rhs → is_vec σ this p cap xs → is_vec σ rhs q d ys →
  ∃ σ', Vector.move_assign this rhs σ = Done tt σ' ∧
        is_vec σ' this q d ys ∧ is_vec σ' rhs p cap xs ∧
        blocks σ' = blocks σ ∧ leaked σ' = leaked σ.
Proof.
  intros Hne Hvec Hvec'.
  pose proof Hvec as (Hv & _). pose proof Hvec' as (Ho & _).
  unfold Vector.move_assign. rewrite bool_decide_eq_false_2 by done. simpl.
  eexists. split; [by eapply Vector_Swap_eval|].
  destruct (is_vec_swapped _ _ _ _ _ _ _ _ _ Hne Hvec Hvec') as [? ?].
  by split_and!.
Qed.

(** X12.  [operator[]] with an index below the length gives the
    address of that element and changes nothing.  With an index at or
    beyond the length the assertion stops the program; with [NDEBUG]
    nothing is checked and the address past the elements is returned.
    The [const] overload does the same. *)
Theorem subscript_correct σ this p cap xs i :
  is_vec σ this p cap xs →
  (∀ x, xs !! i = Some x →
        Vector.at_ this i σ = Done (ptr_add p i) σ ∧
        load (ptr_add p i) σ = Done x σ) ∧
  (length xs ≤ i →
   Vector.at_ this i σ = if NDEBUG then Done (ptr_add p i) σ else Abort) ∧
  Vector.at_const this i σ = Vector.at_ this i σ.
Proof.
  intros Hvec. pose proof Hvec as (Hv & Hle & _).
  split; [|split; [|done]].
  - intros x Hi. pose proof (lookup_lt_Some _ _ _ Hi) as Hlt.
    split; [|by eapply load_vec].
    unfold Vector.at_. mstep.
    erewrite bind_done by (apply assert_ok; by apply Nat.ltb_lt).
    erewrite at_data by (done || (simpl; lia)). done.
  - intros Hge. unfold Vector.at_, RawMemory.at_, assert. mstep.
    destruct NDEBUG; [|by destruct (Nat.ltb_spec i (length xs)); [lia|]].
    rewrite bind_ret_l. mstep. rewrite bind_ret_l. by mstep.
Qed.

(** X13.  The observers of an array: [Size()] is the number of
    elements, [Capacity()] the capacity of the buffer, [begin()] the
    buffer and [end()] the address [Size()] slots further, so that
    [end() - begin() = Size()]; the element of index [i] is the object at
    [begin() + i].  The [const] overloads, [cbegin()] and [cend()] give
    the same addresses; none of them changes the store. *)
Theorem observers_correct σ this p cap xs :
  is_vec σ this p cap xs →
  Vector.Size this σ = Done (length xs) σ ∧
  Vector.Capacity this σ = Done cap σ ∧
  Vector.begin this σ = Done p σ ∧
  Vector.end_ this σ = Done (ptr_add p (length xs)) σ ∧
  Vector.begin_const this σ = Done p σ ∧
  Vector.cbegin this σ = Done p σ ∧
  Vector.end_const this σ = Done (ptr_add p (length xs)) σ ∧
  Vector.cend this σ = Done (ptr_add p (length xs)) σ ∧
  ptr_diff (ptr_add p (length xs)) p σ = Done (length xs) σ ∧
  (∀ i x, xs !! i = Some x → load (ptr_add p i) σ = Done x σ).
Proof.
  intros Hvec. pose proof Hvec as (Hv & Hle & _ & Hb).
  unfold Vector.Size, Vector.Capacity, Vector.begin, Vector.end_, Vector.begin_const,
    Vector.cbegin, Vector.end_const, Vector.cend, RawMemory.Capacity,
    RawMemory.GetAddress, RawMemory.GetAddress_const.
  split_and!.
  - by rewrite (get_size_eq _ _ _ Hv).
  - by rewrite (get_capacity_data _ _ _ Hv).
  - by rewrite (get_buffer_data _ _ _ Hv).
  - by do 2 mstep.
  - by rewrite (get_buffer_data _ _ _ Hv).
  - by rewrite (get_buffer_data _ _ _ Hv).
  - by do 2 mstep.
  - by do 2 mstep.
  - destruct p as [|b off].
    + simpl in Hb. replace (length xs) with 0 by lia. done.
    + destruct Hb as [-> _]. simpl.
      rewrite ptr_diff_same by lia. do 2 f_equal. lia.
  - intros i x Hi. by eapply load_vec.
Qed.

(** X14.  For a capacity whose byte size fits [size_t],
    [RawMemory(capacity)] records the capacity and owns a fresh block of
    that many raw slots, or no block at all for capacity 0; when the
    allocation fails it throws [bad_alloc] and the store is as before.
    Destroying the object right away gives the block back: the store is
    exactly the one before the construction. *)
Theorem RawMemory_lifetime σ a n :
  raws σ !! a = None → fits (n * sizeof_T) →
  match RawMemory.ctor (RawObj a) n σ with
  | Done _ σ1 =>
      ∃ p, raws σ1 !! a = Some (mkRawMemory p n) ∧
           buffer_holds σ1 p n [] ∧
           (n = 0 → p = Null ∧ blocks σ1 = blocks σ) ∧
           (0 < n → ∃ b, p = Ptr b 0 ∧ blocks σ !! b = None) ∧
           RawMemory.destroy (RawObj a) σ1 = Done tt σ
  | Thrown e σ1 =>
      e = bad_alloc ∧ σ1 = σ ∧ (heap_limit < N.of_nat (n * sizeof_T))%N
  | Abort | Undef => False
  end.
Proof.
  intros Ha Hfit. unfold RawMemory.ctor.
  destruct (Nat.eq_dec n 0) as [->|Hnz].
  - unfold RawMemory.Allocate, bind, init_raw, ret. simpl.
    exists Null. split; [simpl; by rewrite lookup_insert_eq|]. split; [done|].
    split; [done|]. split; [lia|].
    erewrite destroy_obj_null by (simpl; by rewrite lookup_insert_eq).
    f_equal. apply state_eq; simpl; try done. by rewrite delete_insert_id.
  - unfold bind. rewrite Allocate_spec by (done || lia).
    pose proof (fresh_block_None σ) as Hb'.
    destruct (N.leb_spec (N.of_nat (n * sizeof_T)) heap_limit) as [Hok|Hbad]; [|done].
    unfold init_raw. exists (Ptr (fresh (dom (blocks σ))) 0).
    split; [simpl; by rewrite lookup_insert_eq|].
    assert (Hh : buffer_holds
                   (set_raws (insert a (mkRawMemory (Ptr (fresh (dom (blocks σ))) 0) n))
                      (set_blocks (insert (fresh (dom (blocks σ))) (replicate n Raw)) σ))
                   (Ptr (fresh (dom (blocks σ))) 0) n []).
    { split; [done|]. simpl. rewrite lookup_insert_eq. unfold vec_cells. simpl.
      by rewrite Nat.sub_0_r. }
    split; [exact Hh|]. split; [lia|]. split; [by eexists|].
    erewrite destroy_obj_raw; [|simpl; by rewrite lookup_insert_eq|exact Hh].
    f_equal. apply state_eq; simpl; try done; by rewrite delete_insert_id.
Qed.




(** X18.  When a move assignment throws during [Erase], the exception
    propagates with the length, capacity and buffer as before: no
    element has been destroyed and those before the position are
    untouched, while elements after it may already have been shifted. *)
Theorem Erase_basic_guarantee σ this b cap xs i x e σ' :
  is_vec σ this (Ptr b 0) cap xs → xs !! i = Some x →
  Vector.Erase this (Ptr b i) σ = Thrown e σ' →
  ∃ xs', is_vec σ' this (Ptr b 0) cap xs' ∧ length xs' = length xs ∧
         take i xs' = take i xs ∧
         xs' = take i xs ++ (shift_run x (drop (S i) xs)).1 ∧
         (shift_run x (drop (S i) xs)).2 = Some e ∧
         leaked σ' = leaked σ.
Proof.
  intros Hvec Hi Hrun.
  pose proof (take_drop_middle xs i x Hi) as Hxs.
  pose proof (lookup_lt_Some _ _ _ Hi) as Hlt.
  assert (Hl1 : length (take i xs) = i) by (rewrite length_take; lia).
  rewrite <-Hxs in Hvec.
  replace (Vector.Erase this (Ptr b i) σ)
    with (Vector.Erase this (Ptr b (length (take i xs))) σ) in Hrun by (by rewrite Hl1).
  rewrite (Erase_eval _ _ _ _ _ _ _ Hvec) in Hrun.
  destruct (shift_run x (drop (S i) xs)).2 as [e'|] eqn:Hsr; [|done].
  injection Hrun as <- <-.
  exists (take i xs ++ (shift_run x (drop (S i) xs)).1).
  assert (Hl : length (take i xs ++ (shift_run x (drop (S i) xs)).1)
               = length (take i xs ++ x :: drop (S i) xs)).
  { rewrite !length_app, shift_run_length. done. }
  split; [by apply (is_vec_set_cells _ _ _ _ _ _ Hvec)|].
  split; [by rewrite Hl, Hxs|].
  split; [rewrite <-Hl1 at 1; by rewrite take_app_length|].
  done.
Qed.

(** X19.  After a [Reserve] of more than the length, for a request
    whose byte size fits [size_t], [EmplaceBack] appends without
    reallocating: the buffer and the capacity are those that [Reserve]
    left, and the elements stay where they are. *)
Theorem Reserve_then_EmplaceBack {A} (make : A → A * (exn + T)) σ this p cap xs n args σ1 :
  is_vec σ this p cap xs → fits (n * sizeof_T) → length xs < n →
  Vector.Reserve this n σ = Done tt σ1 →
  ∃ p1, is_vec σ1 this p1 (cap `max` n) xs ∧
        match Vector.EmplaceBack make this args σ1 with
        | Done q σ2 =>
            ∃ v, (make args).2 = inr v ∧ q = ptr_add p1 (length xs) ∧
                 is_vec σ2 this p1 (cap `max` n) (xs ++ [v])
        | Thrown e σ2 => (make args).2 = inl e ∧ σ2 = σ1
        | Abort | Undef => False
        end.
Proof.
  intros Hvec Hfit Hlt Hres.
  assert (∃ p1, is_vec σ1 this p1 (cap `max` n) xs) as [p1 Hvec1].
  { destruct (Nat.le_gt_cases n cap) as [Hnc|Hcn].
    - rewrite (Reserve_noop _ _ _ _ _ _ Hvec Hnc) in Hres. injection Hres as <-.
      exists p. by rewrite Nat.max_l.
    - rewrite Nat.max_r by lia.
      destruct (N.leb_spec (N.of_nat (n * sizeof_T)) heap_limit) as [Hok|Hbad].
      2:{ by rewrite (Reserve_bad_alloc _ _ _ _ _ _ Hvec Hcn Hfit Hbad) in Hres. }
      rewrite (Reserve_grow _ _ _ _ _ _ Hvec Hcn Hfit Hok) in Hres. cbv zeta in Hres.
      destruct (reserve_run xs).2; [done|]. injection Hres as <-.
      eexists. apply is_vec_fresh_block; [lia|done]. }
  exists p1. split; [done|].
  assert (Hroom : length xs < cap `max` n) by lia.
  assert (∃ b, p1 = Ptr b 0) as [b ->].
  { destruct Hvec1 as (_ & _ & _ & Hb). destruct p1 as [|b off]; [simpl in Hb; lia|].
    destruct Hb as [-> _]. by exists b. }
  rewrite (EmplaceBack_room make _ _ _ _ _ _ Hvec1 Hroom).
  destruct (make args).2 as [e|v]; [done|].
  exists v. split; [done|]. split; [done|].
  replace (S (length xs)) with (length (xs ++ [v])) by (rewrite length_app; simpl; lia).
  destruct Hvec1 as (_ & _ & Hlim & _).
  apply is_vec_fresh_block; [|done]. rewrite length_app. simpl. lia.
Qed.

(** X20.  The default constructor gives an empty array with a null
    buffer and capacity 0, without allocating.  The first [EmplaceBack]
    on it allocates a block of capacity 1 that holds the new element;
    when it throws, the array is still empty. *)
Theorem default_constructed {A} (make : A → A * (exn + T)) σ this args :
  ∃ σ1, Vector.ctor_default this σ = Done tt σ1 ∧
        is_vec σ1 this Null 0 [] ∧
        blocks σ1 = blocks σ ∧ leaked σ1 = leaked σ ∧
        match Vector.EmplaceBack make this args σ1 with
        | Done q σ2 =>
            ∃ v b', (make args).2 = inr v ∧ q = Ptr b' 0 ∧
                    is_vec σ2 this (Ptr b' 0) 1 [v]
        | Thrown e σ2 => σ2 = σ1 ∧ (e = bad_alloc ∨ (make args).2 = inl e)
        | Abort | Undef => False
        end.
Proof.
  assert (Hrun : Vector.ctor_default this σ
                 = Done tt (set_vecs (insert this (mkVector (mkRawMemory Null 0) 0)) σ)).
  { unfold Vector.ctor_default, RawMemory.ctor_default.
    unfold bind, init_raw. erewrite set_size_eq by (simpl; by rewrite lookup_insert_eq).
    f_equal. apply state_eq; simpl; try done. by rewrite insert_insert_eq. }
  eexists. split; [exact Hrun|].
  assert (Hvec1 : is_vec (set_vecs (insert this (mkVector (mkRawMemory Null 0) 0)) σ)
                    this Null 0 []).
  { split; [simpl; by rewrite lookup_insert_eq|]. split; [done|]. split; [lia|done]. }
  split; [done|]. split; [done|]. split; [done|].
  rewrite (EmplaceBack_full make _ _ _ _ _ _ Hvec1 eq_refl). cbv zeta.
  assert (Hrel : (relocate_run (@nil T)).2 = None).
  { unfold relocate_run. by destruct (_ || _). }
  rewrite Hrel.
  destruct (N.leb_spec (N.of_nat (1 `max` (2 * 0) * sizeof_T)) heap_limit) as [Hok|Hbad].
  2:{ split; [done|by left]. }
  destruct (make args).2 as [e|v]; [split; [done|by right]|].
  simpl. exists v, (fresh (dom (blocks σ))). split; [done|]. split; [done|].
  change 1 with (length [v]) at 2.
  apply is_vec_fresh_block; [done|]. exact Hok.
Qed.

(** X21.  [RawMemory(capacity)] does not check the product
    [capacity * sizeof(T)]: when it does not fit [size_t], the request is
    made for the wrapped number of bytes, and the object records the
    capacity asked for while its block has room for fewer elements. *)
Theorem Allocate_unchecked_product σ a n :
  ¬ fits (n * sizeof_T) →
  (N.of_nat (wrap (n * sizeof_T)) <= heap_limit)%N →
  ∃ b cs,
    RawMemory.ctor (RawObj a) n σ
    = Done tt (set_raws (insert a (mkRawMemory (Ptr b 0) n))
                 (set_blocks (insert b cs) σ)) ∧
    blocks σ !! b = None ∧
    length cs < n.
Proof.
  intros Hnofit Hlim.
  assert (Hn : n ≠ 0).
  { intros ->. apply Hnofit. unfold fits, SIZE_MAX. simpl. lia. }
  unfold RawMemory.ctor, RawMemory.Allocate, bind, operator_new, init_raw.
  destruct (Nat.eqb_spec n 0) as [|_]; [done|]. simpl.
  destruct (N.leb_spec (N.of_nat (wrap (n * sizeof_T))) heap_limit) as [_|]; [|lia].
  eexists _, _. split; [reflexivity|]. split; [apply fresh_block_None|].
  rewrite length_replicate.
  pose proof sizeof_pos as Hs.
  apply Nat.Div0.div_lt_upper_bound.
  assert (wrap (n * sizeof_T) < n * sizeof_T); [|lia].
  unfold wrap, fits in *.
  assert (N.of_nat (n * sizeof_T) mod (SIZE_MAX + 1) < SIZE_MAX + 1)%N
    by (apply N.mod_lt; unfold SIZE_MAX; lia).
  lia.
Qed.

End Properties.

(** * Arguments that refer to elements of the array *)

Section Aliasing.
Context `{Platform} {T : Type} `{Element T}.
Implicit Types (σ : state T) (xs ys : list T).

Lemma bind_ext {A B} (m : M T A) (k k' : A → M T B) σ :
  (∀ a σ', k a σ' = k' a σ') → bind m k σ = bind m k' σ.
Proof. intros Hk. unfold bind. destruct (m σ); auto. Qed.

Lemma bind_ext_l {A B} (m m' : M T A) (k : A → M T B) σ :
  m σ = m' σ → bind m k σ = bind m' k σ.
Proof. intros Hm. unfold bind. by rewrite Hm. Qed.

Lemma on_exception_ext {A} (m m' : M T A) h σ :
  m σ = m' σ → on_exception m h σ = on_exception m' h σ.
Proof. intros Hm. unfold on_exception. by rewrite Hm. Qed.

Lemma construct_via_detached {A} (make : A → A * (exn + T)) args p σ :
  Vector.construct_via (Vector.detached make) args p σ = Vector.construct_from make args p σ.
Proof.
  unfold Vector.construct_via, Vector.construct_from, Vector.detached, bind.
  by destruct (make args).2.
Qed.

(** For a pack of the caller's own objects [Emplace_via] is [Emplace]. *)
Lemma Emplace_via_detached {A} (make : A → A * (exn + T)) this pos args σ :
  Vector.Emplace_via (Vector.detached make) this pos args σ
  = Vector.Emplace make this pos args σ.
Proof.
  unfold Vector.Emplace_via, Vector.Emplace.
  do 7 (apply bind_ext; intros ? ?).
  match goal with |- context [?n =? ?c] => destruct (n =? c) end.
  - apply bind_ext. intros n σ1. unfold RawMemory.local.
    do 2 (apply bind_ext; intros ? ?).
    apply bind_ext_l, on_exception_ext.
    apply bind_ext. intros q σ2.
    apply bind_ext_l, on_exception_ext.
    do 3 (apply bind_ext; intros ? ?).
    apply bind_ext_l, construct_via_detached.
  - unfold Vector.detached. unfold bind at 1.
    destruct (make args).2 as [e|v]; [done|]. simpl.
    apply bind_ext. intros n σ1.
    apply bind_ext_l. destruct (negb (n =? 0)); [done|].
    apply bind_ext. intros p σ2.
    apply bind_ext_l, construct_via_detached.
Qed.





End Aliasing.

Section AliasingProperties.
Context `{Platform} {T : Type} `{Element T}.
Implicit Types (σ : state T) (xs ys : list T).



End AliasingProperties.

(** ** The properties on concrete arrays *)

Section FurtherRuns.
Import Probe.

Local Ltac is_vec_tac := split_and!; [reflexivity | simpl; lia | by vm_compute | by split].

Local Abbreviation by_copy := (Vector.by_copy (H0 := text)).

Lemma EmplaceBack_with_room_witness :
  is_vec (H := debug) (H0 := text) (vec0 3 [1; 2]) 0 (Ptr 0 0) 3 [1; 2] ∧
  length [1; 2] < 3 ∧
  (∃ σ', @Vector.EmplaceBack debug nat text nat by_copy 0 7 (vec0 3 [1; 2])
         = Done (Ptr 0 2) σ' ∧
         is_vec (H := debug) (H0 := text) σ' 0 (Ptr 0 0) 3 [1; 2; 7] ∧
         load (Ptr 0 2) σ' = Done 7 σ') ∧
  (∃ σ', @Vector.PushBack_move debug nat text 0 7 (vec0 3 [1; 2]) = Done tt σ' ∧
         is_vec (H := debug) (H0 := text) σ' 0 (Ptr 0 0) 3 [1; 2; 7]).
Proof.
  assert (Hv : is_vec (H := debug) (H0 := text) (vec0 3 [1; 2]) 0 (Ptr 0 0) 3 [1; 2])
    by is_vec_tac.
  assert (Hlt : length [1; 2] < 3) by (simpl; lia).
  split; [exact Hv|]. split; [exact Hlt|].
  destruct (@EmplaceBack_with_room debug nat text nat by_copy (vec0 3 [1; 2]) 0
              (Ptr 0 0) 3 [1; 2] 7 Hv Hlt) as (Hspec & _ & Hmove).
  split.
  - destruct (@Vector.EmplaceBack debug nat text nat by_copy 0 7 (vec0 3 [1; 2]))
      as [q σ'|e σ'| |] eqn:Hrun; vm_compute in Hrun; try discriminate.
    destruct Hspec as (v & Hmk & -> & Hvec' & Hload & _).
    vm_compute in Hmk. injection Hmk as <-.
    exists σ'. split; [reflexivity|]. split; [exact Hvec'|exact Hload].
  - specialize (Hmove 7).
    destruct (@Vector.PushBack_move debug nat text 0 7 (vec0 3 [1; 2]))
      as [q σ'|e σ'| |] eqn:Hrun; vm_compute in Hrun; try discriminate.
    destruct Hmove as (v & Hmk & Hvec' & _).
    vm_compute in Hmk. injection Hmk as <-.
    destruct q. exists σ'. split; [reflexivity|exact Hvec'].
Defined.

Lemma PopBack_correct_witness :
  is_vec (H := debug) (H0 := text) (vec0 3 [1; 2]) 0 (Ptr 0 0) 3 [1; 2] ∧
  ∃ σ', @Vector.PopBack nat 0 (vec0 3 [1; 2]) = Done tt σ' ∧
        is_vec (H := debug) (H0 := text) σ' 0 (Ptr 0 0) 3 [1].
Proof.
  assert (Hv : is_vec (H := debug) (H0 := text) (vec0 3 [1; 2]) 0 (Ptr 0 0) 3 [1; 2])
    by is_vec_tac.
  split; [exact Hv|].
  destruct (@PopBack_correct debug nat text (vec0 3 [1; 2]) 0 (Ptr 0 0) 3 [1; 2] Hv)
    as (σ' & Hrun & Hvec' & _).
  exists σ'. split; [exact Hrun|exact Hvec'].
Defined.

Lemma PushBack_PopBack_witness :
  is_vec (H := debug) (H0 := text) (vec0 3 [1; 2]) 0 (Ptr 0 0) 3 [1; 2] ∧
  length [1; 2] < 3 ∧ (by_copy 7).2 = inr 7 ∧
  (@Vector.EmplaceBack debug nat text nat by_copy 0 7 ;; @Vector.PopBack nat 0)
    (vec0 3 [1; 2]) = Done tt (vec0 3 [1; 2]) ∧
  (@Vector.PushBack_copy debug nat text 0 7 ;; @Vector.PopBack nat 0)
    (vec0 3 [1; 2]) = Done tt (vec0 3 [1; 2]) ∧
  (@Vector.PushBack_move debug nat text 0 7 ;; @Vector.PopBack nat 0)
    (vec0 3 [1; 2]) = Done tt (vec0 3 [1; 2]).
Proof.
  assert (Hv : is_vec (H := debug) (H0 := text) (vec0 3 [1; 2]) 0 (Ptr 0 0) 3 [1; 2])
    by is_vec_tac.
  assert (Hlt : length [1; 2] < 3) by (simpl; lia).
  split; [exact Hv|]. split; [exact Hlt|]. split; [reflexivity|].
  destruct (@PushBack_PopBack debug nat text nat by_copy (vec0 3 [1; 2]) 0 (Ptr 0 0) 3
              [1; 2] 7 7 Hv Hlt eq_refl) as (Hback & Hcopy & Hmove).
  split; [exact Hback|]. split; [exact (Hcopy 7 eq_refl)|exact (Hmove 7 eq_refl)].
Defined.

Lemma Resize_correct_witness :
  is_vec (H := debug) (H0 := counted) (vec0 3 [1; 2]) 0 (Ptr 0 0) 3 [1; 2] ∧
  fits (1 * 4) ∧ fits (4 * 4) ∧ fits (5 * 4) ∧
  (∃ σ', @Vector.Resize debug nat counted 0 1 (vec0 3 [1; 2]) = Done tt σ' ∧
         is_vec (H := debug) (H0 := counted) σ' 0 (Ptr 0 0) 3 [1]) ∧
  (∃ σ' p', @Vector.Resize debug nat counted 0 4 (vec0 3 [1; 2]) = Done tt σ' ∧
            is_vec (H := debug) (H0 := counted) σ' 0 p' 4 [1; 2; 0; 0]) ∧
  (∃ σ' p', @Vector.Resize debug nat counted 0 5 (vec0 3 [1; 2])
            = Thrown (elem_exn 2) σ' ∧
            is_vec (H := debug) (H0 := counted) σ' 0 p' 5 [1; 2] ∧ leaked σ' = []).
Proof.
  assert (Hv : is_vec (H := debug) (H0 := counted) (vec0 3 [1; 2]) 0 (Ptr 0 0) 3 [1; 2])
    by is_vec_tac.
  assert (Hf1 : fits (1 * 4)) by (by vm_compute).
  assert (Hf4 : fits (4 * 4)) by (by vm_compute).
  assert (Hf5 : fits (5 * 4)) by (by vm_compute).
  split; [exact Hv|]. split; [exact Hf1|]. split; [exact Hf4|]. split; [exact Hf5|].
  split; [|split].
  - destruct (proj1 (@Resize_correct debug nat counted (vec0 3 [1; 2]) 0 (Ptr 0 0) 3 [1; 2] 1
                       Hv Hf1) ltac:(simpl; lia)) as (σ' & Hrun & Hvec' & _).
    exists σ'. split; [exact Hrun|exact Hvec'].
  - pose proof (proj2 (@Resize_correct debug nat counted (vec0 3 [1; 2]) 0 (Ptr 0 0) 3 [1; 2] 4
                         Hv Hf4) ltac:(simpl; lia)) as Hspec.
    destruct (@Vector.Resize debug nat counted 0 4 (vec0 3 [1; 2]))
      as [q σ'|e σ'| |] eqn:Hrun; vm_compute in Hrun; try discriminate.
    destruct Hspec as (p' & _ & Hvec' & _).
    destruct q. exists σ', p'. split; [reflexivity|exact Hvec'].
  - pose proof (proj2 (@Resize_correct debug nat counted (vec0 3 [1; 2]) 0 (Ptr 0 0) 3 [1; 2] 5
                         Hv Hf5) ltac:(simpl; lia)) as Hspec.
    destruct (@Vector.Resize debug nat counted 0 5 (vec0 3 [1; 2]))
      as [q σ'|e σ'| |] eqn:Hrun; vm_compute in Hrun; try discriminate.
    destruct Hspec as [[He _]|[(_ & Hr & _)|(He & p' & Hvec' & _ & Hleak)]].
    + injection Hrun as Hrun _. rewrite <-Hrun in He. discriminate He.
    + vm_compute in Hr. discriminate Hr.
    + vm_compute in He. injection He as <-.
      exists σ', p'. split; [reflexivity|]. split; [exact Hvec'|exact Hleak].
Defined.

Lemma ctor_size_correct_witness :
  vecs (vec0 3 [1; 2]) !! 1 = None ∧ fits (2 * 4) ∧ fits (4 * 4) ∧
  (∃ σ' p, @Vector.ctor_size debug nat counted 1 2 (vec0 3 [1; 2]) = Done tt σ' ∧
           is_vec (H := debug) (H0 := counted) σ' 1 p 2 [0; 0]) ∧
  @Vector.ctor_size debug nat counted 1 4 (vec0 3 [1; 2])
  = Thrown (elem_exn 2) (vec0 3 [1; 2]).
Proof.
  assert (Hn : vecs (vec0 3 [1; 2]) !! 1 = None) by reflexivity.
  assert (Hf : fits (2 * 4)) by (by vm_compute).
  assert (Hf4 : fits (4 * 4)) by (by vm_compute).
  split; [exact Hn|]. split; [exact Hf|]. split; [exact Hf4|]. split.
  - pose proof (@ctor_size_correct debug nat counted (vec0 3 [1; 2]) 1 2 Hn Hf) as Hspec.
    destruct (@Vector.ctor_size debug nat counted 1 2 (vec0 3 [1; 2]))
      as [q σ'|e σ'| |] eqn:Hrun; vm_compute in Hrun; try discriminate.
    destruct Hspec as (p & Hvec' & _).
    destruct q. exists σ', p. split; [reflexivity|exact Hvec'].
  - pose proof (@ctor_size_correct debug nat counted (vec0 3 [1; 2]) 1 4 Hn Hf4) as Hspec.
    destruct (@Vector.ctor_size debug nat counted 1 4 (vec0 3 [1; 2]))
      as [q σ'|e σ'| |] eqn:Hrun; vm_compute in Hrun; try discriminate.
    destruct Hspec as (-> & _ & He). vm_compute in He. by injection He as <-.
Defined.

Lemma ctor_copy_correct_witness :
  vecs (vec0 3 [1; 2]) !! 1 = None ∧
  is_vec (H := debug) (H0 := text) (vec0 3 [1; 2]) 0 (Ptr 0 0) 3 [1; 2] ∧
  ∃ σ' p', @Vector.ctor_copy debug nat text 1 0 (vec0 3 [1; 2]) = Done tt σ' ∧
           is_vec (H := debug) (H0 := text) σ' 1 p' 2 [1; 2] ∧
           is_vec (H := debug) (H0 := text) σ' 0 (Ptr 0 0) 3 [1; 2].
Proof.
  assert (Hn : vecs (vec0 3 [1; 2]) !! 1 = None) by reflexivity.
  assert (Hv : is_vec (H := debug) (H0 := text) (vec0 3 [1; 2]) 0 (Ptr 0 0) 3 [1; 2])
    by is_vec_tac.
  split; [exact Hn|]. split; [exact Hv|].
  pose proof (@ctor_copy_correct debug nat text (vec0 3 [1; 2]) 1 0 (Ptr 0 0) 3 [1; 2]
                Hn Hv) as Hspec.
  destruct (@Vector.ctor_copy debug nat text 1 0 (vec0 3 [1; 2]))
    as [q σ'|e σ'| |] eqn:Hrun; vm_compute in Hrun; try discriminate.
  destruct Hspec as (p' & Hvec' & Hvecr & _).
  destruct q. exists σ', p'. split; [reflexivity|]. split; [exact Hvec'|exact Hvecr].
Defined.

Lemma ctor_move_correct_witness :
  vecs (vec0 3 [1; 2]) !! 1 = None ∧
  is_vec (H := debug) (H0 := text) (vec0 3 [1; 2]) 0 (Ptr 0 0) 3 [1; 2] ∧
  ∃ σ', @Vector.ctor_move nat 1 0 (vec0 3 [1; 2]) = Done tt σ' ∧
        is_vec (H := debug) (H0 := text) σ' 1 (Ptr 0 0) 3 [1; 2] ∧
        is_vec (H := debug) (H0 := text) σ' 0 Null 0 [].
Proof.
  assert (Hn : vecs (vec0 3 [1; 2]) !! 1 = None) by reflexivity.
  assert (Hv : is_vec (H := debug) (H0 := text) (vec0 3 [1; 2]) 0 (Ptr 0 0) 3 [1; 2])
    by is_vec_tac.
  split; [exact Hn|]. split; [exact Hv|].
  destruct (@ctor_move_correct debug nat text (vec0 3 [1; 2]) 1 0 (Ptr 0 0) 3 [1; 2] Hn Hv)
    as (σ' & Hrun & Hvec' & Hvecr & _).
  exists σ'. split; [exact Hrun|]. split; [exact Hvec'|exact Hvecr].
Defined.

Lemma dtor_correct_witness :
  is_vec (H := debug) (H0 := text) (vec0 3 [1; 2]) 0 (Ptr 0 0) 3 [1; 2] ∧
  ∃ σ', @Vector.dtor nat 0 (vec0 3 [1; 2]) = Done tt σ' ∧
        vecs σ' !! 0 = None ∧ blocks σ' !! 0 = None ∧ leaked σ' = [].
Proof.
  assert (Hv : is_vec (H := debug) (H0 := text) (vec0 3 [1; 2]) 0 (Ptr 0 0) 3 [1; 2])
    by is_vec_tac.
  split; [exact Hv|].
  destruct (@dtor_correct debug nat text (vec0 3 [1; 2]) 0 (Ptr 0 0) 3 [1; 2] Hv)
    as (σ' & Hrun & Hvs & _ & Hbl & Hleak & _).
  exists σ'. split; [exact Hrun|]. split; [|split; [by apply (Hbl 0 0)|exact Hleak]].
  rewrite Hvs. reflexivity.
Defined.

Lemma construct_destroy_witness :
  vecs (vec0 3 [1; 2]) !! 1 = None ∧ fits (2 * 4) ∧ fits (4 * 4) ∧
  is_vec (H := debug) (H0 := counted) (vec0 3 [1; 2]) 0 (Ptr 0 0) 3 [1; 2] ∧
  (@Vector.ctor_size debug nat counted 1 2 ;; @Vector.dtor nat 1) (vec0 3 [1; 2])
  = Done tt (vec0 3 [1; 2]) ∧
  (@Vector.ctor_size debug nat counted 1 4 ;; @Vector.dtor nat 1) (vec0 3 [1; 2])
  = Thrown (elem_exn 2) (vec0 3 [1; 2]) ∧
  (@Vector.ctor_copy debug nat counted 1 0 ;; @Vector.dtor nat 1) (vec0 3 [1; 2])
  = Done tt (vec0 3 [1; 2]).
Proof.
  assert (Hn : vecs (vec0 3 [1; 2]) !! 1 = None) by reflexivity.
  assert (Hf : fits (2 * 4)) by (by vm_compute).
  assert (Hf4 : fits (4 * 4)) by (by vm_compute).
  assert (Hv : is_vec (H := debug) (H0 := counted) (vec0 3 [1; 2]) 0 (Ptr 0 0) 3 [1; 2])
    by is_vec_tac.
  split; [exact Hn|]. split; [exact Hf|]. split; [exact Hf4|]. split; [exact Hv|].
  destruct (@construct_destroy debug nat counted (vec0 3 [1; 2]) 1 2 0 (Ptr 0 0) 3 [1; 2]
              Hn Hf Hv) as [H1 H2].
  destruct (@construct_destroy debug nat counted (vec0 3 [1; 2]) 1 4 0 (Ptr 0 0) 3 [1; 2]
              Hn Hf4 Hv) as [H3 _].
  split; [|split].
  - destruct ((@Vector.ctor_size debug nat counted 1 2 ;; @Vector.dtor nat 1) (vec0 3 [1; 2]))
      as [q σ'|e σ'| |] eqn:Hrun; vm_compute in Hrun; try discriminate.
    destruct q. by rewrite H1.
  - destruct ((@Vector.ctor_size debug nat counted 1 4 ;; @Vector.dtor nat 1) (vec0 3 [1; 2]))
      as [q σ'|e σ'| |] eqn:Hrun; vm_compute in Hrun; try discriminate.
    injection Hrun as <- _. by rewrite H3.
  - destruct ((@Vector.ctor_copy debug nat counted 1 0 ;; @Vector.dtor nat 1) (vec0 3 [1; 2]))
      as [q σ'|e σ'| |] eqn:Hrun; vm_compute in Hrun; try discriminate.
    destruct q. by rewrite H2.
Defined.

Lemma Swap_correct_witness :
  0 ≠ 1 ∧
  is_vec (H := debug) (H0 := text) (two_vecs 2 [1; 2] 3 [5; 6; 7]) 0 (Ptr 0 0) 2 [1; 2] ∧
  is_vec (H := debug) (H0 := text) (two_vecs 2 [1; 2] 3 [5; 6; 7]) 1 (Ptr 1 0) 3 [5; 6; 7] ∧
  ∃ σ', @Vector.Swap nat 0 1 (two_vecs 2 [1; 2] 3 [5; 6; 7]) = Done tt σ' ∧
        is_vec (H := debug) (H0 := text) σ' 0 (Ptr 1 0) 3 [5; 6; 7] ∧
        is_vec (H := debug) (H0 := text) σ' 1 (Ptr 0 0) 2 [1; 2] ∧
        @Vector.Swap nat 0 1 σ' = Done tt (two_vecs 2 [1; 2] 3 [5; 6; 7]).
Proof.
  set (σ := two_vecs 2 [1; 2] 3 [5; 6; 7]).
  assert (Hne : 0 ≠ 1) by lia.
  assert (Hv0 : is_vec (H := debug) (H0 := text) σ 0 (Ptr 0 0) 2 [1; 2]) by is_vec_tac.
  assert (Hv1 : is_vec (H := debug) (H0 := text) σ 1 (Ptr 1 0) 3 [5; 6; 7]) by is_vec_tac.
  split; [exact Hne|]. split; [exact Hv0|]. split; [exact Hv1|].
  destruct (@Swap_correct debug nat text σ 0 1 (Ptr 0 0) 2 [1; 2] (Ptr 1 0) 3 [5; 6; 7]
              Hne Hv0 Hv1) as ((σ' & Hrun & Hvec0 & Hvec1 & _) & Htwice & _).
  exists σ'. split; [exact Hrun|]. split; [exact Hvec0|]. split; [exact Hvec1|].
  unfold bind in Htwice. rewrite Hrun in Htwice. exact Htwice.
Defined.

Lemma move_assign_correct_witness :
  0 ≠ 1 ∧
  is_vec (H := debug) (H0 := text) (two_vecs 2 [1; 2] 3 [5; 6; 7]) 0 (Ptr 0 0) 2 [1; 2] ∧
  is_vec (H := debug) (H0 := text) (two_vecs 2 [1; 2] 3 [5; 6; 7]) 1 (Ptr 1 0) 3 [5; 6; 7] ∧
  ∃ σ', @Vector.move_assign nat 0 1 (two_vecs 2 [1; 2] 3 [5; 6; 7]) = Done tt σ' ∧
        is_vec (H := debug) (H0 := text) σ' 0 (Ptr 1 0) 3 [5; 6; 7] ∧
        is_vec (H := debug) (H0 := text) σ' 1 (Ptr 0 0) 2 [1; 2].
Proof.
  set (σ := two_vecs 2 [1; 2] 3 [5; 6; 7]).
  assert (Hne : 0 ≠ 1) by lia.
  assert (Hv0 : is_vec (H := debug) (H0 := text) σ 0 (Ptr 0 0) 2 [1; 2]) by is_vec_tac.
  assert (Hv1 : is_vec (H := debug) (H0 := text) σ 1 (Ptr 1 0) 3 [5; 6; 7]) by is_vec_tac.
  split; [exact Hne|]. split; [exact Hv0|]. split; [exact Hv1|].
  destruct (@move_assign_correct debug nat text σ 0 1 (Ptr 0 0) 2 [1; 2] (Ptr 1 0) 3
              [5; 6; 7] Hne Hv0 Hv1) as (σ' & Hrun & Hvec0 & Hvec1 & _).
  exists σ'. split; [exact Hrun|]. split; [exact Hvec0|exact Hvec1].
Defined.

Lemma subscript_correct_witness :
  is_vec (H := debug) (H0 := text) (vec0 3 [1; 2]) 0 (Ptr 0 0) 3 [1; 2] ∧
  @Vector.at_ debug nat 0 1 (vec0 3 [1; 2]) = Done (Ptr 0 1) (vec0 3 [1; 2]) ∧
  load (Ptr 0 1) (vec0 3 [1; 2]) = Done 2 (vec0 3 [1; 2]) ∧
  @Vector.at_ debug nat 0 2 (vec0 3 [1; 2]) = Abort ∧
  @Vector.at_ ndebug nat 0 2 (vec0 3 [1; 2]) = Done (Ptr 0 2) (vec0 3 [1; 2]).
Proof.
  assert (Hv : is_vec (H := debug) (H0 := text) (vec0 3 [1; 2]) 0 (Ptr 0 0) 3 [1; 2])
    by is_vec_tac.
  assert (Hv' : is_vec (H := ndebug) (H0 := text) (vec0 3 [1; 2]) 0 (Ptr 0 0) 3 [1; 2])
    by is_vec_tac.
  split; [exact Hv|].
  destruct (@subscript_correct debug nat text (vec0 3 [1; 2]) 0 (Ptr 0 0) 3 [1; 2] 1 Hv)
    as (Hin & _).
  destruct (Hin 2 eq_refl) as [Hat Hload].
  split; [exact Hat|]. split; [exact Hload|]. split.
  - exact (proj1 (proj2 (@subscript_correct debug nat text (vec0 3 [1; 2]) 0 (Ptr 0 0) 3
                           [1; 2] 2 Hv)) ltac:(simpl; lia)).
  - exact (proj1 (proj2 (@subscript_correct ndebug nat text (vec0 3 [1; 2]) 0 (Ptr 0 0) 3
                           [1; 2] 2 Hv')) ltac:(simpl; lia)).
Defined.

Lemma observers_correct_witness :
  is_vec (H := debug) (H0 := text) (vec0 3 [1; 2]) 0 (Ptr 0 0) 3 [1; 2] ∧
  @Vector.Size nat 0 (vec0 3 [1; 2]) = Done 2 (vec0 3 [1; 2]) ∧
  @Vector.Capacity nat 0 (vec0 3 [1; 2]) = Done 3 (vec0 3 [1; 2]) ∧
  @Vector.begin nat 0 (vec0 3 [1; 2]) = Done (Ptr 0 0) (vec0 3 [1; 2]) ∧
  @Vector.end_ nat 0 (vec0 3 [1; 2]) = Done (Ptr 0 2) (vec0 3 [1; 2]) ∧
  load (Ptr 0 1) (vec0 3 [1; 2]) = Done 2 (vec0 3 [1; 2]).
Proof.
  assert (Hv : is_vec (H := debug) (H0 := text) (vec0 3 [1; 2]) 0 (Ptr 0 0) 3 [1; 2])
    by is_vec_tac.
  split; [exact Hv|].
  destruct (@observers_correct debug nat text (vec0 3 [1; 2]) 0 (Ptr 0 0) 3 [1; 2] Hv)
    as (Hs & Hc & Hb & He & _ & _ & _ & _ & _ & Hl).
  split; [exact Hs|]. split; [exact Hc|]. split; [exact Hb|]. split; [exact He|].
  exact (Hl 1 2 eq_refl).
Defined.

Lemma RawMemory_lifetime_witness :
  raws (vec0 3 [1; 2]) !! 5 = None ∧ fits (2 * 4) ∧
  ∃ σ1 p, @RawMemory.ctor debug nat text (RawObj 5) 2 (vec0 3 [1; 2]) = Done tt σ1 ∧
          raws σ1 !! 5 = Some (mkRawMemory p 2) ∧
          @RawMemory.destroy nat (RawObj 5) σ1 = Done tt (vec0 3 [1; 2]).
Proof.
  assert (Hn : raws (vec0 3 [1; 2]) !! 5 = None) by reflexivity.
  assert (Hf : fits (2 * 4)) by (by vm_compute).
  split; [exact Hn|]. split; [exact Hf|].
  pose proof (@RawMemory_lifetime debug nat text (vec0 3 [1; 2]) 5 2 Hn Hf) as Hspec.
  destruct (@RawMemory.ctor debug nat text (RawObj 5) 2 (vec0 3 [1; 2]))
    as [q σ1|e σ1| |] eqn:Hrun; vm_compute in Hrun; try discriminate.
  destruct Hspec as (p & Hr & _ & _ & _ & Hd).
  destruct q. exists σ1, p. split; [reflexivity|]. split; [exact Hr|exact Hd].
Defined.




Lemma Erase_basic_guarantee_witness :
  is_vec (H := debug) (H0 := fragile) (vec0 3 [1; 5; 13]) 0 (Ptr 0 0) 3 [1; 5; 13] ∧
  [1; 5; 13] !! 0 = Some 1 ∧
  ∃ σ', @Vector.Erase debug nat fragile 0 (Ptr 0 0) (vec0 3 [1; 5; 13])
        = Thrown (elem_exn 13) σ' ∧
        is_vec (H := debug) (H0 := fragile) σ' 0 (Ptr 0 0) 3 [5; 0; 13].
Proof.
  assert (Hv : is_vec (H := debug) (H0 := fragile) (vec0 3 [1; 5; 13]) 0 (Ptr 0 0) 3
                 [1; 5; 13]) by is_vec_tac.
  split; [exact Hv|]. split; [reflexivity|].
  destruct (@Vector.Erase debug nat fragile 0 (Ptr 0 0) (vec0 3 [1; 5; 13]))
    as [q σ'|e σ'| |] eqn:Hrun.
  1,3,4: vm_compute in Hrun; discriminate.
  destruct (@Erase_basic_guarantee debug nat fragile (vec0 3 [1; 5; 13]) 0 0 3 [1; 5; 13]
              0 1 e σ' Hv eq_refl Hrun) as (xs' & Hvec' & _ & _ & Hxs' & _).
  vm_compute in Hxs'. subst xs'.
  vm_compute in Hrun. injection Hrun as <- _.
  exists σ'. split; [reflexivity|exact Hvec'].
Defined.

Lemma Reserve_then_EmplaceBack_witness :
  is_vec (H := debug) (H0 := text) (vec0 2 [1; 2]) 0 (Ptr 0 0) 2 [1; 2] ∧
  fits (5 * 4) ∧ length [1; 2] < 5 ∧
  ∃ σ1 σ2 p1, @Vector.Reserve debug nat text 0 5 (vec0 2 [1; 2]) = Done tt σ1 ∧
              is_vec (H := debug) (H0 := text) σ1 0 p1 5 [1; 2] ∧
              @Vector.EmplaceBack debug nat text nat by_copy 0 7 σ1
              = Done (ptr_add p1 2) σ2 ∧
              is_vec (H := debug) (H0 := text) σ2 0 p1 5 [1; 2; 7].
Proof.
  assert (Hv : is_vec (H := debug) (H0 := text) (vec0 2 [1; 2]) 0 (Ptr 0 0) 2 [1; 2])
    by is_vec_tac.
  assert (Hf : fits (5 * 4)) by (by vm_compute).
  assert (Hlt : length [1; 2] < 5) by (simpl; lia).
  split; [exact Hv|]. split; [exact Hf|]. split; [exact Hlt|].
  destruct (@Vector.Reserve debug nat text 0 5 (vec0 2 [1; 2]))
    as [[] σ1|e σ1| |] eqn:Hres.
  2-4: vm_compute in Hres; discriminate.
  destruct (@Reserve_then_EmplaceBack debug nat text nat by_copy (vec0 2 [1; 2]) 0 (Ptr 0 0)
              2 [1; 2] 5 7 σ1 Hv Hf Hlt Hres) as (p1 & Hvec1 & Hpush).
  vm_compute in Hres. injection Hres as Hσ.
  destruct (@Vector.EmplaceBack debug nat text nat by_copy 0 7 σ1)
    as [q σ2|e σ2| |] eqn:Hrun; pose proof Hrun as Hc; rewrite <-Hσ in Hc;
    vm_compute in Hc; try discriminate.
  destruct Hpush as (v & Hmk & -> & Hvec2).
  vm_compute in Hmk. injection Hmk as <-.
  exists σ1, σ2, p1. split; [reflexivity|]. split; [exact Hvec1|].
  split; [exact Hrun|exact Hvec2].
Defined.

Lemma Allocate_unchecked_product_witness :
  ¬ fits (N.to_nat 4611686018427387904 * sizeof_T (Element := text)) ∧
  (N.of_nat (wrap (N.to_nat 4611686018427387904 * sizeof_T (Element := text)))
   <= heap_limit (Platform := debug))%N ∧
  ∃ b cs,
    @RawMemory.ctor debug nat text (RawObj 5) (N.to_nat 4611686018427387904) (vec0 3 [1; 2])
    = Done tt (set_raws (insert 5 (mkRawMemory (Ptr b 0) (N.to_nat 4611686018427387904)))
                 (set_blocks (insert b cs) (vec0 3 [1; 2]))) ∧
    length cs < N.to_nat 4611686018427387904.
Proof.
  assert (Hnf : ¬ fits (N.to_nat 4611686018427387904 * sizeof_T (Element := text))).
  { unfold fits, SIZE_MAX. change (sizeof_T (Element := text)) with 4. lia. }
  assert (Hl : (N.of_nat (wrap (N.to_nat 4611686018427387904 * sizeof_T (Element := text)))
                <= heap_limit (Platform := debug))%N).
  { unfold wrap. change (sizeof_T (Element := text)) with 4.
    rewrite N2Nat.id, Nat2N.inj_mul, N2Nat.id. by vm_compute. }
  split; [exact Hnf|]. split; [exact Hl|].
  destruct (@Allocate_unchecked_product debug nat text (vec0 3 [1; 2]) 5
              (N.to_nat 4611686018427387904) Hnf Hl) as (b & cs & Hrun & _ & Hlen).
  exists b, cs. split; [exact Hrun|exact Hlen].
Defined.

End FurtherRuns.

(** ** On concrete arrays *)

Section AliasingRuns.
Import Probe.
Local Ltac is_vec_tac := split_and!; [reflexivity | simpl; lia | by vm_compute | by split].



End AliasingRuns.
